(** * The YOLO detection layer for rotated boxes (src/models/yolo_layer.py)

    A shallow embedding of [YoloLayer]: the cached grid geometry
    ([compute_grid_offsets]), the decoder and loss of [forward], and the
    target assignment of [build_targets].

    Modelling conventions.
    - A [torch.float] is an exact rational ([Q]): rounding, infinities and
      signed zeros are left out.  The one non-finite value the layer can
      produce from finite inputs, the [nan] of a mean over no elements, is
      kept ([fscalar]).
    - A tensor is a shape and a contiguous row-major buffer ([Tensor]).
    - A Python exception is an [Err] result; the state at the moment of the
      exception is dropped.
    - [torch.exp], [torch.log] and [torch.sigmoid] are parameters
      ([TorchMath]); the rotated-box helpers of
      utils/iou_rotated_boxes_utils.py, which are outside this file, are
      parameters too ([RotatedBoxUtils]).
    - An indexed assignment [t[i0, ..., ik] = v] writes the broadcast
      index tuples one after the other, so that of two writes to one slot
      the later one stays ([index_put]).  torch does not promise an order
      for repeated indices; the order of the index vectors is the one a
      sequential execution gives.
    - [torch.max] along an axis and [argmax] return the first position of
      a maximum ([argmax]).
    - The quotient of two tensors is the quotient of [Q], which is 0 for
      a zero divisor where torch gives an infinity or [nan]; the division
      of Python numbers raises ZeroDivisionError ([pydiv]).
    - Device placement and gradient tracking ([clone], [detach], [to_cpu])
      do not change values and are left out. *)

From Stdlib Require Import QArith Qround Lqa ZArith Lia.
From stdpp Require Import base decidable option list numbers.

Open Scope Q_scope.

(** ** Python exceptions and the result monad *)

Inductive exn : Type :=
  | IndexError
  | RuntimeError
  | ValueError
  | ZeroDivisionError
  | AttributeError.

Inductive result (A : Type) : Type :=
  | Ok (a : A)
  | Err (e : exn).
Arguments Ok {A} a.
Arguments Err {A} e.

#[global] Instance result_ret : MRet result := fun A a => Ok a.
#[global] Instance result_bind : MBind result := fun A B f m =>
  match m with Ok a => f a | Err e => Err e end.
#[global] Instance result_fmap : FMap result := fun A B f m =>
  match m with Ok a => Ok (f a) | Err e => Err e end.

Definition of_option {A} (e : exn) (o : option A) : result A :=
  match o with Some a => Ok a | None => Err e end.

Fixpoint mapR {A B} (f : A -> result B) (l : list A) : result (list B) :=
  match l with
  | [] => Ok []
  | a :: l' => b ← f a; bs ← mapR f l'; Ok (b :: bs)
  end.

(** ** Tensors: a shape and a row-major buffer *)

Record Tensor (A : Type) : Type := mkTensor {
  shape : list nat;
  data : list A
}.
Arguments mkTensor {A} shape data.
Arguments shape {A} t.
Arguments data {A} t.

Definition numel (sh : list nat) : nat := foldr Nat.mul 1%nat sh.

Definition wf_tensor {A} (t : Tensor A) : Prop :=
  length (data t) = numel (shape t).

(** Row-major offset of a multi-index; [None] when the index has the wrong
    rank or a component is out of range. *)
Fixpoint offset (sh idx : list nat) : option nat :=
  match sh, idx with
  | [], [] => Some 0%nat
  | d :: sh', i :: idx' =>
      if decide (i < d)%nat
      then (fun o => i * numel sh' + o)%nat <$> offset sh' idx'
      else None
  | _, _ => None
  end.

(** All the multi-indices of a shape, in buffer order. *)
Fixpoint indices (sh : list nat) : list (list nat) :=
  match sh with
  | [] => [[]]
  | d :: sh' => mjoin ((fun i => cons i <$> indices sh') <$> seq 0 d)
  end.

Definition tget {A} (t : Tensor A) (idx : list nat) : option A :=
  o ← offset (shape t) idx; data t !! o.

(** [torch.full(size, fill_value)] *)
Definition full {A} (sh : list nat) (v : A) : Tensor A :=
  mkTensor sh (replicate (numel sh) v).

(** The tensor of a given shape whose element at [idx] is [f idx]: the
    result of an elementwise or indexing operation, materialised. *)
Definition tabulate {A} (sh : list nat) (f : list nat -> A) : Tensor A :=
  mkTensor sh (f <$> indices sh).

(** Elementwise map ([torch.sigmoid(t)], [t.float()], ...). *)
Definition tmap {A B} (f : A -> B) (t : Tensor A) : Tensor B :=
  mkTensor (shape t) (f <$> data t).

(** [t.view(sh)] on a contiguous tensor, every size given. *)
Definition view {A} (t : Tensor A) (sh : list nat) : result (Tensor A) :=
  if decide (numel sh = length (data t)) then Ok (mkTensor sh (data t))
  else Err RuntimeError.

(** Index normalisation of advanced indexing: an index of a dimension of
    size [d] lies in [-d, d) and a negative one counts from the end. *)
Definition norm_index (d : nat) (i : Z) : option nat :=
  if decide (0 <= i < Z.of_nat d)%Z then Some (Z.to_nat i)
  else if decide (- Z.of_nat d <= i < 0)%Z then Some (Z.to_nat (i + Z.of_nat d))
  else None.

Fixpoint norm_indices (sh : list nat) (idx : list Z) : option (list nat) :=
  match sh, idx with
  | [], [] => Some []
  | d :: sh', i :: idx' =>
      n ← norm_index d i; ns ← norm_indices sh' idx'; Some (n :: ns)
  | _, _ => None
  end.

Definition zoffset (sh : list nat) (idx : list Z) : result nat :=
  of_option IndexError (ns ← norm_indices sh idx; offset sh ns).

(** *** Broadcasting of one-dimensional index and value vectors *)

(** The common length of vectors broadcast together: the first length
    other than 1, when every other length is that one or 1. *)
Definition bcast_len (lens : list nat) : option nat :=
  let n := default 1%nat (head (filter (fun k => k ≠ 1%nat) lens)) in
  if decide (Forall (fun k => k = n ∨ k = 1%nat) lens) then Some n else None.

Definition bexpand {A} (n : nat) (l : list A) : option (list A) :=
  if decide (length l = n) then Some l
  else match l with [v] => Some (replicate n v) | _ => None end.

(** Transposes index vectors of equal length into index tuples. *)
Fixpoint ztuples (n : nat) (cols : list (list Z)) : list (list Z) :=
  match cols with
  | [] => replicate n []
  | c :: cols' => zip_with cons c (ztuples n cols')
  end.

(** The buffer offsets addressed by [t[i1, ..., ik]] for index vectors
    [i1 ... ik] that cover every dimension of the shape. *)
Definition slot_offsets (sh : list nat) (idxs : list (list Z)) : result (list nat) :=
  n ← of_option IndexError (bcast_len (length <$> idxs));
  cols ← of_option IndexError (mapM (bexpand n) idxs);
  mapR (zoffset sh) (ztuples n cols).

(** Writes, in index order: a later write to the same offset replaces an
    earlier one. *)
Fixpoint scatter {A} (d : list A) (offs : list nat) (vals : list A) : list A :=
  match offs, vals with
  | o :: offs', v :: vals' => scatter (<[o := v]> d) offs' vals'
  | _, _ => d
  end.

(** [t[i1, ..., ik] = vals] ([index_put_] without accumulation); a scalar
    right-hand side is a vector of length 1. *)
Definition index_put {A} (t : Tensor A) (idxs : list (list Z)) (vals : list A)
  : result (Tensor A) :=
  offs ← slot_offsets (shape t) idxs;
  vs ← of_option RuntimeError (bexpand (length offs) vals);
  Ok (mkTensor (shape t) (scatter (data t) offs vs)).

(** *** Reading with a default, slicing, permuting, broadcasting *)

Definition tgetd (t : Tensor Q) (idx : list nat) : Q := default 0 (tget t idx).

Definition last_index (idx : list nat) : nat := List.last idx 0%nat.

(** [t[..., k]] *)
Definition select_last (t : Tensor Q) (k : nat) : Tensor Q :=
  tabulate (removelast (shape t)) (fun idx => tgetd t (idx ++ [k])).

(** [t[..., lo:hi]], with Python's clamping of the bounds. *)
Definition slice_last (t : Tensor Q) (lo hi : nat) : Tensor Q :=
  let w := (Nat.min hi (last_index (shape t)) - lo)%nat in
  tabulate (removelast (shape t) ++ [w])
    (fun idx => tgetd t (removelast idx ++ [(lo + last_index idx)%nat])).

(** The position of dimension [d] in a permutation. *)
Fixpoint position (d : nat) (perm : list nat) : nat :=
  match perm with
  | [] => 0%nat
  | p :: perm' => if (p =? d)%nat then 0%nat else S (position d perm')
  end.

(** [t.permute(perm).contiguous()]: dimension [k] of the result is
    dimension [perm[k]] of [t]. *)
Definition permute (perm : list nat) (t : Tensor Q) : Tensor Q :=
  tabulate ((fun p => nth p (shape t) 0%nat) <$> perm)
    (fun idx => tgetd t ((fun d => nth (position d perm) idx 0%nat) <$> seq 0 (length perm))).

(** [t.t()] of a matrix. *)
Definition transpose (t : Tensor Q) : result (Tensor Q) :=
  match shape t with
  | [r; c] => Ok (permute [1; 0]%nat t)
  | _ => Err RuntimeError
  end.

(** [torch.arange(g, dtype=torch.float)] *)
Definition arange (g : nat) : Tensor Q :=
  mkTensor [g] ((fun k => inject_Z (Z.of_nat k)) <$> seq 0 g).

(** [t.repeat(r, 1)] of a vector: [r] rows, each a copy of [t]. *)
Definition repeat_rows (r : nat) (t : Tensor Q) : Tensor Q :=
  mkTensor [r; length (data t)] (mjoin (replicate r (data t))).

Definition pad_shape (r : nat) (sh : list nat) : list nat :=
  replicate (r - length sh) 1%nat ++ sh.

Definition bcast_dim (d1 d2 : nat) : option nat :=
  if decide (d1 = d2) then Some d1
  else if decide (d1 = 1%nat) then Some d2
  else if decide (d2 = 1%nat) then Some d1
  else None.

Definition bcast_shape (sh1 sh2 : list nat) : option (list nat) :=
  mapM (fun p => bcast_dim p.1 p.2) (zip sh1 sh2).

(** The index an operand of shape [sh] is read at for result index [idx]. *)
Definition bcast_index (sh idx : list nat) : list nat :=
  zip_with (fun d i => if decide (d = 1%nat) then 0%nat else i) sh idx.

(** An elementwise binary operation with broadcasting ([a + b], [a * b]). *)
Definition broadcast2 (f : Q -> Q -> Q) (t1 t2 : Tensor Q) : result (Tensor Q) :=
  let r := Nat.max (length (shape t1)) (length (shape t2)) in
  let s1 := pad_shape r (shape t1) in
  let s2 := pad_shape r (shape t2) in
  sh ← of_option RuntimeError (bcast_shape s1 s2);
  Ok (tabulate sh (fun idx =>
        f (tgetd (mkTensor s1 (data t1)) (bcast_index s1 idx))
          (tgetd (mkTensor s2 (data t2)) (bcast_index s2 idx)))).

(** [out = torch.empty(sh + [k]); out[..., c] = chans[c]] for every [c]:
    each channel has to have the shape [sh]. *)
Definition stack_last (sh : list nat) (chans : list (Tensor Q)) : result (Tensor Q) :=
  if decide (Forall (fun t => shape t = sh) chans)
  then Ok (tabulate (sh ++ [length chans])
             (fun idx => tgetd (nth (last_index idx) chans (full [] 0)) (removelast idx)))
  else Err RuntimeError.

(** [t.view(n, -1, c)]: the middle size is inferred. *)
Definition view_infer (t : Tensor Q) (n c : nat) : result (Tensor Q) :=
  let total := length (data t) in
  if decide (n * c = 0)%nat then Err RuntimeError
  else if decide (total `mod` (n * c) = 0)%nat
       then view t [n; (total `div` (n * c))%nat; c]
       else Err RuntimeError.

Fixpoint cat_pick (ts : list (Tensor Q)) (pre : list nat) (c : nat) : Q :=
  match ts with
  | [] => 0
  | t :: ts' =>
      let w := last_index (shape t) in
      if decide (c < w)%nat then tgetd t (pre ++ [c]) else cat_pick ts' pre (c - w)
  end.

(** [torch.cat(ts, dim=-1)] *)
Definition cat_last (ts : list (Tensor Q)) : result (Tensor Q) :=
  match ts with
  | [] => Err RuntimeError
  | t0 :: _ =>
      let pre := removelast (shape t0) in
      if decide (Forall (fun t => shape t ≠ [] ∧ removelast (shape t) = pre) ts)
      then Ok (tabulate (pre ++ [sum_list ((fun t => last_index (shape t)) <$> ts)])
                 (fun idx => cat_pick ts (removelast idx) (last_index idx)))
      else Err RuntimeError
  end.

(** [t[mask]]: the rows of [t] (of [w] buffer elements each) at which the
    mask holds, in buffer order. *)
Fixpoint select_rows {A} (w : nat) (mask : list bool) (d : list A) : list A :=
  match mask with
  | [] => []
  | m :: mask' => (if m then take w d else []) ++ select_rows w mask' (drop w d)
  end.

Definition masked_select (t : Tensor Q) (mask : Tensor bool) : result (list Q) :=
  if decide (shape mask = take (length (shape mask)) (shape t))
  then Ok (select_rows (numel (drop (length (shape mask)) (shape t))) (data mask) (data t))
  else Err IndexError.

(** ** Scalars of the loss *)

(** A zero-dimensional float tensor: a number, or the [nan] of an empty
    mean, which every later sum and product keeps. *)
Inductive fscalar : Type :=
  | Fin (q : Q)
  | NaN.

Definition fs_add (a b : fscalar) : fscalar :=
  match a, b with
  | Fin x, Fin y => Fin (x + y)
  | _, _ => NaN
  end.

Definition fs_scale (k : Q) (a : fscalar) : fscalar :=
  match a with
  | Fin x => Fin (k * x)
  | NaN => NaN
  end.

Definition Qsum (l : list Q) : Q := foldr Qplus 0 l.

(** [t.mean()]: sum over count, [nan] (0/0) for no elements. *)
Definition mean (l : list Q) : fscalar :=
  match l with
  | [] => NaN
  | _ => Fin (Qsum l / inject_Z (Z.of_nat (length l)))
  end.

Definition Qmax (a b : Q) : Q := if Qle_bool a b then b else a.

(** [.long()] of a float: truncation toward zero. *)
Definition to_long (q : Q) : Z := Z.quot (Qnum q) (Zpos (Qden q)).

(** [.floor()] *)
Definition floor (q : Q) : Q := inject_Z (Qfloor q).

(** Python's [a / b] on numbers. *)
Definition pydiv (a b : Q) : result Q :=
  if Qeq_bool b 0 then Err ZeroDivisionError else Ok (a / b).

(** First index of the maximum ([torch.max], [argmax]: the first of equal
    maxima is returned). *)
Fixpoint argmax_from (best : Q) (besti i : nat) (l : list Q) : Q * nat :=
  match l with
  | [] => (best, besti)
  | x :: l' =>
      if Qle_bool x best then argmax_from best besti (S i) l'
      else argmax_from x i (S i) l'
  end.

Definition argmax (l : list Q) : result (Q * nat) :=
  match l with
  | [] => Err IndexError
  | x :: l' => Ok (argmax_from x 0%nat 1%nat l')
  end.

Fixpoint foldR {A S} (f : S -> A -> result S) (s : S) (l : list A) : result S :=
  match l with
  | [] => Ok s
  | a :: l' => s' ← f s a; foldR f s' l'
  end.

(** [torch.tensor(rows)] of a list of equally long tuples. *)
Definition tensor_of_rows (rows : list (list Q)) : Tensor Q :=
  mkTensor (match rows with [] => [0%nat] | r :: _ => [length rows; length r] end)
           (mjoin rows).

(** [t[:, lo:hi]] *)
Definition slice_cols (t : Tensor Q) (lo hi : nat) : result (Tensor Q) :=
  match shape t with
  | [_; _] => Ok (slice_last t lo hi)
  | _ => Err IndexError
  end.

(** [t[i1, ..., ik]] on a tensor with one more dimension: the rows of
    buffer elements at the addressed slots. *)
Definition gather_rows (t : Tensor Q) (idxs : list (list Z))
  : result (list (list Q)) :=
  let w := last_index (shape t) in
  offs ← slot_offsets (removelast (shape t)) idxs;
  Ok (List.map (fun o => take w (drop (o * w)%nat (data t))) offs).

(** [ious.max(0)] of a matrix: for every column the maximum over the rows
    and the first row index it is found at. *)
Definition column (m : Tensor Q) (rows : nat) (c : nat) : list Q :=
  (fun r => tgetd m [r; c]) <$> seq 0 rows.

Definition max0 (m : Tensor Q) : result (list Q * list Z) :=
  match shape m with
  | [rows; cols] =>
      r ← mapR (fun c => argmax (column m rows c)) (seq 0 cols);
      Ok (List.map fst r, List.map (fun p => Z.of_nat (snd p)) r)
  | _ => Err RuntimeError
  end.

(** [torch.exp], [torch.log] and [torch.sigmoid] on a float. *)
Class TorchMath : Type := {
  torch_exp : Q -> Q;
  torch_log : Q -> Q;
  torch_sigmoid : Q -> Q
}.

(** The helpers of utils/iou_rotated_boxes_utils.py, taken as parameters.
    [get_polygons_fix_xy boxes fix_xy] builds one polygon per row
    (w, h, im, re) of [boxes]; [iou_rotated_boxes_vs_anchors] returns the
    matrix of rotated IoUs; [iou_pred_vs_target_boxes] returns one IoU per
    (predicted box, ground-truth box) pair. *)
Class RotatedBoxUtils : Type := {
  polygon : Type;
  polygon_area : polygon -> Q;
  get_polygons_fix_xy : list (list Q) -> Q -> list polygon;
  iou_rotated_boxes_vs_anchors :
    list polygon -> list Q -> list polygon -> list Q -> Tensor Q;
  iou_pred_vs_target_boxes : list (list Q) -> list (list Q) -> nat -> list Q
}.

(** A row of the [targets] tensor:
    (box_idx, class, x, y, w, l, sin(yaw), cos(yaw)). *)
Record GTBox : Type := mkGT {
  gt_batch : Q;
  gt_class : Q;
  gt_x : Q;
  gt_y : Q;
  gt_w : Q;
  gt_h : Q;
  gt_im : Q;
  gt_re : Q
}.

Record Metrics : Type := mkMetrics {
  m_loss : fscalar;
  m_loss_box : fscalar;
  m_loss_obj : fscalar;
  m_loss_cls : fscalar
}.

Section Layer.
Context {TM : TorchMath} {RU : RotatedBoxUtils}.

(** [F.binary_cross_entropy(input, target, reduction='mean')]: each
    logarithm is clamped from below at -100. *)
Definition bce_elem (p t : Q) : Q :=
  - (t * Qmax (torch_log p) (-100) + (1 - t) * Qmax (torch_log (1 - p)) (-100)).

Definition binary_cross_entropy (input target : list Q) : result fscalar :=
  if decide (length input = length target)
  then Ok (mean (zip_with bce_elem input target))
  else Err ValueError.

(** The attributes [compute_grid_offsets] creates. *)
Record Geometry : Type := mkGeometry {
  grid_x : Tensor Q;
  grid_y : Tensor Q;
  scaled_anchors : Tensor Q;
  anchor_w : Tensor Q;
  anchor_h : Tensor Q;
  scaled_anchors_polygons : list polygon;
  scaled_anchors_areas : list Q
}.

(** The attributes of a layer; [geometry] is [None] until
    [compute_grid_offsets] has run. *)
Record YoloLayer : Type := mkYoloLayer {
  num_classes : nat;
  anchors : list (Q * Q * Q * Q);
  num_anchors : nat;
  stride : Q;
  scale_x_y : Q;
  ignore_thresh : Q;
  noobj_scale : Q;
  obj_scale : Q;
  lbox_scale : Q;
  lobj_scale : Q;
  lcls_scale : Q;
  seen : nat;
  grid_size : nat;
  img_size : Q;
  metrics : option Metrics;
  geometry : option Geometry
}.

(** [YoloLayer.__init__] *)
Definition YoloLayer_init (num_classes : nat) (anchors : list (Q * Q * Q * Q))
    (stride scale_x_y ignore_thresh : Q) : YoloLayer :=
  {| num_classes := num_classes;
     anchors := anchors;
     num_anchors := length anchors;
     stride := stride;
     scale_x_y := scale_x_y;
     ignore_thresh := ignore_thresh;
     noobj_scale := 100;
     obj_scale := 1;
     lbox_scale := 1;
     lobj_scale := 1;
     lcls_scale := 1;
     seen := 0;
     grid_size := 0;
     img_size := 0;
     metrics := None;
     geometry := None |}.

Definition set_img_size (self : YoloLayer) (v : Q) : YoloLayer :=
  mkYoloLayer (num_classes self) (anchors self) (num_anchors self) (stride self)
    (scale_x_y self) (ignore_thresh self) (noobj_scale self) (obj_scale self)
    (lbox_scale self) (lobj_scale self) (lcls_scale self) (seen self)
    (grid_size self) v (metrics self) (geometry self).

Definition set_metrics (self : YoloLayer) (m : Metrics) : YoloLayer :=
  mkYoloLayer (num_classes self) (anchors self) (num_anchors self) (stride self)
    (scale_x_y self) (ignore_thresh self) (noobj_scale self) (obj_scale self)
    (lbox_scale self) (lobj_scale self) (lcls_scale self) (seen self)
    (grid_size self) (img_size self) (Some m) (geometry self).

Definition set_scale_x_y (self : YoloLayer) (v : Q) : YoloLayer :=
  mkYoloLayer (num_classes self) (anchors self) (num_anchors self) (stride self)
    v (ignore_thresh self) (noobj_scale self) (obj_scale self)
    (lbox_scale self) (lobj_scale self) (lcls_scale self) (seen self)
    (grid_size self) (img_size self) (metrics self) (geometry self).

(** The writes of [compute_grid_offsets]: grid size, stride and the
    geometry attributes. *)
Definition set_geometry (self : YoloLayer) (g : nat) (s : Q) (geo : Geometry)
  : YoloLayer :=
  mkYoloLayer (num_classes self) (anchors self) (num_anchors self) s
    (scale_x_y self) (ignore_thresh self) (noobj_scale self) (obj_scale self)
    (lbox_scale self) (lobj_scale self) (lcls_scale self) (seen self)
    g (img_size self) (metrics self) (Some geo).

Definition scale_anchor (s : Q) (a : Q * Q * Q * Q) : result (list Q) :=
  let '(a_w, a_h, im, re) := a in
  w ← pydiv a_w s; h ← pydiv a_h s; Ok [w; h; im; re].

Definition compute_grid_offsets (self : YoloLayer) (grid_size : nat)
  : result YoloLayer :=
  let g := grid_size in
  s ← pydiv (img_size self) (inject_Z (Z.of_nat g));
  gx ← view (repeat_rows g (arange g)) [1; 1; g; g]%nat;
  gyt ← transpose (repeat_rows g (arange g));
  gy ← view gyt [1; 1; g; g]%nat;
  rows ← mapR (scale_anchor s) (anchors self);
  let sa := tensor_of_rows rows in
  c0 ← slice_cols sa 0 1;
  aw ← view c0 [1; num_anchors self; 1; 1]%nat;
  c1 ← slice_cols sa 1 2;
  ah ← view c1 [1; num_anchors self; 1; 1]%nat;
  let polys := get_polygons_fix_xy rows 100 in
  Ok (set_geometry self g s
        (mkGeometry gx gy sa aw ah polys (List.map polygon_area polys))).

(** What [build_targets] returns. *)
Record Targets : Type := mkTargets {
  iou_scores : Tensor Q;
  class_mask : Tensor Q;
  obj_mask : Tensor bool;
  noobj_mask : Tensor bool;
  tx : Tensor Q;
  ty : Tensor Q;
  tw : Tensor Q;
  th : Tensor Q;
  tim : Tensor Q;
  tre : Tensor Q;
  tcls : Tensor Q;
  tconf : Tensor Q
}.

(** [target[:, 2:8]] *)
Definition target_box (t : GTBox) : list Q :=
  [gt_x t; gt_y t; gt_w t; gt_h t; gt_im t; gt_re t].

(** An elementwise operation on two vectors, with broadcasting. *)
Definition bzip_with {A B C} (f : A -> B -> C) (l1 : list A) (l2 : list B)
  : result (list C) :=
  n ← of_option RuntimeError (bcast_len [length l1; length l2]);
  l1' ← of_option RuntimeError (bexpand n l1);
  l2' ← of_option RuntimeError (bexpand n l2);
  Ok (zip_with f l1' l2').

(** [anchors[idx][:, c]] *)
Definition gather_col (t : Tensor Q) (idx : list Z) (c : nat) : result (list Q) :=
  mapR (fun a => of_option IndexError
                   (k ← norm_index (hd 0%nat (shape t)) a; tget t [k; c])) idx.

(** The indices at which a boolean mask holds. *)
Fixpoint nonzero_from (i : Z) (mask : list bool) : list Z :=
  match mask with
  | [] => []
  | m :: mask' =>
      if m then i :: nonzero_from (i + 1)%Z mask' else nonzero_from (i + 1)%Z mask'
  end.

Definition uint8_to_bool (z : Z) : bool := negb (z =? 0)%Z.
Definition uint8_to_float (z : Z) : Q := inject_Z z.
Definition bool_to_float (b : bool) : Q := if b then 1 else 0.

(** One turn of the loop over [enumerate(ious.t())]:
    [noobj_mask[b[i], anchor_ious > self.ignore_thresh, gj[i], gi[i]] = 0]. *)
Definition ignore_step (thresh : Q) (ious : Tensor Q) (rows : nat)
    (b gj gi : list Z) (noobj : Tensor Z) (i : nat) : result (Tensor Z) :=
  let anchor_ious := column ious rows i in
  bi ← of_option IndexError (b !! i);
  gji ← of_option IndexError (gj !! i);
  gii ← of_option IndexError (gi !! i);
  let mask := List.map (fun v => negb (Qle_bool v thresh)) anchor_ious in
  if decide (length mask = nth 1 (shape noobj) 0%nat)
  then index_put noobj [[bi]; nonzero_from 0 mask; [gji]; [gii]] [0%Z]
  else Err IndexError.

(** The rotated IoUs of the scaled anchors and the targets, as
    [build_targets] asks for them: the polygons of [target_boxes[:, 2:6] * nG]
    against the cached anchor polygons. *)
Definition target_ious (geo : Geometry) (nG : nat) (target : list GTBox) : Tensor Q :=
  let nGq := inject_Z (Z.of_nat nG) in
  let targets_polygons :=
    get_polygons_fix_xy
      (List.map (fun t => [gt_w t * nGq; gt_h t * nGq; gt_im t * nGq; gt_re t * nGq])
                target) 100 in
  let targets_areas := List.map polygon_area targets_polygons in
  iou_rotated_boxes_vs_anchors (scaled_anchors_polygons geo)
    (scaled_anchors_areas geo) targets_polygons targets_areas.

Definition build_targets (self : YoloLayer) (out_boxes pred_cls : Tensor Q)
    (target : list GTBox) (anchors : Tensor Q) : result Targets :=
  match shape pred_cls with
  | [nB; nA; nG; _; nC] =>
      let n_target_boxes := length target in
      let sh := [nB; nA; nG; nG] in
      let obj_mask := full sh 0%Z in
      let noobj_mask := full sh 1%Z in
      let class_mask := full sh 0 in
      let iou_scores := full sh 0 in
      let tx := full sh 0 in
      let ty := full sh 0 in
      let tw := full sh 0 in
      let th := full sh 0 in
      let tim := full sh 0 in
      let tre := full sh 0 in
      let tcls := full (sh ++ [nC]) 0 in
      let tconf := tmap uint8_to_float obj_mask in
      if decide (0 < n_target_boxes)%nat then
        let nGq := inject_Z (Z.of_nat nG) in
        let target_boxes := List.map target_box target in
        let gx := List.map (fun t => gt_x t * nGq) target in
        let gy := List.map (fun t => gt_y t * nGq) target in
        let gw := List.map (fun t => gt_w t * nGq) target in
        let gh := List.map (fun t => gt_h t * nGq) target in
        let gim := List.map gt_im target in
        let gre := List.map gt_re target in
        geo ← of_option AttributeError (geometry self);
        let ious := target_ious geo nG target in
        best ← max0 ious;
        let best_n := snd best in
        let b := List.map (fun t => to_long (gt_batch t)) target in
        let target_labels := List.map (fun t => to_long (gt_class t)) target in
        let gi := List.map to_long gx in
        let gj := List.map to_long gy in
        let slot := [b; best_n; gj; gi] in
        obj_mask ← index_put obj_mask slot [1%Z];
        noobj_mask ← index_put noobj_mask slot [0%Z];
        noobj_mask ← foldR (ignore_step (ignore_thresh self) ious
                              (nth 0 (shape ious) 0%nat) b gj gi)
                        noobj_mask (seq 0 (nth 1 (shape ious) 0%nat));
        tx ← index_put tx slot (List.map (fun g => g - floor g) gx);
        ty ← index_put ty slot (List.map (fun g => g - floor g) gy);
        aw ← gather_col anchors best_n 0;
        vw ← bzip_with (fun g a => torch_log (g / a + 1e-16)) gw aw;
        tw ← index_put tw slot vw;
        ah ← gather_col anchors best_n 1;
        vh ← bzip_with (fun g a => torch_log (g / a + 1e-16)) gh ah;
        th ← index_put th slot vh;
        tim ← index_put tim slot gim;
        tre ← index_put tre slot gre;
        tcls ← index_put tcls (slot ++ [target_labels]) [1];
        rows ← gather_rows pred_cls slot;
        am ← mapR argmax rows;
        cm ← bzip_with (fun p l => bool_to_float (Z.of_nat (snd p) =? l)%Z) am target_labels;
        class_mask ← index_put class_mask slot cm;
        boxes ← gather_rows out_boxes slot;
        iou_scores ← index_put iou_scores slot
                       (iou_pred_vs_target_boxes boxes target_boxes nG);
        let tconf := tmap uint8_to_float obj_mask in
        Ok (mkTargets iou_scores class_mask (tmap uint8_to_bool obj_mask)
              (tmap uint8_to_bool noobj_mask) tx ty tw th tim tre tcls tconf)
      else
        Ok (mkTargets iou_scores class_mask (tmap uint8_to_bool obj_mask)
              (tmap uint8_to_bool noobj_mask) tx ty tw th tim tre tcls tconf)
  | _ => Err ValueError
  end.

(** The locals of [forward] up to [output]. *)
Record Decoded : Type := mkDecoded {
  prediction : Tensor Q;
  pred_x : Tensor Q;
  pred_y : Tensor Q;
  pred_w : Tensor Q;
  pred_h : Tensor Q;
  pred_im : Tensor Q;
  pred_re : Tensor Q;
  pred_conf : Tensor Q;
  pred_cls : Tensor Q;
  out_boxes : Tensor Q;
  output : Tensor Q
}.

(** [forward] from its first line to the construction of [output]. *)
Definition decode (self : YoloLayer) (x : Tensor Q) (img_size : Q)
  : result (YoloLayer * Decoded) :=
  let self := set_img_size self img_size in
  match shape x with
  | [num_samples; _; _; g] =>
      let nA := num_anchors self in
      let nC := num_classes self in
      v ← view x [num_samples; nA; (nC + 7)%nat; g; g];
      let prediction := permute [0; 1; 3; 4; 2]%nat v in
      let pred_x := tmap torch_sigmoid (select_last prediction 0) in
      let pred_y := tmap torch_sigmoid (select_last prediction 1) in
      let pred_w := select_last prediction 2 in
      let pred_h := select_last prediction 3 in
      let pred_im := select_last prediction 4 in
      let pred_re := select_last prediction 5 in
      let pred_conf := tmap torch_sigmoid (select_last prediction 6) in
      let pred_cls := tmap torch_sigmoid (slice_last prediction 7 (nC + 7)) in
      self ← (if decide (g ≠ grid_size self) then compute_grid_offsets self g
              else Ok self);
      geo ← of_option AttributeError (geometry self);
      c0 ← broadcast2 Qplus pred_x (grid_x geo);
      c1 ← broadcast2 Qplus pred_y (grid_y geo);
      c2 ← broadcast2 Qmult (tmap torch_exp pred_w) (anchor_w geo);
      c3 ← broadcast2 Qmult (tmap torch_exp pred_h) (anchor_h geo);
      out_boxes ← stack_last [num_samples; nA; g; g] [c0; c1; c2; c3; pred_im; pred_re];
      o1 ← view_infer (slice_last out_boxes 0 4) num_samples 4;
      o2 ← view_infer (slice_last out_boxes 4 6) num_samples 2;
      o3 ← view_infer pred_conf num_samples 1;
      o4 ← view_infer pred_cls num_samples nC;
      output ← cat_last [tmap (fun v => v * stride self) o1; o2; o3; o4];
      Ok (self, mkDecoded prediction pred_x pred_y pred_w pred_h pred_im pred_re
                  pred_conf pred_cls out_boxes output)
  | _ => Err ValueError
  end.

(** The loss of [forward] for given targets ([reduction = 'mean']). *)
Definition loss (self : YoloLayer) (d : Decoded) (t : Targets)
  : result (fscalar * Metrics) :=
  iou_masked ← masked_select (iou_scores t) (obj_mask t);
  let loss_box := mean (List.map (fun v => 1 - v) iou_masked) in
  pco ← masked_select (pred_conf d) (obj_mask t);
  tco ← masked_select (tconf t) (obj_mask t);
  loss_conf_obj ← binary_cross_entropy pco tco;
  pcn ← masked_select (pred_conf d) (noobj_mask t);
  tcn ← masked_select (tconf t) (noobj_mask t);
  loss_conf_noobj ← binary_cross_entropy pcn tcn;
  let loss_obj := fs_add (fs_scale (obj_scale self) loss_conf_obj)
                         (fs_scale (noobj_scale self) loss_conf_noobj) in
  pcl ← masked_select (pred_cls d) (obj_mask t);
  tcl ← masked_select (tcls t) (obj_mask t);
  loss_cls ← binary_cross_entropy pcl tcl;
  let total_loss :=
    fs_add (fs_add (fs_scale (lbox_scale self) loss_box)
                   (fs_scale (lobj_scale self) loss_obj))
           (fs_scale (lcls_scale self) loss_cls) in
  Ok (total_loss, mkMetrics total_loss loss_box loss_obj loss_cls).

Definition forward (self : YoloLayer) (x : Tensor Q) (targets : option (list GTBox))
    (img_size : Q) : result (YoloLayer * (Tensor Q * fscalar)) :=
  sd ← decode self x img_size;
  let self := fst sd in
  let d := snd sd in
  match targets with
  | None => Ok (self, (output d, Fin 0))
  | Some tg =>
      geo ← of_option AttributeError (geometry self);
      t ← build_targets self (out_boxes d) (pred_cls d) tg (scaled_anchors geo);
      lm ← loss self d t;
      Ok (set_metrics self (snd lm), (output d, fst lm))
  end.

End Layer.

(** ** Concrete parameters, to run the model on explicit inputs

    Rational stand-ins for the transcendental functions (a rational
    function with [demo_exp 0 = 1] and [demo_exp (-x) = 1 / demo_exp x], its
    inverse, and the sigmoid built from it), and axis-aligned rectangles
    around a common centre for the rotated polygons. *)

Definition demo_exp (x : Q) : Q :=
  Qred (if Qle_bool 0 x then 1 + 2 * x else 1 / (1 - 2 * x)).

Definition demo_log (y : Q) : Q :=
  Qred (if Qle_bool 1 y then (y - 1) / 2
        else if Qle_bool y 0 then -1000
        else (1 - 1 / y) / 2).

Definition demo_sigmoid (x : Q) : Q := Qred (1 / (1 + demo_exp (- x))).

Definition demo_math : TorchMath :=
  {| torch_exp := demo_exp; torch_log := demo_log; torch_sigmoid := demo_sigmoid |}.

Definition Qmin (a b : Q) : Q := if Qle_bool a b then a else b.

Definition rect_iou (p q : Q * Q) : Q :=
  let inter := Qmin (fst p) (fst q) * Qmin (snd p) (snd q) in
  Qred (inter / (fst p * snd p + fst q * snd q - inter + 1e-16)).

Definition rect_of_row (r : list Q) : Q * Q := (nth 0 r 0, nth 1 r 0).

(** The IoU matrix with one row per anchor and one column per target, the
    layout [build_targets] reads it in. *)
Definition demo_utils : RotatedBoxUtils :=
  {| polygon := Q * Q;
     polygon_area := fun p => fst p * snd p;
     get_polygons_fix_xy := fun boxes _ => List.map rect_of_row boxes;
     iou_rotated_boxes_vs_anchors := fun ap _ tp _ =>
       tabulate [length ap; length tp]
         (fun idx => rect_iou (nth (nth 0 idx 0%nat) ap (0, 0))
                              (nth (nth 1 idx 0%nat) tp (0, 0)));
     iou_pred_vs_target_boxes := fun boxes tboxes nG =>
       zip_with (fun p t =>
                   rect_iou (nth 2 p 0, nth 3 p 0)
                            (nth 2 t 0 * inject_Z (Z.of_nat nG),
                             nth 3 t 0 * inject_Z (Z.of_nat nG)))
                boxes tboxes |}.

(** Modelled from the spec: the IoU matrix helper of
    utils/iou_rotated_boxes_utils.py with the layout the specification
    gives it, one row per target and one column per anchor
    ("IoU matrix (num_targets x num_anchors)"). *)
Definition spec_layout_utils : RotatedBoxUtils :=
  {| polygon := Q * Q;
     polygon_area := fun p => fst p * snd p;
     get_polygons_fix_xy := fun boxes _ => List.map rect_of_row boxes;
     iou_rotated_boxes_vs_anchors := fun ap _ tp _ =>
       tabulate [length tp; length ap]
         (fun idx => rect_iou (nth (nth 1 idx 0%nat) ap (0, 0))
                              (nth (nth 0 idx 0%nat) tp (0, 0)));
     iou_pred_vs_target_boxes := fun boxes tboxes nG =>
       zip_with (fun p t =>
                   rect_iou (nth 2 p 0, nth 3 p 0)
                            (nth 2 t 0 * inject_Z (Z.of_nat nG),
                             nth 3 t 0 * inject_Z (Z.of_nat nG)))
                boxes tboxes |}.

(** *** A concrete layer, input and targets

    Two anchors, two classes, a batch of one sample on a 2 x 2 grid of an
    image of size 8. *)

Definition demo_anchors : list (Q * Q * Q * Q) := [(2, 2, 0, 1); (8, 4, 0, 1)].

Definition demo_layer : YoloLayer (RU := demo_utils) :=
  YoloLayer_init 2 demo_anchors 4 1 (1 # 2).

Definition demo_x : Tensor Q :=
  mkTensor [1; 18; 2; 2]%nat
    (List.map (fun k => inject_Z (Z.of_nat k) / 64) (seq 0 72)).

(** The layer after a first call of [forward] without targets. *)
Definition demo_call : result (YoloLayer (RU := demo_utils) * (Tensor Q * fscalar)) :=
  forward (TM := demo_math) demo_layer demo_x None 8.

Definition demo_after : YoloLayer (RU := demo_utils) :=
  match demo_call with Ok r => fst r | Err _ => demo_layer end.

Definition demo_out : Tensor Q * fscalar :=
  match demo_call with Ok r => snd r | Err _ => (full [] 0, NaN) end.

Definition demo_geo : Geometry (RU := demo_utils) :=
  match geometry demo_after with
  | Some geo => geo
  | None => mkGeometry (full [] 0) (full [] 0) (full [] 0) (full [] 0) (full [] 0) [] []
  end.

(** Predictions for [build_targets] on that grid. *)
Definition demo_pred_cls : Tensor Q :=
  tabulate [1; 2; 2; 2; 2]%nat (fun idx => inject_Z (Z.of_nat (nth 4 idx 0%nat)) / 2).

Definition demo_out_boxes : Tensor Q := full [1; 2; 2; 2; 6]%nat 1.

(** Two boxes in different cells, with labels 0 and 1. *)
Definition demo_targets : list GTBox :=
  [mkGT 0 0 0.3 0.7 0.5 0.5 0 1; mkGT 0 1 0.8 0.2 0.9 0.5 0 1].

(** Two boxes in one cell, on the same anchor, with labels 0 and 1. *)
Definition collision_targets : list GTBox :=
  [mkGT 0 0 0.3 0.7 0.5 0.5 0 1; mkGT 0 1 0.4 0.6 0.9 0.5 0 1].

(** A box whose centre lies on the right border of the image. *)
Definition border_targets : list GTBox := [mkGT 0 0 1 0.5 0.5 0.5 0 1].

(** The layer of above with the helpers in the layout of the
    specification, and two boxes that are nearest to the second anchor. *)
Definition spec_layer : YoloLayer (RU := spec_layout_utils) :=
  match compute_grid_offsets (RU := spec_layout_utils)
          (set_img_size (YoloLayer_init 2 demo_anchors 4 1 (1 # 2)) 8) 2 with
  | Ok l => l
  | Err _ => YoloLayer_init 2 demo_anchors 4 1 (1 # 2)
  end.

Definition spec_geo : Geometry (RU := spec_layout_utils) :=
  match geometry spec_layer with
  | Some geo => geo
  | None => mkGeometry (full [] 0) (full [] 0) (full [] 0) (full [] 0) (full [] 0) [] []
  end.

Definition spec_targets : list GTBox :=
  [mkGT 0 0 0.3 0.7 1 0.5 0 1; mkGT 0 1 0.8 0.2 0.9 0.5 0 1].

(** ** Invariant of the cached geometry *)

Section Invariants.
Context {TM : TorchMath} {RU : RotatedBoxUtils}.

(** What the geometry attributes hold after [compute_grid_offsets]: the
    column and row offsets of the current grid and the anchors in grid
    units (width and height divided by the stride). *)
Definition geometry_ok (self : YoloLayer) (geo : Geometry) : Prop :=
  let g := grid_size self in
  let nA := length (anchors self) in
  shape (grid_x geo) = [1; 1; g; g]%nat /\
  shape (grid_y geo) = [1; 1; g; g]%nat /\
  (forall r c, (r < g)%nat -> (c < g)%nat ->
     tget (grid_x geo) [0; 0; r; c]%nat = Some (inject_Z (Z.of_nat c)) /\
     tget (grid_y geo) [0; 0; r; c]%nat = Some (inject_Z (Z.of_nat r))) /\
  shape (scaled_anchors geo) = [nA; 4]%nat /\
  shape (anchor_w geo) = [1; nA; 1; 1]%nat /\
  shape (anchor_h geo) = [1; nA; 1; 1]%nat /\
  (forall a a_w a_h im re, anchors self !! a = Some (a_w, a_h, im, re) ->
     tget (scaled_anchors geo) [a; 0]%nat = Some (a_w / stride self) /\
     tget (scaled_anchors geo) [a; 1]%nat = Some (a_h / stride self) /\
     tget (scaled_anchors geo) [a; 2]%nat = Some im /\
     tget (scaled_anchors geo) [a; 3]%nat = Some re /\
     tget (anchor_w geo) [0; a; 0; 0]%nat = Some (a_w / stride self) /\
     tget (anchor_h geo) [0; a; 0; 0]%nat = Some (a_h / stride self)).

(** The invariant of a layer between calls: the geometry is present once a
    grid size has been seen, and is the one of that grid size. *)
Definition layer_ok (self : YoloLayer) : Prop :=
  num_anchors self = length (anchors self) /\
  (grid_size self <> 0%nat -> geometry self <> None) /\
  forall geo, geometry self = Some geo -> geometry_ok self geo.

(** An anchor prior in grid units. *)
Definition scaled_row (s : Q) (a : Q * Q * Q * Q) : list Q :=
  let '(a_w, a_h, im, re) := a in [a_w / s; a_h / s; im; re].

End Invariants.

(** The raw network output for channel [c] of cell (row [j], column [i]),
    anchor [a], sample [b]: the entry of the input buffer that
    [x.view(ns, nA, nC + 7, g, g).permute(0, 1, 3, 4, 2)] shows at
    [b, a, j, i, c]. *)
Definition raw_channel (x : Tensor Q) (nA nC g b a j i c : nat) : Q :=
  nth (((((b * nA + a) * (nC + 7) + c) * g + j) * g + i)%nat) (data x) 0.

(** ** Notions used to state the target assignment *)

(** The index vectors [b], [gj], [gi] and [target_labels] of
    [build_targets]. *)
Definition batch_indices (target : list GTBox) : list Z :=
  List.map (fun t => to_long (gt_batch t)) target.

Definition label_indices (target : list GTBox) : list Z :=
  List.map (fun t => to_long (gt_class t)) target.

Definition col_indices (nG : nat) (target : list GTBox) : list Z :=
  List.map to_long (List.map (fun t => gt_x t * inject_Z (Z.of_nat nG)) target).

Definition row_indices (nG : nat) (target : list GTBox) : list Z :=
  List.map to_long (List.map (fun t => gt_y t * inject_Z (Z.of_nat nG)) target).

(** The index a box writes at, before normalisation:
    (batch, anchor, row, column). *)
Definition box_index (nG : nat) (t : GTBox) (a : Z) : list Z :=
  [to_long (gt_batch t); a;
   to_long (gt_y t * inject_Z (Z.of_nat nG));
   to_long (gt_x t * inject_Z (Z.of_nat nG))].

(** [a] is the first position of a maximum of [l]. *)
Definition first_max (l : list Q) (a : nat) : Prop :=
  exists v, l !! a = Some v /\
    (forall a' v', l !! a' = Some v' -> v' <= v) /\
    (forall a' v', (a' < a)%nat -> l !! a' = Some v' -> v' < v).

(** Box [k] of the targets is box [t], and anchor [a] is the first one of
    maximal IoU with it, in a matrix with one row per anchor and one column
    per box. *)
Definition best_anchor (ious : Tensor Q) (target : list GTBox) (k : nat)
    (t : GTBox) (a : nat) : Prop :=
  target !! k = Some t /\
  first_max (column ious (nth 0 (shape ious) 0%nat) k) a.

(** The assignment in the words of the specification, for a matrix with
    one row per box and one column per anchor: row [k] of the matrix, and
    the first anchor of maximal IoU in it. *)
Definition matrix_row (m : Tensor Q) (r : nat) : list Q :=
  (fun c => tgetd m [r; c]) <$> seq 0 (nth 1 (shape m) 0%nat).

Definition spec_best_anchor (ious : Tensor Q) (target : list GTBox) (k : nat)
    (t : GTBox) (a : nat) : Prop :=
  target !! k = Some t /\ first_max (matrix_row ious k) a.

(** Slot [idx] is the one some box is assigned to, with its best anchor. *)
Definition assigned_slot (sh : list nat) (nG : nat) (ious : Tensor Q)
    (target : list GTBox) (idx : list nat) : Prop :=
  exists k t a, best_anchor ious target k t a /\
    norm_indices sh (box_index nG t (Z.of_nat a)) = Some idx.

(** Slot [idx] is the cell of some box, at an anchor whose IoU with that
    box exceeds the threshold. *)
Definition ignored_slot (sh : list nat) (nG : nat) (thresh : Q) (ious : Tensor Q)
    (target : list GTBox) (idx : list nat) : Prop :=
  exists k t a, target !! k = Some t /\ (a < nth 0 (shape ious) 0)%nat /\
    thresh < tgetd ious [a; k] /\
    norm_indices sh (box_index nG t (Z.of_nat a)) = Some idx.

(** Offset [o] is written by turn [i] of the ignore loop: it is the slot
    of box [i] at an anchor whose IoU with the box exceeds the threshold. *)
Definition ignore_written (thresh : Q) (ious : Tensor Q) (rows : nat)
    (b gj gi : list Z) (sh : list nat) (i o : nat) : Prop :=
  exists a bi gji gii,
    (a < rows)%nat /\ thresh < tgetd ious [a; i] /\
    b !! i = Some bi /\ gj !! i = Some gji /\ gi !! i = Some gii /\
    zoffset sh [bi; Z.of_nat a; gji; gii] = Ok o.

(** The values [build_targets] writes for a box. *)
Definition frac (g : Q) : Q := g - floor g.

Definition log_ratio {TM : TorchMath} (g a : Q) : Q := torch_log (g / a + 1e-16).

(** The one-hot class target of a label. *)
Definition one_hot (label c : nat) : Q := if decide (c = label) then 1 else 0.

(** The number of entries of a mask that hold. *)
Definition count_list (l : list bool) : nat := length (filter (fun b => b = true) l).

Definition count_true (m : Tensor bool) : nat := count_list (data m).

(** No box after box [k] is assigned to slot [idx]. *)
Definition last_at (sh : list nat) (nG : nat) (ious : Tensor Q) (target : list GTBox)
    (k : nat) (idx : list nat) : Prop :=
  forall k' t' a', (k < k')%nat -> best_anchor ious target k' t' a' ->
    norm_indices sh (box_index nG t' (Z.of_nat a')) <> Some idx.

(** A ground-truth row the target tensors have a slot for: centre
    coordinates in [0, 1), a sample index of the batch and a label among
    the classes. *)
Definition box_in_range (nB nC : nat) (t : GTBox) : Prop :=
  0 <= gt_x t /\ gt_x t < 1 /\ 0 <= gt_y t /\ gt_y t < 1 /\
  (0 <= to_long (gt_batch t) < Z.of_nat nB)%Z /\
  (0 <= to_long (gt_class t) < Z.of_nat nC)%Z.

(** The range the data model of the specification gives a ground-truth
    row: centre coordinates in [0, 1], both ends included. *)
Definition box_in_closed_range (nB nC : nat) (t : GTBox) : Prop :=
  0 <= gt_x t /\ gt_x t <= 1 /\ 0 <= gt_y t /\ gt_y t <= 1 /\
  (0 <= to_long (gt_batch t) < Z.of_nat nB)%Z /\
  (0 <= to_long (gt_class t) < Z.of_nat nC)%Z.

(** Box [i] has a slot at every anchor. *)
Definition box_slots_ok (rows : nat) (b gj gi : list Z) (sh : list nat) (i : nat)
  : Prop :=
  exists bi gji gii,
    b !! i = Some bi /\ gj !! i = Some gji /\ gi !! i = Some gii /\
    forall a, (a < rows)%nat -> exists o, zoffset sh [bi; Z.of_nat a; gji; gii] = Ok o.

Section TargetPreconditions.
Context {TM : TorchMath} {RU : RotatedBoxUtils}.

(** What makes [build_targets] return: well-formed predictions and
    anchors, helpers that return one value per box, a grid and an anchor
    list that are not empty, and boxes that have a slot. *)
Definition targets_in_range (out_boxes pred_cls : Tensor Q) (target : list GTBox)
    (anchors : Tensor Q) (nB nA nG nC : nat) : Prop :=
  wf_tensor pred_cls /\
  shape out_boxes = [nB; nA; nG; nG; 6%nat] /\
  (forall boxes, length boxes = length target ->
     length (iou_pred_vs_target_boxes boxes (List.map target_box target) nG)
     = length target) /\
  (0 < nA)%nat /\ (0 < nG)%nat /\
  shape anchors = [nA; 4%nat] /\ wf_tensor anchors /\
  Forall (box_in_range nB nC) target.

(** An input [forward] decodes: a batch that is not empty, with the
    channels of the layer, on a square grid. *)
Definition input_ok (self : YoloLayer) (x : Tensor Q) (img : Q) (ns g : nat) : Prop :=
  shape x = [ns; (num_anchors self * (num_classes self + 7))%nat; g; g] /\
  wf_tensor x /\ (0 < ns)%nat /\ (0 < g)%nat /\ (0 < num_classes self)%nat /\
  anchors self <> [] /\ ~ img == 0.

End TargetPreconditions.

(** ** Notions used to state further properties *)

Section Contracts.
Context {TM : TorchMath} {RU : RotatedBoxUtils}.

(** What the layer expects of the helpers of
    utils/iou_rotated_boxes_utils.py: one polygon per box, an IoU matrix
    with one row per anchor polygon and one column per target polygon, and
    one IoU per pair of a predicted and a ground-truth box. *)
Definition helpers_ok : Prop :=
  (forall boxes fix_xy, length (get_polygons_fix_xy boxes fix_xy) = length boxes) /\
  (forall ap aa tp ta,
     shape (iou_rotated_boxes_vs_anchors ap aa tp ta) = [length ap; length tp]) /\
  (forall boxes tboxes nG, length boxes = length tboxes ->
     length (iou_pred_vs_target_boxes boxes tboxes nG) = length tboxes).

(** The invariant of a layer with the facts about the buffers the index
    operations of [build_targets] rely on: the scaled anchors fill their
    shape, and there is one polygon per anchor. *)
Definition layer_inv (self : YoloLayer) : Prop :=
  layer_ok self /\
  forall geo, geometry self = Some geo ->
    wf_tensor (scaled_anchors geo) /\
    length (scaled_anchors_polygons geo) = length (anchors self).

End Contracts.

(** The row of [output] that holds the box of anchor [a] at cell
    (row [j], column [i]) of a [g] x [g] grid. *)
Definition output_row (g a j i : nat) : nat := ((a * g + j) * g + i)%nat.

(** * Properties *)

(** ** The result monad *)

Lemma bind_Ok {A B} (f : A -> result B) (m : result A) (b : B) :
  m ≫= f = Ok b <-> exists a, m = Ok a /\ f a = Ok b.
Proof.
  destruct m as [a|e]; simpl; split.
  - intros Hf. exists a. split; [reflexivity | exact Hf].
  - intros (a' & Ha & Hf). injection Ha as ->. exact Hf.
  - discriminate.
  - intros (a' & Ha & _). discriminate.
Qed.

Lemma of_option_Ok {A} (e : exn) (o : option A) (a : A) :
  of_option e o = Ok a <-> o = Some a.
Proof. destruct o; simpl; split; congruence. Qed.

Lemma mapR_Forall2 {A B} (f : A -> result B) (l : list A) (r : list B) :
  mapR f l = Ok r <-> Forall2 (fun a b => f a = Ok b) l r.
Proof.
  revert r. induction l as [|a l IH]; intros r; simpl.
  - split.
    + intros [= <-]. constructor.
    + intros Hr. inversion Hr. reflexivity.
  - rewrite bind_Ok. split.
    + intros (b & Hb & Hrest). apply bind_Ok in Hrest as (bs & Hbs & [= <-]).
      constructor; [exact Hb | apply IH; exact Hbs].
    + intros Hr. inversion Hr as [|? b ? bs Hb Hbs]; subst.
      exists b. split; [exact Hb|]. apply bind_Ok. exists bs.
      split; [apply IH; exact Hbs | reflexivity].
Qed.

Lemma foldR_app {A S} (f : S -> A -> result S) (s : S) (l1 l2 : list A) :
  foldR f s (l1 ++ l2) = foldR f s l1 ≫= fun s' => foldR f s' l2.
Proof.
  revert s. induction l1 as [|a l1 IH]; intros s; simpl; [reflexivity|].
  destruct (f s a) as [s'|e]; simpl; [apply IH | reflexivity].
Qed.

(** Inverts a hypothesis [m ≫= f = Ok b], naming the intermediate value. *)
Ltac inv_bind H x Hx :=
  apply bind_Ok in H as (x & Hx & H).

(** ** Offsets and the enumeration of indices *)

Lemma length_indices (sh : list nat) : length (indices sh) = numel sh.
Proof.
  induction sh as [|d sh IH]; simpl; [reflexivity|].
  rewrite length_join, (sum_list_fmap_same (numel sh)).
  - rewrite !length_fmap, length_seq. reflexivity.
  - apply Forall_fmap, Forall_forall. intros i _. simpl.
    rewrite length_fmap. exact IH.
Qed.

Lemma offset_lt (sh idx : list nat) (o : nat) :
  offset sh idx = Some o -> (o < numel sh)%nat.
Proof.
  revert idx o. induction sh as [|d sh IH]; intros [|i idx] o; simpl; try discriminate.
  - intros [= <-]. lia.
  - case_decide; [|discriminate].
    destruct (offset sh idx) as [o'|] eqn:Ho; simpl; [|discriminate].
    intros [= <-]. specialize (IH _ _ Ho). nia.
Qed.

Lemma offset_length (sh idx : list nat) (o : nat) :
  offset sh idx = Some o -> length idx = length sh.
Proof.
  revert idx o. induction sh as [|d sh IH]; intros [|i idx] o; simpl; try discriminate.
  - reflexivity.
  - case_decide; [|discriminate].
    destruct (offset sh idx) as [o'|] eqn:Ho; simpl; [|discriminate].
    intros _. f_equal. eapply IH. exact Ho.
Qed.

Lemma lookup_indices (sh idx : list nat) (o : nat) :
  offset sh idx = Some o -> indices sh !! o = Some idx.
Proof.
  revert idx o. induction sh as [|d sh IH]; intros [|i idx] o; simpl; try discriminate.
  - intros [= <-]. reflexivity.
  - case_decide as Hi; [|discriminate].
    destruct (offset sh idx) as [o'|] eqn:Ho; simpl; [|discriminate].
    intros [= <-].
    apply (join_lookup_Some_same_length' (numel sh)).
    + apply Forall_fmap, Forall_forall. intros j _. simpl.
      rewrite length_fmap. apply length_indices.
    + eapply offset_lt. exact Ho.
    + exists (cons i <$> indices sh). split.
      * rewrite list_lookup_fmap, lookup_seq_lt by exact Hi. reflexivity.
      * rewrite list_lookup_fmap, (IH _ _ Ho). reflexivity.
Qed.

Lemma offset_inj (sh idx1 idx2 : list nat) (o : nat) :
  offset sh idx1 = Some o -> offset sh idx2 = Some o -> idx1 = idx2.
Proof.
  intros H1 H2. apply lookup_indices in H1, H2. congruence.
Qed.

(** ** Reading tensors *)

Lemma tget_tabulate {A} (sh idx : list nat) (f : list nat -> A) (o : nat) :
  offset sh idx = Some o -> tget (tabulate sh f) idx = Some (f idx).
Proof.
  intros Ho. unfold tget, tabulate. simpl. rewrite Ho. simpl.
  rewrite list_lookup_fmap, (lookup_indices _ _ _ Ho). reflexivity.
Qed.

Lemma tget_full {A} (sh idx : list nat) (v : A) (o : nat) :
  offset sh idx = Some o -> tget (full sh v) idx = Some v.
Proof.
  intros Ho. unfold tget, full. simpl. rewrite Ho. simpl.
  apply lookup_replicate_2. eapply offset_lt. exact Ho.
Qed.

Lemma tget_tmap {A B} (f : A -> B) (t : Tensor A) (idx : list nat) :
  tget (tmap f t) idx = f <$> tget t idx.
Proof.
  unfold tget, tmap. simpl. destruct (offset (shape t) idx); simpl; [|reflexivity].
  apply list_lookup_fmap.
Qed.

Lemma tget_wf_is_Some {A} (t : Tensor A) (idx : list nat) (o : nat) :
  wf_tensor t -> offset (shape t) idx = Some o -> is_Some (tget t idx).
Proof.
  intros Hwf Ho. unfold tget. rewrite Ho. simpl.
  apply lookup_lt_is_Some. rewrite Hwf. eapply offset_lt. exact Ho.
Qed.

Lemma tgetd_Some (t : Tensor Q) (idx : list nat) (v : Q) :
  tget t idx = Some v -> tgetd t idx = v.
Proof. unfold tgetd. intros ->. reflexivity. Qed.

Lemma wf_tabulate {A} (sh : list nat) (f : list nat -> A) : wf_tensor (tabulate sh f).
Proof. unfold wf_tensor, tabulate. simpl. rewrite length_fmap. apply length_indices. Qed.

Lemma wf_full {A} (sh : list nat) (v : A) : wf_tensor (full sh v).
Proof. unfold wf_tensor, full. simpl. apply length_replicate. Qed.

Lemma wf_tmap {A B} (f : A -> B) (t : Tensor A) : wf_tensor t -> wf_tensor (tmap f t).
Proof. unfold wf_tensor, tmap. simpl. rewrite length_fmap. auto. Qed.

(** An explicit form of the offset in four and five dimensions. *)
Lemma offset2 (d0 d1 i0 i1 : nat) :
  (i0 < d0)%nat -> (i1 < d1)%nat ->
  offset [d0; d1] [i0; i1] = Some (i0 * d1 + i1)%nat.
Proof.
  intros. simpl. repeat (case_decide; [|lia]). simpl. f_equal. nia.
Qed.

Lemma offset4 (d0 d1 d2 d3 i0 i1 i2 i3 : nat) :
  (i0 < d0)%nat -> (i1 < d1)%nat -> (i2 < d2)%nat -> (i3 < d3)%nat ->
  offset [d0; d1; d2; d3] [i0; i1; i2; i3]
  = Some (((i0 * d1 + i1) * d2 + i2) * d3 + i3)%nat.
Proof.
  intros. simpl. repeat (case_decide; [|lia]). simpl. f_equal. nia.
Qed.

Lemma offset5 (d0 d1 d2 d3 d4 i0 i1 i2 i3 i4 : nat) :
  (i0 < d0)%nat -> (i1 < d1)%nat -> (i2 < d2)%nat -> (i3 < d3)%nat -> (i4 < d4)%nat ->
  offset [d0; d1; d2; d3; d4] [i0; i1; i2; i3; i4]
  = Some ((((i0 * d1 + i1) * d2 + i2) * d3 + i3) * d4 + i4)%nat.
Proof.
  intros. simpl. repeat (case_decide; [|lia]). simpl. f_equal. nia.
Qed.

Lemma offset_snoc (sh idx : list nat) (d i o : nat) :
  offset sh idx = Some o -> (i < d)%nat ->
  offset (sh ++ [d]) (idx ++ [i]) = Some (o * d + i)%nat.
Proof.
  revert idx o. induction sh as [|d0 sh IH]; intros [|i0 idx] o; simpl; try discriminate.
  - intros [= <-] Hi. case_decide; [|lia]. simpl. f_equal. lia.
  - case_decide; [|discriminate].
    destruct (offset sh idx) as [o'|] eqn:Ho; simpl; [|discriminate].
    intros [= <-] Hi. rewrite (IH _ _ Ho Hi). simpl. f_equal.
    assert (numel (sh ++ [d]) = (numel sh * d)%nat) as ->.
    { clear. induction sh; simpl; [lia|]. rewrite IHsh. lia. }
    nia.
Qed.

Lemma offset_snoc_inv (sh idx : list nat) (d i o : nat) :
  length idx = length sh ->
  offset (sh ++ [d]) (idx ++ [i]) = Some o ->
  exists o', offset sh idx = Some o' /\ (i < d)%nat /\ o = (o' * d + i)%nat.
Proof.
  revert idx o. induction sh as [|d0 sh IH]; intros [|i0 idx] o; simpl; try discriminate.
  - intros _. case_decide; [|discriminate]. simpl. intros [= <-].
    exists 0%nat. repeat split; [assumption | lia].
  - intros [= Hlen]. case_decide; [|discriminate].
    destruct (offset (sh ++ [d]) (idx ++ [i])) as [o1|] eqn:Ho; simpl; [|discriminate].
    intros [= <-]. destruct (IH _ _ Hlen Ho) as (o' & Ho' & Hi & ->).
    rewrite Ho'. simpl. exists (i0 * numel sh + o')%nat. repeat split; [assumption|].
    assert (numel (sh ++ [d]) = (numel sh * d)%nat) as ->.
    { clear. induction sh; simpl; [lia|]. rewrite IHsh. lia. }
    nia.
Qed.

(** ** The grid geometry *)

Lemma lookup_arange (g c : nat) :
  (c < g)%nat -> data (arange g) !! c = Some (inject_Z (Z.of_nat c)).
Proof.
  intros Hc. simpl. rewrite list_lookup_fmap, lookup_seq_lt by exact Hc. reflexivity.
Qed.

Lemma length_arange (g : nat) : length (data (arange g)) = g.
Proof. simpl. rewrite length_fmap, length_seq. reflexivity. Qed.

Lemma length_repeat_rows (r : nat) (t : Tensor Q) :
  length (data (repeat_rows r t)) = (r * length (data t))%nat.
Proof.
  simpl. rewrite length_join, (sum_list_fmap_same (length (data t))).
  - rewrite length_replicate. reflexivity.
  - apply Forall_replicate. reflexivity.
Qed.

Lemma lookup_repeat_rows (r : nat) (t : Tensor Q) (i j : nat) (v : Q) :
  (i < r)%nat -> data t !! j = Some v ->
  data (repeat_rows r t) !! (i * length (data t) + j)%nat = Some v.
Proof.
  intros Hi Hj. simpl.
  apply (join_lookup_Some_same_length' (length (data t))).
  - apply Forall_replicate. reflexivity.
  - eapply lookup_lt_Some. exact Hj.
  - exists (data t). split; [|exact Hj]. apply lookup_replicate_2. exact Hi.
Qed.

Lemma tget_repeat_arange (g r c : nat) :
  (r < g)%nat -> (c < g)%nat ->
  tget (repeat_rows g (arange g)) [r; c] = Some (inject_Z (Z.of_nat c)).
Proof.
  intros Hr Hc. unfold tget.
  assert (shape (repeat_rows g (arange g)) = [g; g]) as ->.
  { unfold repeat_rows. simpl shape. rewrite length_fmap, length_seq. reflexivity. }
  rewrite offset2 by lia. cbn [mbind option_bind].
  rewrite <- (length_arange g) at 1.
  apply lookup_repeat_rows; [exact Hr | apply lookup_arange; exact Hc].
Qed.

Lemma pydiv_Ok (a b : Q) : ~ b == 0 -> pydiv a b = Ok (a / b).
Proof.
  intros Hb. unfold pydiv. destruct (Qeq_bool b 0) eqn:E; [|reflexivity].
  apply Qeq_bool_iff in E. contradiction.
Qed.

Lemma pydiv_inv (a b q : Q) : pydiv a b = Ok q -> ~ b == 0 /\ q = a / b.
Proof.
  unfold pydiv. destruct (Qeq_bool b 0) eqn:E; [discriminate|].
  intros [= <-]. split; [|reflexivity].
  intros Hb. apply Qeq_bool_iff in Hb. congruence.
Qed.

Lemma view_Ok {A} (t : Tensor A) (sh : list nat) :
  numel sh = length (data t) -> view t sh = Ok (mkTensor sh (data t)).
Proof. intros H. unfold view. case_decide; [reflexivity | contradiction]. Qed.

Lemma view_inv {A} (t t' : Tensor A) (sh : list nat) :
  view t sh = Ok t' -> numel sh = length (data t) /\ t' = mkTensor sh (data t).
Proof. unfold view. case_decide; [|discriminate]. intros [= <-]. auto. Qed.

Section Geometry.
Context {TM : TorchMath} {RU : RotatedBoxUtils}.

Lemma mapR_scale_anchor (s : Q) (l : list (Q * Q * Q * Q)) :
  ~ s == 0 -> mapR (scale_anchor s) l = Ok (scaled_row s <$> l).
Proof.
  intros Hs. apply mapR_Forall2, Forall2_fmap_r, Forall_Forall2_diag, Forall_forall.
  intros [[[a_w a_h] im] re] _. unfold scale_anchor, scaled_row.
  rewrite !pydiv_Ok by exact Hs. reflexivity.
Qed.

Lemma length_scaled_row (s : Q) (a : Q * Q * Q * Q) : length (scaled_row s a) = 4%nat.
Proof. destruct a as [[[? ?] ?] ?]. reflexivity. Qed.

Lemma tget_scaled_rows (s : Q) (l : list (Q * Q * Q * Q)) (a c : nat)
    (p : Q * Q * Q * Q) :
  l !! a = Some p -> (c < 4)%nat ->
  tget (tensor_of_rows (scaled_row s <$> l)) [a; c] = scaled_row s p !! c.
Proof.
  intros Ha Hc. unfold tget, tensor_of_rows.
  destruct l as [|p0 l]; [discriminate|].
  assert (a < length (p0 :: l))%nat as Hlt by (eapply lookup_lt_Some; exact Ha).
  cbn [shape data fmap list_fmap]. rewrite length_scaled_row.
  cbn [length] in *. rewrite length_fmap.
  rewrite offset2 by lia. simpl.
  change (scaled_row s p0 ++ mjoin (scaled_row s <$> l))
    with (mjoin (scaled_row s <$> p0 :: l)).
  destruct (scaled_row s p !! c) as [v|] eqn:Hv.
  - apply (join_lookup_Some_same_length' 4).
    + apply Forall_fmap, Forall_forall. intros x _. apply length_scaled_row.
    + exact Hc.
    + exists (scaled_row s p). split; [|exact Hv].
      rewrite list_lookup_fmap, Ha. reflexivity.
  - apply lookup_ge_None in Hv. rewrite length_scaled_row in Hv. lia.
Qed.

End Geometry.

Lemma tget_view_grid {A} (d : list A) (g r c : nat) :
  (r < g)%nat -> (c < g)%nat ->
  tget (mkTensor [1; 1; g; g]%nat d) [0; 0; r; c]%nat
  = tget (mkTensor [g; g] d) [r; c].
Proof.
  intros Hr Hc. unfold tget. cbn [shape data].
  rewrite offset4, offset2 by lia. reflexivity.
Qed.

Lemma tget_view_anchor {A} (d : list A) (n a : nat) :
  (a < n)%nat ->
  tget (mkTensor [1; n; 1; 1]%nat d) [0; a; 0; 0]%nat
  = tget (mkTensor [n; 1%nat] d) [a; 0%nat].
Proof.
  intros Ha. unfold tget. cbn [shape data].
  rewrite offset4, offset2 by lia. simpl. do 2 f_equal. lia.
Qed.

Lemma tensor_eta {A} (t : Tensor A) : mkTensor (shape t) (data t) = t.
Proof. destruct t. reflexivity. Qed.

Section GridOffsets.
Context {TM : TorchMath} {RU : RotatedBoxUtils}.

Lemma shape_scaled_rows (s : Q) (l : list (Q * Q * Q * Q)) :
  l <> [] -> shape (tensor_of_rows (scaled_row s <$> l)) = [length l; 4%nat].
Proof.
  destruct l as [|p0 l]; [congruence|]. intros _.
  simpl. rewrite length_scaled_row, length_fmap. reflexivity.
Qed.

(** [compute_grid_offsets] returns for a positive grid size, a non-zero
    image size and a non-empty anchor list, and establishes the invariant. *)
Lemma compute_grid_offsets_ok (self : YoloLayer) (g : nat) :
  (0 < g)%nat -> ~ img_size self == 0 -> anchors self <> [] ->
  num_anchors self = length (anchors self) ->
  exists geo,
    compute_grid_offsets self g
    = Ok (set_geometry self g (img_size self / inject_Z (Z.of_nat g)) geo) /\
    geometry_ok (set_geometry self g (img_size self / inject_Z (Z.of_nat g)) geo) geo /\
    scaled_anchors_polygons geo
    = get_polygons_fix_xy
        (scaled_row (img_size self / inject_Z (Z.of_nat g)) <$> anchors self) 100 /\
    scaled_anchors_areas geo = List.map polygon_area (scaled_anchors_polygons geo).
Proof.
  intros Hg Himg Hne HnA.
  set (s := img_size self / inject_Z (Z.of_nat g)).
  assert (~ inject_Z (Z.of_nat g) == 0) as Hgq.
  { intros E. unfold Qeq in E. simpl in E. lia. }
  assert (~ s == 0) as Hs.
  { unfold s. intros E. apply Himg.
    rewrite <- (Qmult_div_r (img_size self) (inject_Z (Z.of_nat g))) by exact Hgq.
    rewrite E. ring. }
  unfold compute_grid_offsets.
  rewrite pydiv_Ok by exact Hgq. fold s. cbn [mbind result_bind].
  rewrite view_Ok by (rewrite length_repeat_rows, length_arange; simpl; lia).
  cbn [mbind result_bind].
  assert (shape (repeat_rows g (arange g)) = [g; g]) as Hsh.
  { unfold repeat_rows. cbn [shape]. rewrite length_arange. reflexivity. }
  unfold transpose. rewrite Hsh. cbn [mbind result_bind].
  rewrite view_Ok; cycle 1.
  { unfold permute. cbn [data tabulate]. rewrite length_fmap, length_indices, Hsh.
    simpl. lia. }
  cbn [mbind result_bind].
  rewrite mapR_scale_anchor by exact Hs. cbn [mbind result_bind].
  pose proof (shape_scaled_rows s _ Hne) as Hsa.
  unfold slice_cols. rewrite Hsa. cbn [mbind result_bind].
  assert (forall lo hi, (hi <= 4)%nat ->
            shape (slice_last (tensor_of_rows (scaled_row s <$> anchors self)) lo hi)
            = [length (anchors self); (hi - lo)%nat]) as Hsl.
  { intros lo hi Hhi. unfold slice_last. cbn [shape tabulate]. rewrite Hsa.
    cbn. do 2 f_equal. lia. }
  rewrite !view_Ok; cycle 1.
  { pose proof (wf_tabulate (A:=Q)) as Hwf. unfold slice_last.
    rewrite (Hwf _ _). rewrite Hsa. simpl. lia. }
  { pose proof (wf_tabulate (A:=Q)) as Hwf. unfold slice_last.
    rewrite (Hwf _ _). rewrite Hsa. simpl. lia. }
  cbn [mbind result_bind].
  eexists. split; [reflexivity|]. split; [|split; reflexivity].
  unfold geometry_ok. cbn [grid_size set_geometry anchors stride grid_x grid_y
    scaled_anchors anchor_w anchor_h shape].
  split; [reflexivity|]. split; [reflexivity|]. split.
  { intros r c Hr Hc. rewrite !tget_view_grid by assumption. split.
    - rewrite <- Hsh, tensor_eta. apply tget_repeat_arange; assumption.
    - assert (mkTensor [g; g] (data (permute [1; 0]%nat (repeat_rows g (arange g))))
              = permute [1; 0]%nat (repeat_rows g (arange g))) as ->.
      { unfold permute, tabulate. rewrite Hsh. reflexivity. }
      unfold permute. rewrite Hsh. cbn [fmap list_fmap nth].
      erewrite tget_tabulate by (apply offset2; assumption).
      cbn [length seq fmap list_fmap position Nat.eqb nth].
      f_equal. apply tgetd_Some, tget_repeat_arange; assumption. }
  split; [exact Hsa|]. rewrite HnA. split; [reflexivity|]. split; [reflexivity|].
  intros a a_w a_h im re Ha.
  assert (a < length (anchors self))%nat as Hlt by (eapply lookup_lt_Some; exact Ha).
  rewrite !(tget_scaled_rows s _ a _ _ Ha) by lia.
  repeat (split; [reflexivity|]).
  rewrite !tget_view_anchor by exact Hlt.
  assert (forall lo, (lo < 4)%nat ->
     tget (mkTensor [length (anchors self); 1%nat]
             (data (slice_last (tensor_of_rows (scaled_row s <$> anchors self)) lo (S lo))))
          [a; 0%nat]
     = scaled_row s (a_w, a_h, im, re) !! lo) as Hcol.
  { intros lo Hlo.
    replace [length (anchors self); 1%nat]
      with (shape (slice_last (tensor_of_rows (scaled_row s <$> anchors self)) lo (S lo)))
      by (rewrite Hsl by lia; do 2 f_equal; lia).
    rewrite tensor_eta. unfold slice_last. rewrite Hsa.
    erewrite tget_tabulate; cycle 1.
    { cbn. apply offset2; [exact Hlt | lia]. }
    cbn [removelast last_index List.last app]. rewrite Nat.add_0_r.
    unfold tgetd. rewrite (tget_scaled_rows s _ a _ _ Ha) by exact Hlo.
    destruct (scaled_row s (a_w, a_h, im, re) !! lo) eqn:E; [reflexivity|].
    apply lookup_ge_None in E. simpl in E. lia. }
  split; [apply (Hcol 0%nat); lia | apply (Hcol 1%nat); lia].
Qed.

End GridOffsets.

Section GridOffsetsInv.
Context {TM : TorchMath} {RU : RotatedBoxUtils}.

(** When [compute_grid_offsets] returns, its preconditions held. *)
Lemma compute_grid_offsets_inv (self self' : YoloLayer) (g : nat) :
  compute_grid_offsets self g = Ok self' ->
  (0 < g)%nat /\ ~ img_size self == 0 /\ anchors self <> [] /\
  num_anchors self = length (anchors self).
Proof.
  unfold compute_grid_offsets. intros H.
  inv_bind H s Hs. apply pydiv_inv in Hs as [Hgq ->].
  inv_bind H gx Hgx. inv_bind H gyt Hgyt. inv_bind H gy Hgy.
  inv_bind H rows Hrows.
  assert (0 < g)%nat as Hg.
  { destruct g; [|lia]. exfalso. apply Hgq. reflexivity. }
  destruct (anchors self) as [|[[[a_w a_h] im] re] l] eqn:Ha.
  { simpl in Hrows. injection Hrows as <-. simpl in H. discriminate. }
  assert (~ img_size self / inject_Z (Z.of_nat g) == 0) as Hs.
  { simpl in Hrows. inv_bind Hrows r0 Hr0. unfold scale_anchor in Hr0.
    inv_bind Hr0 w Hw. apply pydiv_inv in Hw as [Hs _]. exact Hs. }
  split; [exact Hg|]. split.
  { intros E. apply Hs. rewrite E. unfold Qdiv. ring. }
  split; [discriminate|].
  rewrite <- Ha in Hrows. rewrite mapR_scale_anchor in Hrows by exact Hs.
  injection Hrows as <-.
  assert (anchors self <> []) as Hne by (rewrite Ha; discriminate).
  pose proof (shape_scaled_rows (img_size self / inject_Z (Z.of_nat g)) _ Hne) as Hsa.
  unfold slice_cols in H. rewrite Hsa in H. cbn [mbind result_bind] in H.
  inv_bind H aw Haw. apply view_inv in Haw as [Hn _].
  unfold slice_last in Hn. rewrite (wf_tabulate (A:=Q)), Hsa in Hn.
  rewrite <- Ha. simpl in Hn. lia.
Qed.

Lemma compute_grid_offsets_geometry (self self' : YoloLayer) (g : nat) :
  compute_grid_offsets self g = Ok self' ->
  exists geo,
    self' = set_geometry self g (img_size self / inject_Z (Z.of_nat g)) geo /\
    geometry_ok self' geo.
Proof.
  intros H. destruct (compute_grid_offsets_inv _ _ _ H) as (Hg & Himg & Hne & HnA).
  destruct (compute_grid_offsets_ok self g Hg Himg Hne HnA) as (geo & Hok & Hgeo & _).
  exists geo. rewrite Hok in H. injection H as <-. auto.
Qed.

End GridOffsetsInv.

(** ** The decoder *)

Lemma bcast_index_id (sh idx : list nat) (o : nat) :
  offset sh idx = Some o -> bcast_index sh idx = idx.
Proof.
  revert idx o. induction sh as [|d sh IH]; intros [|i idx] o; simpl; try discriminate.
  - reflexivity.
  - case_decide as Hi; [|discriminate].
    destruct (offset sh idx) as [o'|] eqn:Ho; simpl; [|discriminate].
    intros _. unfold bcast_index in *. simpl. rewrite (IH _ _ Ho).
    case_decide; [f_equal; lia | reflexivity].
Qed.

Lemma pad_shape_same (sh : list nat) : pad_shape (length sh) sh = sh.
Proof. unfold pad_shape. rewrite Nat.sub_diag. reflexivity. Qed.

Lemma broadcast2_inv (f : Q -> Q -> Q) (t1 t2 t : Tensor Q) :
  length (shape t1) = length (shape t2) ->
  broadcast2 f t1 t2 = Ok t ->
  exists sh, bcast_shape (shape t1) (shape t2) = Some sh /\
    t = tabulate sh (fun idx =>
          f (tgetd t1 (bcast_index (shape t1) idx))
            (tgetd t2 (bcast_index (shape t2) idx))).
Proof.
  intros Hlen. unfold broadcast2. rewrite <- Hlen, Nat.max_id, pad_shape_same.
  assert (pad_shape (length (shape t1)) (shape t2) = shape t2) as ->
    by (rewrite Hlen; apply pad_shape_same).
  rewrite !tensor_eta. intros H. inv_bind H sh Hsh. apply of_option_Ok in Hsh.
  injection H as <-. exists sh. auto.
Qed.

Lemma broadcast2_Ok (f : Q -> Q -> Q) (t1 t2 : Tensor Q) (sh : list nat) :
  length (shape t1) = length (shape t2) ->
  bcast_shape (shape t1) (shape t2) = Some sh ->
  broadcast2 f t1 t2
  = Ok (tabulate sh (fun idx =>
          f (tgetd t1 (bcast_index (shape t1) idx))
            (tgetd t2 (bcast_index (shape t2) idx)))).
Proof.
  intros Hlen Hsh. unfold broadcast2. rewrite <- Hlen, Nat.max_id, pad_shape_same.
  assert (pad_shape (length (shape t1)) (shape t2) = shape t2) as ->
    by (rewrite Hlen; apply pad_shape_same).
  rewrite !tensor_eta, Hsh. reflexivity.
Qed.

(** A shape against [1; 1; g; g] and against [1; nA; 1; 1]. *)
Lemma bcast_shape_grid (ns nA g : nat) :
  bcast_shape [ns; nA; g; g] [1; 1; g; g]%nat = Some [ns; nA; g; g].
Proof.
  unfold bcast_shape. cbn. unfold bcast_dim.
  repeat (case_decide; cbn); subst; try reflexivity; try lia.
Qed.

Lemma bcast_shape_anchor (ns nA g : nat) :
  bcast_shape [ns; nA; g; g] [1; nA; 1; 1]%nat = Some [ns; nA; g; g].
Proof.
  unfold bcast_shape. cbn. unfold bcast_dim.
  repeat (case_decide; cbn); subst; try reflexivity; try lia.
Qed.

Lemma tget_select_last (t : Tensor Q) (k : nat) (idx : list nat) (o : nat) :
  offset (removelast (shape t)) idx = Some o ->
  tget (select_last t k) idx = Some (tgetd t (idx ++ [k])).
Proof. intros Ho. unfold select_last. erewrite tget_tabulate by exact Ho. reflexivity. Qed.

Lemma stack_last_inv (sh : list nat) (chans : list (Tensor Q)) (t : Tensor Q) :
  stack_last sh chans = Ok t ->
  Forall (fun c => shape c = sh) chans /\
  t = tabulate (sh ++ [length chans])
        (fun idx => tgetd (nth (last_index idx) chans (full [] 0)) (removelast idx)).
Proof.
  unfold stack_last. case_decide; [|discriminate]. intros [= <-]. auto.
Qed.

Lemma removelast_snoc {A} (l : list A) (x : A) : removelast (l ++ [x]) = l.
Proof. apply removelast_last. Qed.

Lemma last_index_snoc (l : list nat) (x : nat) : last_index (l ++ [x]) = x.
Proof. unfold last_index. apply last_last. Qed.

Lemma tget_stack_last (sh : list nat) (chans : list (Tensor Q)) (idx : list nat)
    (c o : nat) (ch : Tensor Q) :
  offset sh idx = Some o -> chans !! c = Some ch ->
  tget (tabulate (sh ++ [length chans])
          (fun idx => tgetd (nth (last_index idx) chans (full [] 0)) (removelast idx)))
       (idx ++ [c])
  = Some (tgetd ch idx).
Proof.
  intros Ho Hc.
  erewrite tget_tabulate; cycle 1.
  { apply offset_snoc; [exact Ho | eapply lookup_lt_Some; exact Hc]. }
  rewrite removelast_snoc, last_index_snoc.
  rewrite (nth_lookup_Some _ _ _ _ Hc). reflexivity.
Qed.

(** Reading the permuted view of the input. *)
Lemma tget_prediction (x : Tensor Q) (ns nA nC g b a j i c : nat) :
  numel [ns; nA; (nC + 7)%nat; g; g] = length (data x) ->
  (b < ns)%nat -> (a < nA)%nat -> (j < g)%nat -> (i < g)%nat -> (c < nC + 7)%nat ->
  tget (permute [0; 1; 3; 4; 2]%nat (mkTensor [ns; nA; (nC + 7)%nat; g; g] (data x)))
       [b; a; j; i; c]
  = Some (raw_channel x nA nC g b a j i c).
Proof.
  intros Hn Hb Ha Hj Hi Hc. unfold permute. cbn [shape fmap list_fmap nth].
  erewrite tget_tabulate by (apply offset5; assumption).
  cbn [length seq fmap list_fmap position Nat.eqb nth].
  f_equal. unfold tgetd, tget, raw_channel. cbn [shape data].
  rewrite offset5 by assumption. cbn [mbind option_bind].
  set (o := (_ + i)%nat).
  destruct (data x !! o) as [v|] eqn:E.
  - simpl. symmetry. apply nth_lookup_Some with (d := 0) in E. exact E.
  - simpl. symmetry. apply nth_overflow. apply lookup_ge_None in E. exact E.
Qed.

Section Decode.
Context {TM : TorchMath} {RU : RotatedBoxUtils}.

(** The steps of a [decode] that returned. *)
Lemma decode_inv (self self' : YoloLayer) (x : Tensor Q) (img : Q) (d : Decoded) :
  decode self x img = Ok (self', d) ->
  let nA := num_anchors self in
  let nC := num_classes self in
  exists ns C H g geo c0 c1 c2 c3,
    shape x = [ns; C; H; g] /\
    numel [ns; nA; (nC + 7)%nat; g; g] = length (data x) /\
    (if decide (g ≠ grid_size self)
     then compute_grid_offsets (set_img_size self img) g = Ok self'
     else self' = set_img_size self img) /\
    geometry self' = Some geo /\
    prediction d
    = permute [0; 1; 3; 4; 2]%nat (mkTensor [ns; nA; (nC + 7)%nat; g; g] (data x)) /\
    pred_x d = tmap torch_sigmoid (select_last (prediction d) 0) /\
    pred_y d = tmap torch_sigmoid (select_last (prediction d) 1) /\
    pred_w d = select_last (prediction d) 2 /\
    pred_h d = select_last (prediction d) 3 /\
    pred_im d = select_last (prediction d) 4 /\
    pred_re d = select_last (prediction d) 5 /\
    pred_conf d = tmap torch_sigmoid (select_last (prediction d) 6) /\
    pred_cls d = tmap torch_sigmoid (slice_last (prediction d) 7 (nC + 7)) /\
    broadcast2 Qplus (pred_x d) (grid_x geo) = Ok c0 /\
    broadcast2 Qplus (pred_y d) (grid_y geo) = Ok c1 /\
    broadcast2 Qmult (tmap torch_exp (pred_w d)) (anchor_w geo) = Ok c2 /\
    broadcast2 Qmult (tmap torch_exp (pred_h d)) (anchor_h geo) = Ok c3 /\
    stack_last [ns; nA; g; g] [c0; c1; c2; c3; pred_im d; pred_re d] = Ok (out_boxes d).
Proof.
  intros H. cbv zeta. unfold decode in H.
  destruct (shape x) as [|ns [|C [|H' [|g [|? ?]]]]] eqn:Hshape; try discriminate.
  cbn [num_anchors num_classes set_img_size grid_size] in H.
  inv_bind H v Hv. apply view_inv in Hv as [Hn ->].
  inv_bind H selfA HselfA. inv_bind H geo Hgeo. apply of_option_Ok in Hgeo.
  inv_bind H c0 Hc0. inv_bind H c1 Hc1. inv_bind H c2 Hc2. inv_bind H c3 Hc3.
  inv_bind H ob Hob. inv_bind H o1 Ho1. inv_bind H o2 Ho2. inv_bind H o3 Ho3.
  inv_bind H o4 Ho4. inv_bind H out Hout. injection H as <- <-.
  exists ns, C, H', g, geo, c0, c1, c2, c3. cbn [prediction pred_x pred_y pred_w pred_h
    pred_im pred_re pred_conf pred_cls out_boxes].
  split; [reflexivity|]. split; [exact Hn|]. split.
  { case_decide; [exact HselfA | injection HselfA as <-; reflexivity]. }
  repeat (split; [first [assumption | reflexivity]|]). assumption.
Qed.

Lemma geometry_ok_set_img_size (self : YoloLayer) (img : Q) (geo : Geometry) :
  geometry_ok (set_img_size self img) geo <-> geometry_ok self geo.
Proof. reflexivity. Qed.

(** [decode] keeps the invariant, and leaves the anchors and the class
    count alone. *)
Lemma decode_layer_ok (self self' : YoloLayer) (x : Tensor Q) (img : Q) (d : Decoded) :
  layer_ok self -> decode self x img = Ok (self', d) ->
  layer_ok self' /\ anchors self' = anchors self /\
  num_anchors self' = num_anchors self /\ num_classes self' = num_classes self /\
  ignore_thresh self' = ignore_thresh self.
Proof.
  intros (HnA & Hsome & Hgeo) H. apply decode_inv in H.
  destruct H as (ns & C & H' & g & geo & c0 & c1 & c2 & c3 & _ & _ & Hself & _).
  case_decide.
  - apply compute_grid_offsets_geometry in Hself as (geo' & -> & Hok).
    split; [split; [|split]|repeat split].
    + exact HnA.
    + discriminate.
    + intros geo0 [= <-]. exact Hok.
  - subst self'. split; [split; [|split]|repeat split].
    + exact HnA.
    + exact Hsome.
    + intros geo0 Hg. apply Hgeo. exact Hg.
Qed.

End Decode.

Lemma view_infer_Ok (t : Tensor Q) (n m c : nat) :
  length (data t) = (n * m * c)%nat -> (n * c)%nat <> 0%nat ->
  view_infer t n c = Ok (mkTensor [n; m; c] (data t)).
Proof.
  intros Hlen Hnc. unfold view_infer. rewrite Hlen.
  case_decide; [contradiction|].
  replace (n * m * c)%nat with (m * (n * c))%nat by lia.
  rewrite Nat.Div0.mod_mul, Nat.div_mul by exact Hnc.
  case_decide; [|contradiction].
  apply view_Ok. rewrite Hlen. simpl. lia.
Qed.

Lemma shape_slice_last (t : Tensor Q) (lo hi : nat) :
  shape (slice_last t lo hi)
  = removelast (shape t) ++ [(Nat.min hi (last_index (shape t)) - lo)%nat].
Proof. reflexivity. Qed.

Lemma length_data_tabulate {A} (sh : list nat) (f : list nat -> A) :
  length (data (tabulate sh f)) = numel sh.
Proof. apply (wf_tabulate sh f). Qed.

Section DecodeReturns.
Context {TM : TorchMath} {RU : RotatedBoxUtils}.

(** [decode] returns on a batch of at least one sample whose channel count
    is the one of the layer, for a layer with at least one class and one
    anchor and a non-zero image size. *)
Lemma decode_ok (self : YoloLayer) (x : Tensor Q) (img : Q) (ns g : nat) :
  layer_ok self ->
  shape x = [ns; (num_anchors self * (num_classes self + 7))%nat; g; g] ->
  wf_tensor x ->
  (0 < ns)%nat -> (0 < g)%nat -> (0 < num_classes self)%nat ->
  anchors self <> [] -> ~ img == 0 ->
  exists self' d, decode self x img = Ok (self', d).
Proof.
  intros (HnA & Hsome & Hgeo) Hshape Hwf Hns Hg HnC Hne Himg.
  unfold decode. rewrite Hshape.
  cbn [num_anchors num_classes set_img_size grid_size].
  set (nA := num_anchors self) in *. set (nC := num_classes self) in *.
  rewrite view_Ok; cycle 1.
  { rewrite Hwf, Hshape. simpl. lia. }
  cbn [mbind result_bind].
  assert (exists selfA geo,
            (if decide (g ≠ grid_size self)
             then compute_grid_offsets (set_img_size self img) g
             else Ok (set_img_size self img)) = Ok selfA /\
            geometry selfA = Some geo /\ geometry_ok selfA geo /\
            grid_size selfA = g /\ anchors selfA = anchors self)
    as (selfA & geo & -> & HgeoA & HokA & HgA & HanchA).
  { case_decide as Hgs.
    - destruct (compute_grid_offsets_ok (set_img_size self img) g Hg Himg Hne HnA)
        as (geo & Hcomp & Hok & _).
      eexists _, geo. split; [exact Hcomp|]. split; [reflexivity|].
      split; [exact Hok|]. split; reflexivity.
    - assert (g = grid_size self) as Hgs' by (destruct (decide (g = grid_size self)); [auto|contradiction]).
      destruct (geometry self) as [geo|] eqn:E.
      + exists (set_img_size self img), geo. split; [reflexivity|].
        split; [exact E|]. split; [apply Hgeo; reflexivity|]. split; [auto|reflexivity].
      + exfalso. apply Hsome; [lia | reflexivity]. }
  cbn [mbind result_bind]. rewrite HgeoA. cbn [of_option mbind result_bind].
  destruct HokA as (Hgx & Hgy & _ & _ & Haw & Hah & _).
  rewrite HgA in Hgx, Hgy. rewrite HanchA, <- HnA in Haw, Hah. fold nA in Haw, Hah.
  set (P := permute _ _).
  assert (shape P = [ns; nA; g; g; (nC + 7)%nat]) as HshP by reflexivity.
  assert (Hshx : forall k, shape (select_last P k) = [ns; nA; g; g]).
  { intros k. unfold select_last. cbn [shape tabulate]. rewrite HshP. reflexivity. }
  rewrite (broadcast2_Ok Qplus _ (grid_x geo) [ns; nA; g; g]); cycle 1.
  { cbn [shape tmap]. rewrite Hshx, Hgx. reflexivity. }
  { cbn [shape tmap]. rewrite Hshx, Hgx. apply bcast_shape_grid. }
  cbn [mbind result_bind].
  rewrite (broadcast2_Ok Qplus _ (grid_y geo) [ns; nA; g; g]); cycle 1.
  { cbn [shape tmap]. rewrite Hshx, Hgy. reflexivity. }
  { cbn [shape tmap]. rewrite Hshx, Hgy. apply bcast_shape_grid. }
  cbn [mbind result_bind].
  rewrite (broadcast2_Ok Qmult _ (anchor_w geo) [ns; nA; g; g]); cycle 1.
  { cbn [shape tmap]. rewrite Hshx, Haw. reflexivity. }
  { cbn [shape tmap]. rewrite Hshx, Haw. apply bcast_shape_anchor. }
  cbn [mbind result_bind].
  rewrite (broadcast2_Ok Qmult _ (anchor_h geo) [ns; nA; g; g]); cycle 1.
  { cbn [shape tmap]. rewrite Hshx, Hah. reflexivity. }
  { cbn [shape tmap]. rewrite Hshx, Hah. apply bcast_shape_anchor. }
  cbn [mbind result_bind].
  unfold stack_last. case_decide as Hst; cycle 1.
  { exfalso. apply Hst. repeat constructor; cbn [shape tabulate]; auto. }
  cbn [mbind result_bind length].
  set (OB := tabulate ([ns; nA; g; g] ++ [6%nat]) _).
  assert (shape OB = [ns; nA; g; g; 6%nat]) as HshOB by reflexivity.
  rewrite (view_infer_Ok _ ns (nA * g * g) 4); cycle 1.
  { unfold slice_last. rewrite length_data_tabulate, HshOB. simpl. lia. }
  { lia. }
  cbn [mbind result_bind].
  rewrite (view_infer_Ok _ ns (nA * g * g) 2); cycle 1.
  { unfold slice_last. rewrite length_data_tabulate, HshOB. simpl. lia. }
  { lia. }
  cbn [mbind result_bind].
  rewrite (view_infer_Ok _ ns (nA * g * g) 1); cycle 1.
  { cbn [data tmap]. rewrite length_fmap. unfold select_last.
    rewrite length_data_tabulate, HshP. simpl. lia. }
  { lia. }
  cbn [mbind result_bind].
  rewrite (view_infer_Ok _ ns (nA * g * g) nC); cycle 1.
  { cbn [data tmap]. rewrite length_fmap. unfold slice_last.
    rewrite length_data_tabulate, HshP. cbn [removelast last_index List.last app].
    replace (Nat.min (nC + 7) (nC + 7) - 7)%nat with nC by lia. simpl. lia. }
  { lia. }
  cbn [mbind result_bind].
  unfold cat_last. case_decide as Hcat; cycle 1.
  { exfalso. apply Hcat. repeat constructor; cbn [shape tmap]; auto; discriminate. }
  eexists _, _. reflexivity.
Qed.

End DecodeReturns.

(** ** The decoder: channels and decoded boxes *)

Lemma bcast_index_grid (g b a j i : nat) :
  (j < g)%nat -> (i < g)%nat ->
  bcast_index [1; 1; g; g]%nat [b; a; j; i] = [0; 0; j; i]%nat.
Proof.
  intros Hj Hi. unfold bcast_index. cbn.
  repeat case_decide; repeat f_equal; lia.
Qed.

Lemma bcast_index_anchor (nA b a j i : nat) :
  (a < nA)%nat ->
  bcast_index [1; nA; 1; 1]%nat [b; a; j; i] = [0; a; 0; 0]%nat.
Proof.
  intros Ha. unfold bcast_index. cbn.
  repeat case_decide; repeat f_equal; lia.
Qed.

Section DecodeValues.
Context {TM : TorchMath} {RU : RotatedBoxUtils}.

(** The channels and the decoded boxes of a [decode] that returned. *)
Lemma decode_values (self self' : YoloLayer) (x : Tensor Q) (img : Q)
    (d : Decoded) (ns C H g : nat) :
  layer_ok self -> shape x = [ns; C; H; g] ->
  decode self x img = Ok (self', d) ->
  forall b a j i a_w a_h im re,
    (b < ns)%nat -> (j < g)%nat -> (i < g)%nat ->
    anchors self !! a = Some (a_w, a_h, im, re) ->
    let raw := raw_channel x (num_anchors self) (num_classes self) g b a j i in
    (forall c, (c < num_classes self + 7)%nat ->
       tget (prediction d) [b; a; j; i; c] = Some (raw c)) /\
    tget (pred_x d) [b; a; j; i] = Some (torch_sigmoid (raw 0%nat)) /\
    tget (pred_y d) [b; a; j; i] = Some (torch_sigmoid (raw 1%nat)) /\
    tget (pred_w d) [b; a; j; i] = Some (raw 2%nat) /\
    tget (pred_h d) [b; a; j; i] = Some (raw 3%nat) /\
    tget (pred_im d) [b; a; j; i] = Some (raw 4%nat) /\
    tget (pred_re d) [b; a; j; i] = Some (raw 5%nat) /\
    tget (pred_conf d) [b; a; j; i] = Some (torch_sigmoid (raw 6%nat)) /\
    (forall c, (c < num_classes self)%nat ->
       tget (pred_cls d) [b; a; j; i; c] = Some (torch_sigmoid (raw (7 + c)%nat))) /\
    tget (out_boxes d) [b; a; j; i; 0%nat]
      = Some (torch_sigmoid (raw 0%nat) + inject_Z (Z.of_nat i)) /\
    tget (out_boxes d) [b; a; j; i; 1%nat]
      = Some (torch_sigmoid (raw 1%nat) + inject_Z (Z.of_nat j)) /\
    tget (out_boxes d) [b; a; j; i; 2%nat]
      = Some (torch_exp (raw 2%nat) * (a_w / stride self')) /\
    tget (out_boxes d) [b; a; j; i; 3%nat]
      = Some (torch_exp (raw 3%nat) * (a_h / stride self')) /\
    tget (out_boxes d) [b; a; j; i; 4%nat] = Some (raw 4%nat) /\
    tget (out_boxes d) [b; a; j; i; 5%nat] = Some (raw 5%nat).
Proof.
  intros Hok Hshape Hdec b a j i a_w a_h im re Hb Hj Hi Ha raw.
  destruct (decode_layer_ok _ _ _ _ _ Hok Hdec) as ((_ & _ & Hgeo') & Hanch & HnA' & _).
  destruct Hok as [HnA _].
  apply decode_inv in Hdec.
  destruct Hdec as (ns' & C' & H' & g' & geo & c0 & c1 & c2 & c3 & Hshape' & Hn & Hself
    & Hgeo & HP & Hpx & Hpy & Hpw & Hph & Hpim & Hpre & Hpconf & Hpcls
    & Hc0 & Hc1 & Hc2 & Hc3 & Hob).
  rewrite Hshape in Hshape'. injection Hshape' as <- <- <- <-.
  assert (a < num_anchors self)%nat as Halt.
  { rewrite HnA. eapply lookup_lt_Some. exact Ha. }
  set (nA := num_anchors self) in *. set (nC := num_classes self) in *.
  assert (grid_size self' = g) as Hgs.
  { case_decide as Hg.
    - apply compute_grid_offsets_geometry in Hself as (geo' & -> & _). reflexivity.
    - subst self'. simpl. destruct (decide (g = grid_size self)); [auto | contradiction]. }
  specialize (Hgeo' _ Hgeo) as (Hgx & Hgy & Hgrid & _ & Haw & Hah & Hanchors).
  rewrite Hgs in Hgx, Hgy, Hgrid. rewrite Hanch, <- HnA in Haw, Hah.
  fold nA in Haw, Hah.
  rewrite Hanch in Hanchors.
  specialize (Hanchors _ _ _ _ _ Ha) as (_ & _ & _ & _ & Haw_a & Hah_a).
  specialize (Hgrid _ _ Hj Hi) as [Hgx_ji Hgy_ji].
  assert (shape (prediction d) = [ns; nA; g; g; (nC + 7)%nat]) as HshP.
  { rewrite HP. reflexivity. }
  assert (HPget : forall c, (c < nC + 7)%nat ->
            tget (prediction d) [b; a; j; i; c] = Some (raw c)).
  { intros c Hc. rewrite HP. apply tget_prediction; assumption. }
  assert (Hoff : offset [ns; nA; g; g] [b; a; j; i]
                 = Some (((b * nA + a) * g + j) * g + i)%nat)
    by (apply offset4; assumption).
  assert (Hsel : forall k, (k < nC + 7)%nat ->
            tget (select_last (prediction d) k) [b; a; j; i] = Some (raw k)).
  { intros k Hk. erewrite tget_select_last by (rewrite HshP; exact Hoff).
    f_equal. apply tgetd_Some. apply HPget. exact Hk. }
  assert (Hx : tget (pred_x d) [b; a; j; i] = Some (torch_sigmoid (raw 0%nat))).
  { rewrite Hpx, tget_tmap, Hsel by lia. reflexivity. }
  assert (Hy : tget (pred_y d) [b; a; j; i] = Some (torch_sigmoid (raw 1%nat))).
  { rewrite Hpy, tget_tmap, Hsel by lia. reflexivity. }
  assert (Hw : tget (pred_w d) [b; a; j; i] = Some (raw 2%nat)).
  { rewrite Hpw, Hsel by lia. reflexivity. }
  assert (Hh : tget (pred_h d) [b; a; j; i] = Some (raw 3%nat)).
  { rewrite Hph, Hsel by lia. reflexivity. }
  assert (Him : tget (pred_im d) [b; a; j; i] = Some (raw 4%nat)).
  { rewrite Hpim, Hsel by lia. reflexivity. }
  assert (Hre : tget (pred_re d) [b; a; j; i] = Some (raw 5%nat)).
  { rewrite Hpre, Hsel by lia. reflexivity. }
  assert (Hshx : forall k, shape (select_last (prediction d) k) = [ns; nA; g; g]).
  { intros k. unfold select_last. cbn [shape tabulate]. rewrite HshP. reflexivity. }
  (* the four broadcast channels *)
  apply broadcast2_inv in Hc0 as (sh0 & Hsh0 & Hc0);
    [|rewrite Hpx, Hgx; cbn [shape tmap]; rewrite Hshx; reflexivity].
  apply broadcast2_inv in Hc1 as (sh1 & Hsh1 & Hc1);
    [|rewrite Hpy, Hgy; cbn [shape tmap]; rewrite Hshx; reflexivity].
  apply broadcast2_inv in Hc2 as (sh2 & Hsh2 & Hc2);
    [|rewrite Hpw, Haw; cbn [shape tmap]; rewrite Hshx; reflexivity].
  apply broadcast2_inv in Hc3 as (sh3 & Hsh3 & Hc3);
    [|rewrite Hph, Hah; cbn [shape tmap]; rewrite Hshx; reflexivity].
  assert (shape (pred_x d) = [ns; nA; g; g]) as Hshpx
    by (rewrite Hpx; cbn [shape tmap]; apply Hshx).
  assert (shape (pred_y d) = [ns; nA; g; g]) as Hshpy
    by (rewrite Hpy; cbn [shape tmap]; apply Hshx).
  assert (shape (tmap torch_exp (pred_w d)) = [ns; nA; g; g]) as Hshpw
    by (rewrite Hpw; cbn [shape tmap]; apply Hshx).
  assert (shape (tmap torch_exp (pred_h d)) = [ns; nA; g; g]) as Hshph
    by (rewrite Hph; cbn [shape tmap]; apply Hshx).
  rewrite Hshpx, Hgx, bcast_shape_grid in Hsh0. injection Hsh0 as <-.
  rewrite Hshpy, Hgy, bcast_shape_grid in Hsh1. injection Hsh1 as <-.
  rewrite Hshpw, Haw, bcast_shape_anchor in Hsh2. injection Hsh2 as <-.
  rewrite Hshph, Hah, bcast_shape_anchor in Hsh3. injection Hsh3 as <-.
  apply stack_last_inv in Hob as [_ Hob].
  assert (Hbox : forall c ch, [c0; c1; c2; c3; pred_im d; pred_re d] !! c = Some ch ->
            tget (out_boxes d) [b; a; j; i; c] = Some (tgetd ch [b; a; j; i])).
  { intros c ch Hc. rewrite Hob.
    exact (tget_stack_last _ _ [b; a; j; i] c _ ch Hoff Hc). }
  split; [exact HPget|].
  repeat (split; [assumption|]).
  split; [rewrite Hpconf, tget_tmap, Hsel by lia; reflexivity|].
  split.
  { intros c Hc. rewrite Hpcls, tget_tmap. unfold slice_last. rewrite HshP.
    cbn [removelast last_index List.last app].
    replace (Nat.min (nC + 7) (nC + 7) - 7)%nat with nC by lia.
    erewrite tget_tabulate by (apply offset5; assumption).
    cbn [removelast last_index List.last app fmap option_fmap option_map].
    do 2 f_equal. apply tgetd_Some, HPget. lia. }
  rewrite (Hbox 0%nat _ eq_refl), (Hbox 1%nat _ eq_refl), (Hbox 2%nat _ eq_refl),
    (Hbox 3%nat _ eq_refl), (Hbox 4%nat _ eq_refl), (Hbox 5%nat _ eq_refl).
  unfold tgetd at 1 2 3 4. rewrite Hc0, Hc1, Hc2, Hc3.
  rewrite !(tget_tabulate _ _ _ _ Hoff).
  rewrite Hshpx, Hshpy, Hshpw, Hshph, Hgx, Hgy, Haw, Hah.
  rewrite !(bcast_index_id _ _ _ Hoff), !bcast_index_grid, !bcast_index_anchor
    by assumption.
  unfold tgetd. rewrite Hx, Hy, Him, Hre, Hgx_ji, Hgy_ji, Haw_a, Hah_a, !tget_tmap, Hw, Hh.
  cbn [default fmap option_fmap option_map from_option].
  repeat split; reflexivity.
Qed.

End DecodeValues.

(** ** Scatter writes *)

Lemma length_scatter {A} (d : list A) (offs : list nat) (vals : list A) :
  length (scatter d offs vals) = length d.
Proof.
  revert d vals. induction offs as [|o offs IH]; intros d [|v vals]; simpl; auto.
  rewrite IH. apply length_insert.
Qed.

(** An offset no write addresses keeps its value. *)
Lemma scatter_lookup_notin {A} (d : list A) (offs : list nat) (vals : list A) (o : nat) :
  o ∉ offs -> scatter d offs vals !! o = d !! o.
Proof.
  revert d vals. induction offs as [|o' offs IH]; intros d [|v vals] Hnot; simpl; auto.
  apply not_elem_of_cons in Hnot as [Hne Hnot].
  rewrite IH by exact Hnot. apply list_lookup_insert_ne. congruence.
Qed.

(** The last write to an offset decides its value. *)
Lemma scatter_lookup_last {A} (d : list A) (offs : list nat) (vals : list A)
    (k o : nat) :
  length offs = length vals -> (o < length d)%nat ->
  offs !! k = Some o ->
  (forall k', (k < k')%nat -> offs !! k' <> Some o) ->
  scatter d offs vals !! o = vals !! k.
Proof.
  revert d vals k. induction offs as [|o' offs IH]; intros d [|v vals] k Hlen Ho Hk Hlast;
    simpl in *; try discriminate.
  destruct k as [|k].
  - injection Hk as ->. simpl.
    rewrite scatter_lookup_notin.
    + apply list_lookup_insert_eq. exact Ho.
    + intros Hin. apply list_elem_of_lookup in Hin as [k' Hk'].
      apply (Hlast (S k')); [lia | exact Hk'].
  - simpl in Hk. simpl. apply IH.
    + lia.
    + rewrite length_insert. exact Ho.
    + exact Hk.
    + intros k' Hlt. apply (Hlast (S k')). lia.
Qed.

(** Writing one value: an offset holds it exactly if some write addresses
    it. *)
Lemma scatter_const_in {A} (d : list A) (offs : list nat) (v : A) (o : nat) :
  (o < length d)%nat -> o ∈ offs ->
  scatter d offs (replicate (length offs) v) !! o = Some v.
Proof.
  revert d. induction offs as [|o' offs IH]; intros d Ho Hin; simpl.
  - inversion Hin.
  - destruct (decide (o ∈ offs)) as [Hin'|Hnot].
    + apply IH; [rewrite length_insert; exact Ho | exact Hin'].
    + apply elem_of_cons in Hin as [->|Hin]; [|contradiction].
      rewrite scatter_lookup_notin by exact Hnot.
      apply list_lookup_insert_eq. exact Ho.
Qed.

(** ** Index vectors and slot offsets *)

Lemma norm_index_lt (d : nat) (i : Z) (n : nat) :
  norm_index d i = Some n -> (n < d)%nat.
Proof.
  unfold norm_index. repeat case_decide; intros [= <-]; lia.
Qed.

Lemma norm_index_nonneg (d : nat) (i : Z) :
  (0 <= i < Z.of_nat d)%Z -> norm_index d i = Some (Z.to_nat i).
Proof. intros H. unfold norm_index. case_decide; [reflexivity | lia]. Qed.

Lemma norm_index_of_nat (d n : nat) :
  (n < d)%nat -> norm_index d (Z.of_nat n) = Some n.
Proof.
  intros H. rewrite norm_index_nonneg by lia. rewrite Nat2Z.id. reflexivity.
Qed.

Lemma norm_indices_offset (sh : list nat) (zs : list Z) (idx : list nat) :
  norm_indices sh zs = Some idx -> exists o, offset sh idx = Some o.
Proof.
  revert zs idx. induction sh as [|d sh IH]; intros [|z zs] idx; simpl; try discriminate.
  - intros [= <-]. exists 0%nat. reflexivity.
  - destruct (norm_index d z) as [n|] eqn:Hn; simpl; [|discriminate].
    destruct (norm_indices sh zs) as [ns|] eqn:Hns; simpl; [|discriminate].
    intros [= <-]. destruct (IH _ _ Hns) as [o Ho]. simpl.
    apply norm_index_lt in Hn. case_decide; [|lia]. rewrite Ho. simpl. eauto.
Qed.

Lemma zoffset_Ok (sh : list nat) (zs : list Z) (o : nat) :
  zoffset sh zs = Ok o <->
  exists idx, norm_indices sh zs = Some idx /\ offset sh idx = Some o.
Proof.
  unfold zoffset. rewrite of_option_Ok.
  destruct (norm_indices sh zs) as [idx|]; simpl.
  - split; [intros H; exists idx; auto | intros (idx' & [= <-] & H); exact H].
  - split; [discriminate | intros (idx' & H & _); discriminate].
Qed.

Lemma bcast_len_same (n : nat) (lens : list nat) :
  lens <> [] -> Forall (fun k => k = n) lens -> bcast_len lens = Some n.
Proof.
  intros Hne Hall. unfold bcast_len.
  destruct lens as [|k lens]; [congruence|].
  apply Forall_cons_1 in Hall as [-> Hall].
  assert (default 1%nat (head (filter (fun k => k ≠ 1%nat) (n :: lens))) = n) as ->.
  { rewrite filter_cons. case_decide as Hn; [reflexivity|].
    assert (n = 1%nat) as -> by (destruct (decide (n = 1%nat)); [auto | contradiction]).
    clear Hn Hne. induction lens as [|k lens IH]; [reflexivity|].
    apply Forall_cons_1 in Hall as [-> Hall]. rewrite filter_cons.
    case_decide; [contradiction | apply IH; exact Hall]. }
  case_decide as Hd; [reflexivity|]. exfalso. apply Hd.
  constructor; [auto|]. eapply List.Forall_impl; [|exact Hall]. intros; auto.
Qed.

Lemma bexpand_same {A} (n : nat) (l : list A) :
  length l = n -> bexpand n l = Some l.
Proof. intros H. unfold bexpand. case_decide; [reflexivity | contradiction]. Qed.

Lemma bexpand_scalar {A} (n : nat) (v : A) : bexpand n [v] = Some (replicate n v).
Proof.
  unfold bexpand. case_decide as H; [|reflexivity].
  simpl in H. subst n. reflexivity.
Qed.

Lemma bexpand_length {A} (n : nat) (l l' : list A) :
  bexpand n l = Some l' -> length l' = n.
Proof.
  unfold bexpand. case_decide; [intros [= <-]; assumption|].
  destruct l as [|v [|? ?]]; try discriminate.
  intros [= <-]. apply length_replicate.
Qed.

Lemma mapM_bexpand_same (n : nat) (cols : list (list Z)) :
  Forall (fun c => length c = n) cols -> mapM (bexpand n) cols = Some cols.
Proof.
  induction 1 as [|c cols Hc _ IH]; [reflexivity|].
  cbn. rewrite (bexpand_same _ _ Hc). cbn. rewrite IH. reflexivity.
Qed.

Lemma length_ztuples (n : nat) (cols : list (list Z)) :
  Forall (fun c => length c = n) cols -> length (ztuples n cols) = n.
Proof.
  induction 1 as [|c cols Hc _ IH]; simpl.
  - apply length_replicate.
  - rewrite length_zip_with, IH, Hc. lia.
Qed.

Lemma lookup_ztuples (n k : nat) (cols : list (list Z)) :
  Forall (fun c => length c = n) cols -> (k < n)%nat ->
  ztuples n cols !! k = Some ((fun c => nth k c 0%Z) <$> cols).
Proof.
  intros Hall Hk. induction Hall as [|c cols Hc _ IH]; simpl.
  - apply lookup_replicate_2. exact Hk.
  - rewrite lookup_zip_with, IH.
    destruct (c !! k) as [z|] eqn:E.
    + simpl. rewrite (nth_lookup_Some _ _ _ _ E). reflexivity.
    + apply lookup_ge_None in E. lia.
Qed.

(** The offsets of index vectors with one entry per box. *)
Lemma slot_offsets_same (sh : list nat) (n : nat) (cols : list (list Z)) :
  cols <> [] -> Forall (fun c => length c = n) cols ->
  slot_offsets sh cols = mapR (zoffset sh) (ztuples n cols).
Proof.
  intros Hne Hall. unfold slot_offsets.
  rewrite (bcast_len_same n); cycle 1.
  { destruct cols; [congruence | discriminate]. }
  { apply Forall_fmap. exact Hall. }
  cbn. rewrite (mapM_bexpand_same _ _ Hall). reflexivity.
Qed.

Lemma slot_offsets_lookup (sh : list nat) (n : nat) (cols : list (list Z))
    (offs : list nat) :
  cols <> [] -> Forall (fun c => length c = n) cols ->
  slot_offsets sh cols = Ok offs ->
  length offs = n /\
  forall k, (k < n)%nat ->
    exists o, offs !! k = Some o /\
              zoffset sh ((fun c => nth k c 0%Z) <$> cols) = Ok o.
Proof.
  intros Hne Hall H. rewrite (slot_offsets_same sh n cols Hne Hall) in H.
  apply mapR_Forall2 in H.
  pose proof (Forall2_length H) as Hlen. rewrite length_ztuples in Hlen by exact Hall.
  split; [congruence|]. intros k Hk.
  pose proof (lookup_ztuples n k cols Hall Hk) as Ht.
  destruct (Forall2_lookup_l _ _ _ _ _ H Ht) as (o & Ho & Hz).
  exists o. auto.
Qed.

Lemma index_put_inv {A} (t t' : Tensor A) (cols : list (list Z)) (vals : list A) :
  index_put t cols vals = Ok t' ->
  exists offs vs,
    slot_offsets (shape t) cols = Ok offs /\
    bexpand (length offs) vals = Some vs /\
    t' = mkTensor (shape t) (scatter (data t) offs vs).
Proof.
  unfold index_put. intros H. inv_bind H offs Hoffs. inv_bind H vs Hvs.
  apply of_option_Ok in Hvs. injection H as <-. eauto.
Qed.

Lemma index_put_Ok {A} (t : Tensor A) (cols : list (list Z)) (vals vs : list A)
    (offs : list nat) :
  slot_offsets (shape t) cols = Ok offs ->
  bexpand (length offs) vals = Some vs ->
  index_put t cols vals = Ok (mkTensor (shape t) (scatter (data t) offs vs)).
Proof.
  intros Hoffs Hvs. unfold index_put. rewrite Hoffs. cbn. rewrite Hvs. reflexivity.
Qed.

(** A value read after the writes is a written one or the old one. *)
Lemma scatter_lookup_inv {A} (d : list A) (offs : list nat) (vals : list A)
    (o : nat) (v : A) :
  scatter d offs vals !! o = Some v ->
  (exists k, offs !! k = Some o /\ vals !! k = Some v) \/ d !! o = Some v.
Proof.
  revert d vals. induction offs as [|o' offs IH]; intros d [|v' vals] H; simpl in H; auto.
  apply IH in H as [(k & Hk & Hv)|H].
  - left. exists (S k). auto.
  - destruct (decide (o' = o)) as [->|Hne].
    + destruct (decide (o < length d)%nat) as [Hlt|Hge].
      * rewrite list_lookup_insert_eq in H by exact Hlt. injection H as <-.
        left. exists 0%nat. auto.
      * rewrite list_insert_ge in H by lia. auto.
    + rewrite list_lookup_insert_ne in H by exact Hne. auto.
Qed.

Lemma elem_of_nonzero_from (i : Z) (mask : list bool) (z : Z) :
  z ∈ nonzero_from i mask <->
  exists n, z = (i + Z.of_nat n)%Z /\ mask !! n = Some true.
Proof.
  revert i. induction mask as [|m mask IH]; intros i; simpl.
  - split; [intros H; inversion H | intros (n & _ & H); discriminate].
  - destruct m.
    + rewrite elem_of_cons, IH. split.
      * intros [->|(n & -> & Hn)].
        -- exists 0%nat. split; [lia | reflexivity].
        -- exists (S n). split; [lia | exact Hn].
      * intros ([|n] & -> & Hn).
        -- left. lia.
        -- right. exists n. split; [lia | exact Hn].
    + rewrite IH. split.
      * intros (n & -> & Hn). exists (S n). split; [lia | exact Hn].
      * intros ([|n] & -> & Hn); [discriminate|].
        exists n. split; [lia | exact Hn].
Qed.

(** Index vectors [[x]; nz; [y]; [z]]: the scalars are repeated along [nz]. *)
Lemma ztuples_mid (x y z : Z) (nz : list Z) :
  ztuples (length nz)
    [replicate (length nz) x; nz; replicate (length nz) y; replicate (length nz) z]
  = List.map (fun a => [x; a; y; z]) nz.
Proof.
  simpl. induction nz as [|a nz IH]; [reflexivity|].
  simpl. f_equal. exact IH.
Qed.

Lemma slot_offsets_mid (sh : list nat) (x y z : Z) (nz : list Z) :
  slot_offsets sh [[x]; nz; [y]; [z]]
  = mapR (zoffset sh) (List.map (fun a => [x; a; y; z]) nz).
Proof.
  unfold slot_offsets.
  assert (bcast_len (length <$> [[x]; nz; [y]; [z]]) = Some (length nz)) as ->.
  { unfold bcast_len. cbn [fmap list_fmap length].
    rewrite !filter_cons, filter_nil.
    destruct (decide (length nz = 1%nat)) as [E|E].
    - rewrite E. reflexivity.
    - destruct (decide (1%nat ≠ 1%nat)) as [?|_]; [congruence|].
      destruct (decide (length nz ≠ 1%nat)) as [_|?]; [|contradiction].
      cbn [list.head default from_option].
      case_decide as Hd; [reflexivity|].
      exfalso. apply Hd.
      repeat (constructor; [first [left; reflexivity | right; reflexivity]|]).
      constructor. }
  cbn [of_option mbind result_bind mapM].
  rewrite !bexpand_scalar, (bexpand_same _ nz eq_refl).
  cbn -[ztuples]. rewrite ztuples_mid. reflexivity.
Qed.

(** *** Counting the entries of a mask after writes of [true] *)

Lemma count_insert_le (l : list bool) (o : nat) :
  (count_list (<[o := true]> l) <= S (count_list l))%nat.
Proof.
  unfold count_list.
  revert o. induction l as [|x l IH]; intros o; [simpl; lia|].
  destruct o as [|o]; simpl.
  - rewrite !filter_cons. repeat case_decide; simpl; lia.
  - rewrite !filter_cons. specialize (IH o). case_decide; simpl; lia.
Qed.

Lemma count_scatter_le (l : list bool) (offs : list nat) :
  (count_list (scatter l offs (replicate (length offs) true))
   <= count_list l + length offs)%nat.
Proof.
  revert l. induction offs as [|o offs IH]; intros l; simpl; [lia|].
  specialize (IH (<[o := true]> l)). pose proof (count_insert_le l o). lia.
Qed.

Lemma count_scatter_written (l : list bool) (offs : list nat) (k o : nat) :
  l !! o = Some true -> offs !! k = Some o ->
  (count_list (scatter l offs (replicate (length offs) true))
   < count_list l + length offs)%nat.
Proof.
  revert l k. induction offs as [|o' offs IH]; intros l k Hl Hk; [discriminate|].
  simpl. destruct k as [|k].
  - injection Hk as ->. rewrite list_insert_id by exact Hl.
    pose proof (count_scatter_le l offs). lia.
  - simpl in Hk. specialize (IH (<[o' := true]> l) k).
    pose proof (count_insert_le l o').
    assert (<[o' := true]> l !! o = Some true) as Hl'.
    { destruct (decide (o' = o)) as [->|Hne].
      - apply list_lookup_insert_eq. eapply lookup_lt_Some. exact Hl.
      - rewrite list_lookup_insert_ne by exact Hne. exact Hl. }
    specialize (IH Hl' Hk). lia.
Qed.

(** Two writes to one offset leave fewer entries than there are writes. *)
Lemma count_scatter_collision (l : list bool) (offs : list nat) (k1 k2 o : nat) :
  (k1 < k2)%nat -> (o < length l)%nat ->
  offs !! k1 = Some o -> offs !! k2 = Some o ->
  (count_list (scatter l offs (replicate (length offs) true))
   < count_list l + length offs)%nat.
Proof.
  revert l k1 k2. induction offs as [|o' offs IH]; intros l k1 k2 Hlt Ho H1 H2;
    [discriminate|].
  simpl. pose proof (count_insert_le l o') as Hle.
  destruct k2 as [|k2]; [lia|]. simpl in H2.
  destruct k1 as [|k1].
  - injection H1 as ->.
    assert (<[o := true]> l !! o = Some true) as Hl'
      by (apply list_lookup_insert_eq; exact Ho).
    pose proof (count_scatter_written _ offs k2 o Hl' H2). lia.
  - simpl in H1.
    assert (o < length (<[o' := true]> l))%nat as Ho' by (rewrite length_insert; exact Ho).
    specialize (IH (<[o' := true]> l) k1 k2 ltac:(lia) Ho' H1 H2). lia.
Qed.

Lemma scatter_fmap {A B} (f : A -> B) (d : list A) (offs : list nat) (vals : list A) :
  f <$> scatter d offs vals = scatter (f <$> d) offs (f <$> vals).
Proof.
  revert d vals. induction offs as [|o offs IH]; intros d [|v vals]; simpl; auto.
  rewrite IH, list_fmap_insert. reflexivity.
Qed.

Lemma count_replicate_false (m : nat) : count_list (replicate m false) = 0%nat.
Proof.
  unfold count_list. induction m as [|m IH]; [reflexivity|].
  simpl. rewrite filter_cons. case_decide; [discriminate | exact IH].
Qed.

(** ** The first maximum *)

Lemma Qle_bool_false (a b : Q) : Qle_bool a b = false <-> b < a.
Proof.
  split.
  - intros H. apply Qnot_le_lt. intros Hle. apply Qle_bool_iff in Hle. congruence.
  - intros H. destruct (Qle_bool a b) eqn:E; [|reflexivity].
    apply Qle_bool_iff in E. apply Qlt_not_le in H. contradiction.
Qed.

Lemma argmax_from_spec (l pre : list Q) (best : Q) (besti : nat) :
  pre !! besti = Some best ->
  (forall a' v', pre !! a' = Some v' -> v' <= best) ->
  (forall a' v', (a' < besti)%nat -> pre !! a' = Some v' -> v' < best) ->
  let r := argmax_from best besti (length pre) l in
  first_max (pre ++ l) (snd r) /\ (pre ++ l) !! snd r = Some (fst r).
Proof.
  revert pre best besti. induction l as [|x l IH]; intros pre best besti Hb Hmax Hfirst; simpl.
  - rewrite app_nil_r. split; [|exact Hb]. exists best. auto.
  - destruct (Qle_bool x best) eqn:E.
    + apply Qle_bool_iff in E.
      specialize (IH (pre ++ [x]) best besti).
      rewrite length_app, Nat.add_1_r, <- app_assoc in IH. apply IH.
      * apply lookup_app_l_Some. exact Hb.
      * intros a' v' Ha'. apply lookup_app_Some in Ha' as [Ha'|[_ Ha']].
        -- eapply Hmax. exact Ha'.
        -- apply list_lookup_singleton_Some in Ha' as [_ <-]. exact E.
      * intros a' v' Hlt Ha'. apply lookup_app_Some in Ha' as [Ha'|[Hge Ha']].
        -- eapply Hfirst; eassumption.
        -- apply lookup_lt_Some in Hb. lia.
    + apply Qle_bool_false in E.
      specialize (IH (pre ++ [x]) x (length pre)).
      rewrite length_app, Nat.add_1_r, <- app_assoc in IH. apply IH.
      * rewrite lookup_app_r by lia. rewrite Nat.sub_diag. reflexivity.
      * intros a' v' Ha'. apply lookup_app_Some in Ha' as [Ha'|[_ Ha']].
        -- apply Qlt_le_weak. eapply Qle_lt_trans; [eapply Hmax; exact Ha' | exact E].
        -- apply list_lookup_singleton_Some in Ha' as [_ <-]. apply Qle_refl.
      * intros a' v' Hlt Ha'. apply lookup_app_Some in Ha' as [Ha'|[Hge Ha']].
        -- eapply Qle_lt_trans; [eapply Hmax; exact Ha' | exact E].
        -- lia.
Qed.

Lemma argmax_spec (l : list Q) (v : Q) (a : nat) :
  argmax l = Ok (v, a) -> first_max l a /\ l !! a = Some v.
Proof.
  destruct l as [|x l]; [discriminate|]. simpl. intros [= H].
  pose proof (argmax_from_spec l [x] x 0%nat) as Hs. simpl in Hs.
  rewrite H in Hs. simpl in Hs. apply Hs.
  - reflexivity.
  - intros [|a'] v'; simpl; [intros [= <-]; apply Qle_refl | discriminate].
  - intros a' v' Hlt. lia.
Qed.

Lemma argmax_Ok (l : list Q) : l <> [] -> exists v a, argmax l = Ok (v, a).
Proof.
  destruct l as [|x l]; [congruence|]. intros _. simpl.
  destruct (argmax_from x 0%nat 1%nat l) as [v a]. eauto.
Qed.

Lemma first_max_lt (l : list Q) (a : nat) : first_max l a -> (a < length l)%nat.
Proof. intros (v & Hv & _). eapply lookup_lt_Some. exact Hv. Qed.

(** The first maximum is unique. *)
Lemma first_max_unique (l : list Q) (a1 a2 : nat) :
  first_max l a1 -> first_max l a2 -> a1 = a2.
Proof.
  intros (v1 & H1 & Hmax1 & Hfirst1) (v2 & H2 & Hmax2 & Hfirst2).
  destruct (Nat.lt_trichotomy a1 a2) as [Hlt|[Heq|Hgt]]; [|exact Heq|].
  - exfalso. specialize (Hfirst2 _ _ Hlt H1). specialize (Hmax1 _ _ H2).
    apply Qlt_not_le in Hfirst2. contradiction.
  - exfalso. specialize (Hfirst1 _ _ Hgt H2). specialize (Hmax2 _ _ H1).
    apply Qlt_not_le in Hfirst1. contradiction.
Qed.

(** ** [ious.max(0)] *)

Lemma length_column (m : Tensor Q) (rows c : nat) : length (column m rows c) = rows.
Proof. unfold column. rewrite length_fmap, length_seq. reflexivity. Qed.

Lemma lookup_column (m : Tensor Q) (rows c a : nat) :
  (a < rows)%nat -> column m rows c !! a = Some (tgetd m [a; c]).
Proof.
  intros Ha. unfold column. rewrite list_lookup_fmap, lookup_seq_lt by exact Ha.
  reflexivity.
Qed.

Lemma max0_inv (m : Tensor Q) (rows cols : nat) (best : list Q * list Z) :
  shape m = [rows; cols] -> max0 m = Ok best ->
  length (snd best) = cols /\
  forall k, (k < cols)%nat ->
    exists a, snd best !! k = Some (Z.of_nat a) /\ first_max (column m rows k) a.
Proof.
  intros Hsh. unfold max0. rewrite Hsh. intros H. inv_bind H r Hr.
  injection H as <-. cbn [snd].
  apply mapR_Forall2 in Hr. pose proof (Forall2_length Hr) as Hlen.
  rewrite length_seq in Hlen. split; [rewrite length_map; congruence|].
  intros k Hk.
  assert (seq 0 cols !! k = Some k) as Hseq by (apply lookup_seq_lt; exact Hk).
  destruct (Forall2_lookup_l _ _ _ _ _ Hr Hseq) as ([v a] & Hka & Harg).
  exists a. split.
  - change (List.map ?f r) with (f <$> r). rewrite list_lookup_fmap, Hka. reflexivity.
  - apply argmax_spec in Harg as [Hfm _]. exact Hfm.
Qed.

Lemma max0_Ok (m : Tensor Q) (rows cols : nat) :
  shape m = [rows; cols] -> (0 < rows)%nat -> exists best, max0 m = Ok best.
Proof.
  intros Hsh Hrows. unfold max0. rewrite Hsh.
  assert (exists r, mapR (fun c => argmax (column m rows c)) (seq 0 cols) = Ok r)
    as [r ->].
  { induction (seq 0 cols) as [|c l [r IH]]; [exists []; reflexivity|].
    destruct (argmax_Ok (column m rows c)) as (v & a & Hva).
    { intros E. apply (f_equal length) in E. rewrite length_column in E. simpl in E. lia. }
    exists ((v, a) :: r). simpl. rewrite Hva. simpl. rewrite IH. reflexivity. }
  eexists. reflexivity.
Qed.

(** ** The ignore loop *)

Section IgnoreLoop.
Variables (thresh : Q) (ious : Tensor Q) (rows : nat) (b gj gi : list Z).
Variable sh : list nat.

Lemma ignore_step_spec (noobj noobj' : Tensor Z) (i : nat) :
  shape noobj = sh ->
  ignore_step thresh ious rows b gj gi noobj i = Ok noobj' ->
  shape noobj' = sh /\ length (data noobj') = length (data noobj) /\
  forall o, (o < length (data noobj))%nat ->
    (data noobj' !! o = Some 0%Z <->
     data noobj !! o = Some 0%Z \/ ignore_written thresh ious rows b gj gi sh i o).
Proof.
  intros Hsh. unfold ignore_step. intros H.
  inv_bind H bi Hbi. inv_bind H gji Hgji. inv_bind H gii Hgii.
  apply of_option_Ok in Hbi, Hgji, Hgii.
  case_decide as Hlen; [|discriminate].
  apply index_put_inv in H as (offs & vs & Hoffs & Hvs & ->).
  rewrite bexpand_scalar in Hvs. injection Hvs as <-.
  rewrite Hsh, slot_offsets_mid in Hoffs. apply mapR_Forall2 in Hoffs.
  cbn [shape data]. split; [exact Hsh|]. split; [apply length_scatter|].
  intros o Ho.
  set (mask := List.map (fun v => negb (Qle_bool v thresh)) (column ious rows i)) in *.
  assert (Hin : o ∈ offs <-> ignore_written thresh ious rows b gj gi sh i o).
  { split.
    - intros Hin. apply list_elem_of_lookup in Hin as [k Hk].
      destruct (Forall2_lookup_r _ _ _ _ _ Hoffs Hk) as (zs & Hzs & Hz).
      change (List.map ?f ?l) with (f <$> l) in Hzs.
      rewrite list_lookup_fmap in Hzs.
      destruct (nonzero_from 0 mask !! k) as [a|] eqn:Ea; [|discriminate].
      injection Hzs as <-.
      apply list_elem_of_lookup_2 in Ea. apply elem_of_nonzero_from in Ea as (n & -> & Hn).
      unfold mask in Hn. change (List.map ?f ?l) with (f <$> l) in Hn.
      rewrite list_lookup_fmap in Hn.
      destruct (column ious rows i !! n) as [v|] eqn:Ev; [|discriminate].
      assert (n < rows)%nat as Hnr.
      { apply lookup_lt_Some in Ev. rewrite length_column in Ev. exact Ev. }
      rewrite lookup_column in Ev by exact Hnr. injection Ev as <-.
      injection Hn as Hn. apply negb_true_iff, Qle_bool_false in Hn.
      exists n, bi, gji, gii. repeat split; assumption.
    - intros (a & bi' & gji' & gii' & Ha & Hthr & Hbi' & Hgji' & Hgii' & Hz).
      rewrite Hbi in Hbi'. rewrite Hgji in Hgji'. rewrite Hgii in Hgii'.
      injection Hbi' as <-. injection Hgji' as <-. injection Hgii' as <-.
      assert (Z.of_nat a ∈ nonzero_from 0 mask) as Hnz.
      { apply elem_of_nonzero_from. exists a. split; [lia|].
        unfold mask. change (List.map ?f ?l) with (f <$> l).
        rewrite list_lookup_fmap, lookup_column by exact Ha. simpl. f_equal.
        apply negb_true_iff, Qle_bool_false. exact Hthr. }
      apply list_elem_of_lookup in Hnz as [k Hk].
      assert (List.map (fun a => [bi; a; gji; gii]) (nonzero_from 0 mask) !! k
              = Some [bi; Z.of_nat a; gji; gii]) as Hk'.
      { change (List.map ?f ?l) with (f <$> l). rewrite list_lookup_fmap, Hk. reflexivity. }
      destruct (Forall2_lookup_l _ _ _ _ _ Hoffs Hk') as (o' & Ho' & Hz').
      rewrite Hz in Hz'. injection Hz' as <-.
      eapply list_elem_of_lookup_2. exact Ho'. }
  destruct (decide (o ∈ offs)) as [Hino|Hnot].
  - rewrite scatter_const_in by assumption. apply Hin in Hino. tauto.
  - rewrite scatter_lookup_notin by exact Hnot. rewrite <- Hin. tauto.
Qed.

Lemma ignore_loop_spec (m : nat) (noobj noobj' : Tensor Z) :
  shape noobj = sh ->
  foldR (ignore_step thresh ious rows b gj gi) noobj (seq 0 m) = Ok noobj' ->
  shape noobj' = sh /\ length (data noobj') = length (data noobj) /\
  forall o, (o < length (data noobj))%nat ->
    (data noobj' !! o = Some 0%Z <->
     data noobj !! o = Some 0%Z \/
     exists i, (i < m)%nat /\ ignore_written thresh ious rows b gj gi sh i o).
Proof.
  intros Hsh. revert noobj'. induction m as [|m IH]; intros noobj' H.
  - simpl in H. injection H as <-. split; [exact Hsh|]. split; [reflexivity|].
    intros o _. split; [auto|]. intros [H|(i & Hi & _)]; [exact H | lia].
  - rewrite seq_S, foldR_app in H. simpl in H. inv_bind H nm Hnm.
    destruct (IH _ Hnm) as (Hsh1 & Hlen1 & Hiff1).
    inv_bind H nm' Hstep. injection H as <-.
    destruct (ignore_step_spec _ _ _ Hsh1 Hstep) as (Hsh2 & Hlen2 & Hiff2).
    split; [exact Hsh2|]. split; [congruence|].
    intros o Ho. rewrite Hiff2, Hiff1 by lia. split.
    + intros [[H|(i & Hi & Hw)]|Hw]; [auto | right; exists i; split; [lia|exact Hw] |].
      right. exists m. split; [lia | exact Hw].
    + intros [H|(i & Hi & Hw)]; [auto|].
      destruct (decide (i = m)) as [->|Hne]; [auto|].
      left. right. exists i. split; [lia | exact Hw].
Qed.

End IgnoreLoop.

(** ** The steps of [build_targets] *)

Lemma bzip_with_same {A B C} (f : A -> B -> C) (l1 : list A) (l2 : list B) :
  length l1 = length l2 -> bzip_with f l1 l2 = Ok (zip_with f l1 l2).
Proof.
  intros Hlen. unfold bzip_with.
  rewrite (bcast_len_same (length l1)); [|discriminate|repeat constructor; auto].
  cbn. rewrite !bexpand_same by auto. reflexivity.
Qed.

Lemma length_gather_col (t : Tensor Q) (idx : list Z) (c : nat) (l : list Q) :
  gather_col t idx c = Ok l -> length l = length idx.
Proof.
  unfold gather_col. intros H. apply mapR_Forall2 in H.
  symmetry. exact (Forall2_length H).
Qed.

Section BuildTargets.
Context {TM : TorchMath} {RU : RotatedBoxUtils}.
Variables (self : YoloLayer) (out_boxes pred_cls : Tensor Q) (target : list GTBox).
Variables (anchors : Tensor Q) (nB nA nG nG' nC : nat) (geo : Geometry).
Hypothesis Hshape : shape pred_cls = [nB; nA; nG; nG'; nC].
Hypothesis Hgeo : geometry self = Some geo.
Hypothesis Hne : target <> [].
Hypothesis Hcontract : shape (target_ious geo nG target) = [nA; length target].

Let sh : list nat := [nB; nA; nG; nG].
Let zeros : list Q := replicate (numel sh) 0.
Let n : nat := length target.
Let nGq : Q := inject_Z (Z.of_nat nG).

(** The tensors [build_targets] returns, as scatters over the offsets of
    the boxes' slots. *)
Lemma build_targets_inv (r : Targets) :
  build_targets self out_boxes pred_cls target anchors = Ok r ->
  exists best offs offs5 nm aw ah cmv iouv,
    max0 (target_ious geo nG target) = Ok best /\
    length (snd best) = n /\
    slot_offsets sh [batch_indices target; snd best;
                     row_indices nG target; col_indices nG target] = Ok offs /\
    length offs = n /\
    slot_offsets (sh ++ [nC])
      [batch_indices target; snd best; row_indices nG target;
       col_indices nG target; label_indices target] = Ok offs5 /\
    length offs5 = n /\
    foldR (ignore_step (ignore_thresh self) (target_ious geo nG target) nA
             (batch_indices target) (row_indices nG target) (col_indices nG target))
          (mkTensor sh (scatter (replicate (numel sh) 1%Z) offs (replicate n 0%Z)))
          (seq 0 n) = Ok nm /\
    gather_col anchors (snd best) 0 = Ok aw /\
    gather_col anchors (snd best) 1 = Ok ah /\
    length cmv = n /\ length iouv = n /\
    obj_mask r = tmap uint8_to_bool
                   (mkTensor sh (scatter (replicate (numel sh) 0%Z) offs (replicate n 1%Z))) /\
    noobj_mask r = tmap uint8_to_bool nm /\
    tx r = mkTensor sh (scatter zeros offs (List.map (fun t => frac (gt_x t * nGq)) target)) /\
    ty r = mkTensor sh (scatter zeros offs (List.map (fun t => frac (gt_y t * nGq)) target)) /\
    tw r = mkTensor sh (scatter zeros offs
             (zip_with log_ratio (List.map (fun t => gt_w t * nGq) target) aw)) /\
    th r = mkTensor sh (scatter zeros offs
             (zip_with log_ratio (List.map (fun t => gt_h t * nGq) target) ah)) /\
    tim r = mkTensor sh (scatter zeros offs (List.map gt_im target)) /\
    tre r = mkTensor sh (scatter zeros offs (List.map gt_re target)) /\
    tcls r = mkTensor (sh ++ [nC])
               (scatter (replicate (numel (sh ++ [nC])) 0) offs5 (replicate n 1)) /\
    class_mask r = mkTensor sh (scatter zeros offs cmv) /\
    iou_scores r = mkTensor sh (scatter zeros offs iouv) /\
    tconf r = tmap uint8_to_float
                (mkTensor sh (scatter (replicate (numel sh) 0%Z) offs (replicate n 1%Z))).
Proof.
  unfold build_targets. rewrite Hshape. cbv zeta.
  case_decide as Hn; [|destruct target; [congruence | simpl in Hn; lia]].
  rewrite Hgeo. cbn [of_option mbind result_bind].
  intros H. inv_bind H best Hbest.
  destruct (max0_inv _ _ _ _ Hcontract Hbest) as [Hlb _].
  fold (batch_indices target) (label_indices target) in H.
  change (List.map to_long (List.map (fun t => gt_x t * inject_Z (Z.of_nat nG)) target))
    with (col_indices nG target) in H.
  change (List.map to_long (List.map (fun t => gt_y t * inject_Z (Z.of_nat nG)) target))
    with (row_indices nG target) in H.
  rewrite Hcontract in H. cbn [nth] in H. fold n in H, Hlb.
  set (cols := [batch_indices target; snd best; row_indices nG target;
                col_indices nG target]) in *.
  assert (Hcols : Forall (fun c => length c = n) cols).
  { unfold cols, batch_indices, row_indices, col_indices.
    repeat constructor; rewrite ?length_map; auto. }
  assert (Hcols5 : Forall (fun c => length c = n) (cols ++ [label_indices target])).
  { apply Forall_app. split; [exact Hcols|].
    repeat constructor. unfold label_indices. rewrite length_map. reflexivity. }
  (* obj_mask *)
  inv_bind H om Hom. apply index_put_inv in Hom as (offs & vs & Hoffs & Hvs & ->).
  cbn [shape full data] in Hoffs, Hvs |- *. fold sh in Hoffs.
  destruct (slot_offsets_lookup sh n cols offs) as [Hlo _];
    [discriminate | exact Hcols | exact Hoffs |].
  rewrite Hlo, bexpand_scalar in Hvs. injection Hvs as <-.
  (* noobj_mask *)
  inv_bind H nm0 Hnm0. apply index_put_inv in Hnm0 as (offs' & vs & Hoffs' & Hvs & ->).
  cbn [shape full data] in Hoffs', Hvs. fold sh in Hoffs'.
  rewrite Hoffs in Hoffs'. injection Hoffs' as <-.
  rewrite Hlo, bexpand_scalar in Hvs. injection Hvs as <-.
  inv_bind H nm Hnm.
  (* tx, ty *)
  inv_bind H txv Htx. apply index_put_inv in Htx as (offs' & vs & Hoffs' & Hvs & ->).
  cbn [shape full data] in Hoffs', Hvs. fold sh in Hoffs'.
  rewrite Hoffs in Hoffs'. injection Hoffs' as <-.
  rewrite bexpand_same in Hvs by (rewrite !length_map; auto). injection Hvs as <-.
  inv_bind H tyv Hty. apply index_put_inv in Hty as (offs' & vs & Hoffs' & Hvs & ->).
  cbn [shape full data] in Hoffs', Hvs. fold sh in Hoffs'.
  rewrite Hoffs in Hoffs'. injection Hoffs' as <-.
  rewrite bexpand_same in Hvs by (rewrite !length_map; auto). injection Hvs as <-.
  (* tw, th *)
  inv_bind H aw Haw. pose proof (length_gather_col _ _ _ _ Haw) as Hlaw.
  rewrite bzip_with_same in H by (rewrite length_map, Hlaw, Hlb; reflexivity).
  cbn [mbind result_bind] in H.
  inv_bind H twv Htw. apply index_put_inv in Htw as (offs' & vs & Hoffs' & Hvs & ->).
  cbn [shape full data] in Hoffs', Hvs. fold sh in Hoffs'.
  rewrite Hoffs in Hoffs'. injection Hoffs' as <-.
  rewrite bexpand_same in Hvs
    by (rewrite length_zip_with, length_map, Hlaw, Hlb, Hlo; apply Nat.min_id).
  injection Hvs as <-.
  inv_bind H ah Hah. pose proof (length_gather_col _ _ _ _ Hah) as Hlah.
  rewrite bzip_with_same in H by (rewrite length_map, Hlah, Hlb; reflexivity).
  cbn [mbind result_bind] in H.
  inv_bind H thv Hth. apply index_put_inv in Hth as (offs' & vs & Hoffs' & Hvs & ->).
  cbn [shape full data] in Hoffs', Hvs. fold sh in Hoffs'.
  rewrite Hoffs in Hoffs'. injection Hoffs' as <-.
  rewrite bexpand_same in Hvs
    by (rewrite length_zip_with, length_map, Hlah, Hlb, Hlo; apply Nat.min_id).
  injection Hvs as <-.
  (* tim, tre *)
  inv_bind H timv Htim. apply index_put_inv in Htim as (offs' & vs & Hoffs' & Hvs & ->).
  cbn [shape full data] in Hoffs', Hvs. fold sh in Hoffs'.
  rewrite Hoffs in Hoffs'. injection Hoffs' as <-.
  rewrite bexpand_same in Hvs by (rewrite !length_map; auto). injection Hvs as <-.
  inv_bind H trev Htre. apply index_put_inv in Htre as (offs' & vs & Hoffs' & Hvs & ->).
  cbn [shape full data] in Hoffs', Hvs. fold sh in Hoffs'.
  rewrite Hoffs in Hoffs'. injection Hoffs' as <-.
  rewrite bexpand_same in Hvs by (rewrite !length_map; auto). injection Hvs as <-.
  (* tcls *)
  inv_bind H tclsv Htcls. apply index_put_inv in Htcls as (offs5 & vs & Hoffs5 & Hvs & ->).
  cbn [shape full data] in Hoffs5, Hvs.
  change ([nB; nA; nG; nG] ++ [nC]) with (sh ++ [nC]) in Hoffs5.
  destruct (slot_offsets_lookup (sh ++ [nC]) n (cols ++ [label_indices target]) offs5)
    as [Hlo5 _];
    [discriminate | exact Hcols5 | exact Hoffs5 |].
  rewrite Hlo5, bexpand_scalar in Hvs. injection Hvs as <-.
  (* class_mask, iou_scores *)
  inv_bind H rows Hrows. inv_bind H am Ham. inv_bind H cm Hcm.
  inv_bind H cmt Hcmt. apply index_put_inv in Hcmt as (offs' & cmv & Hoffs' & Hcmv & ->).
  cbn [shape full data] in Hoffs', Hcmv. fold sh in Hoffs'.
  rewrite Hoffs in Hoffs'. injection Hoffs' as <-.
  apply bexpand_length in Hcmv. rewrite Hlo in Hcmv.
  inv_bind H boxes Hboxes.
  inv_bind H iout Hiou. apply index_put_inv in Hiou as (offs' & iouv & Hoffs' & Hiouv & ->).
  cbn [shape full data] in Hoffs', Hiouv. fold sh in Hoffs'.
  rewrite Hoffs in Hoffs'. injection Hoffs' as <-.
  apply bexpand_length in Hiouv. rewrite Hlo in Hiouv.
  injection H as <-.
  exists best, offs, offs5, nm, aw, ah, cmv, iouv.
  cbn [obj_mask noobj_mask tx ty tw th tim tre tcls class_mask iou_scores tconf].
  rewrite !List.map_map.
  repeat (split; [first [assumption | reflexivity]|]). reflexivity.
Qed.

End BuildTargets.

(** ** The slots of the boxes *)

Lemma nth_map_lookup {A B} (f : A -> B) (l : list A) (k : nat) (x : A) (d : B) :
  l !! k = Some x -> nth k (List.map f l) d = f x.
Proof.
  intros H. apply nth_lookup_Some with (d := d).
  change (List.map f l) with (f <$> l). rewrite list_lookup_fmap, H. reflexivity.
Qed.

Lemma norm_indices_snoc4 (d0 d1 d2 d3 d4 : nat) (z0 z1 z2 z3 z4 : Z) (idx5 : list nat) :
  norm_indices [d0; d1; d2; d3; d4] [z0; z1; z2; z3; z4] = Some idx5 <->
  exists idx c, norm_indices [d0; d1; d2; d3] [z0; z1; z2; z3] = Some idx /\
    norm_index d4 z4 = Some c /\ idx5 = idx ++ [c].
Proof.
  simpl.
  destruct (norm_index d0 z0), (norm_index d1 z1), (norm_index d2 z2),
    (norm_index d3 z3), (norm_index d4 z4); simpl; split;
    try discriminate; try (intros (? & ? & ? & ? & ?); discriminate).
  - intros [= <-]. eexists _, _. repeat split; reflexivity.
  - intros (idx & c & [= <-] & [= <-] & ->). reflexivity.
Qed.

Section Slots.
Variables (target : list GTBox) (best_n : list Z) (nG nC : nat) (sh : list nat).

Let n : nat := length target.
Let cols : list (list Z) :=
  [batch_indices target; best_n; row_indices nG target; col_indices nG target].

Hypothesis Hlb : length best_n = n.

Lemma cols_length : Forall (fun c => length c = n) cols.
Proof.
  unfold cols, batch_indices, row_indices, col_indices.
  repeat constructor; rewrite ?length_map; auto.
Qed.

Lemma cols5_length : Forall (fun c => length c = n) (cols ++ [label_indices target]).
Proof.
  apply Forall_app. split; [exact cols_length|].
  repeat constructor. unfold label_indices. rewrite length_map. reflexivity.
Qed.

Lemma tuple_box (k : nat) (t : GTBox) (a : Z) :
  target !! k = Some t -> best_n !! k = Some a ->
  (fun c => nth k c 0%Z) <$> cols = box_index nG t a.
Proof.
  intros Ht Ha. unfold cols, box_index, batch_indices, row_indices, col_indices.
  cbn [fmap list_fmap]. rewrite !List.map_map.
  rewrite !(nth_map_lookup _ _ _ _ _ Ht), (nth_lookup_Some _ _ _ _ Ha). reflexivity.
Qed.

Lemma tuple5_box (k : nat) (t : GTBox) (a : Z) :
  target !! k = Some t -> best_n !! k = Some a ->
  (fun c => nth k c 0%Z) <$> (cols ++ [label_indices target])
  = box_index nG t a ++ [to_long (gt_class t)].
Proof.
  intros Ht Ha. rewrite fmap_app, (tuple_box k t a Ht Ha).
  unfold label_indices. cbn [fmap list_fmap].
  rewrite (nth_map_lookup _ _ _ _ _ Ht). reflexivity.
Qed.

(** The offset written for box [k] is the offset of its normalised index. *)
Lemma box_offset (offs : list nat) (k : nat) (t : GTBox) (a : Z) :
  slot_offsets sh cols = Ok offs ->
  target !! k = Some t -> best_n !! k = Some a ->
  exists o idx, offs !! k = Some o /\
    norm_indices sh (box_index nG t a) = Some idx /\ offset sh idx = Some o.
Proof.
  intros Hoffs Ht Ha.
  destruct (slot_offsets_lookup sh n cols offs) as [_ Hk];
    [discriminate | exact cols_length | exact Hoffs |].
  destruct (Hk k) as (o & Ho & Hz).
  { apply lookup_lt_Some in Ht. exact Ht. }
  rewrite (tuple_box k t a Ht Ha) in Hz. apply zoffset_Ok in Hz as (idx & Hidx & Hoff).
  exists o, idx. auto.
Qed.

Lemma box_offset5 (offs5 : list nat) (k : nat) (t : GTBox) (a : Z) :
  slot_offsets (sh ++ [nC]) (cols ++ [label_indices target]) = Ok offs5 ->
  target !! k = Some t -> best_n !! k = Some a ->
  exists o5 idx5, offs5 !! k = Some o5 /\
    norm_indices (sh ++ [nC]) (box_index nG t a ++ [to_long (gt_class t)]) = Some idx5 /\
    offset (sh ++ [nC]) idx5 = Some o5.
Proof.
  intros Hoffs Ht Ha.
  destruct (slot_offsets_lookup (sh ++ [nC]) n (cols ++ [label_indices target]) offs5)
    as [_ Hk]; [discriminate | exact cols5_length | exact Hoffs |].
  destruct (Hk k) as (o & Ho & Hz).
  { apply lookup_lt_Some in Ht. exact Ht. }
  rewrite (tuple5_box k t a Ht Ha) in Hz. apply zoffset_Ok in Hz as (idx & Hidx & Hoff).
  exists o, idx. auto.
Qed.

(** Every written offset is the offset of some box. *)
Lemma offset_box (offs : list nat) (k o : nat) :
  slot_offsets sh cols = Ok offs -> offs !! k = Some o ->
  exists t a, target !! k = Some t /\ best_n !! k = Some a.
Proof.
  intros Hoffs Ho.
  destruct (slot_offsets_lookup sh n cols offs) as [Hlo _];
    [discriminate | exact cols_length | exact Hoffs |].
  apply lookup_lt_Some in Ho. rewrite Hlo in Ho.
  destruct (lookup_lt_is_Some_2 target k Ho) as [t Ht].
  destruct (lookup_lt_is_Some_2 best_n k) as [a Ha]; [rewrite Hlb; exact Ho|].
  eauto.
Qed.

End Slots.

(** ** [build_targets] returns *)

Lemma mapR_Ok_exists {A B} (f : A -> result B) (l : list A) :
  (forall x, x ∈ l -> exists y, f x = Ok y) -> exists r, mapR f l = Ok r.
Proof.
  induction l as [|a l IH]; intros H; [exists []; reflexivity|].
  destruct (H a) as [b Hb]; [left|].
  destruct IH as [bs Hbs]; [intros x Hx; apply H; right; exact Hx|].
  exists (b :: bs). simpl. rewrite Hb. cbn. rewrite Hbs. reflexivity.
Qed.

Lemma slot_offsets_ok (sh : list nat) (n : nat) (cols : list (list Z)) :
  cols <> [] -> Forall (fun c => length c = n) cols ->
  (forall k, (k < n)%nat ->
     exists o, zoffset sh ((fun c => nth k c 0%Z) <$> cols) = Ok o) ->
  exists offs, slot_offsets sh cols = Ok offs /\ length offs = n.
Proof.
  intros Hne Hall Hk. rewrite (slot_offsets_same sh n cols Hne Hall).
  destruct (mapR_Ok_exists (zoffset sh) (ztuples n cols)) as [offs Hoffs].
  - intros zs Hin. apply list_elem_of_lookup in Hin as [k Hzs].
    assert (k < n)%nat as Hlt.
    { apply lookup_lt_Some in Hzs. rewrite length_ztuples in Hzs by exact Hall. exact Hzs. }
    rewrite (lookup_ztuples n k cols Hall Hlt) in Hzs. injection Hzs as <-.
    apply Hk. exact Hlt.
  - exists offs. split; [exact Hoffs|].
    apply mapR_Forall2 in Hoffs. rewrite <- (Forall2_length Hoffs).
    apply length_ztuples. exact Hall.
Qed.

(** Truncation of a non-negative float is its floor. *)
Lemma to_long_nonneg (q : Q) : 0 <= q -> to_long q = Qfloor q.
Proof.
  intros Hq. unfold to_long. destruct q as [num den]. simpl.
  apply Z.quot_div_nonneg; [|lia].
  unfold Qle in Hq. simpl in Hq. lia.
Qed.

(** A centre coordinate in [0, 1) lands in a cell of the grid. *)
Lemma cell_in_grid (x : Q) (nG : nat) :
  (0 < nG)%nat -> 0 <= x -> x < 1 ->
  (0 <= to_long (x * inject_Z (Z.of_nat nG)) < Z.of_nat nG)%Z.
Proof.
  intros HnG0 H0 H1.
  assert (0 < inject_Z (Z.of_nat nG)) as Hpos.
  { change 0 with (inject_Z 0). rewrite <- Zlt_Qlt. lia. }
  assert (0 <= x * inject_Z (Z.of_nat nG)) as Hq.
  { apply Qmult_le_0_compat; [exact H0 | apply Qlt_le_weak; exact Hpos]. }
  rewrite (to_long_nonneg _ Hq). split.
  - change 0%Z with (Qfloor (inject_Z 0)). apply Qfloor_resp_le. exact Hq.
  - rewrite Zlt_Qlt. eapply Qle_lt_trans; [apply Qfloor_le|].
    assert (x * inject_Z (Z.of_nat nG) < 1 * inject_Z (Z.of_nat nG)) as Hlt
      by (apply Qmult_lt_compat_r; assumption).
    lra.
Qed.

Lemma norm_indices4_nonneg (d0 d1 d2 d3 : nat) (z0 z1 z2 z3 : Z) :
  (0 <= z0 < Z.of_nat d0)%Z -> (0 <= z1 < Z.of_nat d1)%Z ->
  (0 <= z2 < Z.of_nat d2)%Z -> (0 <= z3 < Z.of_nat d3)%Z ->
  norm_indices [d0; d1; d2; d3] [z0; z1; z2; z3]
  = Some [Z.to_nat z0; Z.to_nat z1; Z.to_nat z2; Z.to_nat z3].
Proof.
  intros H0 H1 H2 H3. simpl.
  rewrite !norm_index_nonneg by assumption. reflexivity.
Qed.

Lemma zoffset4_ok (d0 d1 d2 d3 : nat) (z0 z1 z2 z3 : Z) :
  (0 <= z0 < Z.of_nat d0)%Z -> (0 <= z1 < Z.of_nat d1)%Z ->
  (0 <= z2 < Z.of_nat d2)%Z -> (0 <= z3 < Z.of_nat d3)%Z ->
  exists o, zoffset [d0; d1; d2; d3] [z0; z1; z2; z3] = Ok o.
Proof.
  intros H0 H1 H2 H3.
  pose proof (norm_indices4_nonneg _ _ _ _ _ _ _ _ H0 H1 H2 H3) as Hn.
  destruct (norm_indices_offset _ _ _ Hn) as [o Ho].
  exists o. apply zoffset_Ok. eauto.
Qed.

Lemma zoffset5_ok (d0 d1 d2 d3 d4 : nat) (z0 z1 z2 z3 z4 : Z) :
  (0 <= z0 < Z.of_nat d0)%Z -> (0 <= z1 < Z.of_nat d1)%Z ->
  (0 <= z2 < Z.of_nat d2)%Z -> (0 <= z3 < Z.of_nat d3)%Z ->
  (0 <= z4 < Z.of_nat d4)%Z ->
  exists o, zoffset [d0; d1; d2; d3; d4] [z0; z1; z2; z3; z4] = Ok o.
Proof.
  intros H0 H1 H2 H3 H4.
  assert (norm_indices [d0; d1; d2; d3; d4] [z0; z1; z2; z3; z4]
          = Some [Z.to_nat z0; Z.to_nat z1; Z.to_nat z2; Z.to_nat z3; Z.to_nat z4]) as Hn.
  { simpl. rewrite !norm_index_nonneg by assumption. reflexivity. }
  destruct (norm_indices_offset _ _ _ Hn) as [o Ho].
  exists o. apply zoffset_Ok. eauto.
Qed.

Section IgnoreLoopOk.
Variables (thresh : Q) (ious : Tensor Q) (rows : nat) (b gj gi : list Z).
Variable sh : list nat.
Hypothesis Hrows : nth 1 sh 0%nat = rows.

Lemma ignore_step_ok (noobj : Tensor Z) (i : nat) :
  shape noobj = sh -> box_slots_ok rows b gj gi sh i ->
  exists noobj', ignore_step thresh ious rows b gj gi noobj i = Ok noobj'.
Proof.
  intros Hsh (bi & gji & gii & Hbi & Hgji & Hgii & Hslots).
  unfold ignore_step. rewrite Hbi, Hgji, Hgii. cbn [of_option mbind result_bind].
  rewrite length_map, length_column, Hsh, Hrows.
  case_decide; [|contradiction].
  unfold index_put. rewrite Hsh, slot_offsets_mid.
  set (mask := List.map (fun v => negb (Qle_bool v thresh)) (column ious rows i)).
  destruct (mapR_Ok_exists (zoffset sh)
              (List.map (fun a => [bi; a; gji; gii]) (nonzero_from 0 mask)))
    as [offs Hoffs].
  - intros zs Hin. apply list_elem_of_In, in_map_iff in Hin as (a & <- & Ha).
    apply list_elem_of_In, elem_of_nonzero_from in Ha as (k & -> & Hk).
    apply Hslots. apply lookup_lt_Some in Hk. unfold mask in Hk.
    rewrite length_map, length_column in Hk. exact Hk.
  - rewrite Hoffs. cbn [mbind result_bind]. rewrite bexpand_scalar. eexists. reflexivity.
Qed.

Lemma ignore_loop_ok (m : nat) (noobj : Tensor Z) :
  shape noobj = sh -> (forall i, (i < m)%nat -> box_slots_ok rows b gj gi sh i) ->
  exists nm, foldR (ignore_step thresh ious rows b gj gi) noobj (seq 0 m) = Ok nm.
Proof.
  intros Hsh. induction m as [|m IH]; intros Hok; [exists noobj; reflexivity|].
  destruct IH as [nm Hnm]; [intros i Hi; apply Hok; lia|].
  destruct (ignore_loop_spec thresh ious rows b gj gi sh m noobj nm Hsh Hnm) as (Hsh' & _).
  destruct (ignore_step_ok nm m Hsh' (Hok m ltac:(lia))) as [nm' Hnm'].
  exists nm'. rewrite seq_S, foldR_app, Hnm. simpl. rewrite Hnm'. reflexivity.
Qed.

End IgnoreLoopOk.

Lemma gather_col_ok (t : Tensor Q) (rows w c : nat) (idx : list Z) :
  shape t = [rows; w] -> wf_tensor t -> (c < w)%nat ->
  Forall (fun z => (0 <= z < Z.of_nat rows)%Z) idx ->
  exists l, gather_col t idx c = Ok l.
Proof.
  intros Hsh Hwf Hc Hall. unfold gather_col. apply mapR_Ok_exists.
  intros z Hz. rewrite list.Forall_forall in Hall. specialize (Hall z Hz).
  rewrite Hsh. cbn [hd]. rewrite norm_index_nonneg by exact Hall. cbn [mbind option_bind].
  destruct (tget_wf_is_Some t [Z.to_nat z; c] (Z.to_nat z * w + c) Hwf) as [v Hv].
  { rewrite Hsh. apply offset2; lia. }
  exists v. rewrite Hv. reflexivity.
Qed.

Lemma numel_snoc (sh : list nat) (d : nat) : numel (sh ++ [d]) = (numel sh * d)%nat.
Proof. induction sh as [|d0 sh IH]; simpl; [lia|]. rewrite IH. lia. Qed.

Lemma row_nonempty (d : list Q) (N w o : nat) :
  length d = (N * w)%nat -> (o < N)%nat -> (0 < w)%nat ->
  take w (drop (o * w) d) <> [].
Proof.
  intros Hlen Ho Hw E. apply (f_equal length) in E.
  rewrite length_take, length_drop, Hlen in E. simpl in E. nia.
Qed.

Section BuildTargetsOk.
Context {TM : TorchMath} {RU : RotatedBoxUtils}.
Variables (self : YoloLayer) (out_boxes pred_cls : Tensor Q) (target : list GTBox).
Variables (anchors : Tensor Q) (nB nA nG nC : nat) (geo : Geometry).
Hypothesis Hshape : shape pred_cls = [nB; nA; nG; nG; nC].
Hypothesis Hwf : wf_tensor pred_cls.
Hypothesis Hshape_ob : shape out_boxes = [nB; nA; nG; nG; 6%nat].
Hypothesis Hgeo : geometry self = Some geo.
Hypothesis Hne : target <> [].
Hypothesis Hcontract : shape (target_ious geo nG target) = [nA; length target].
Hypothesis Hiou : forall boxes, length boxes = length target ->
  length (iou_pred_vs_target_boxes boxes (List.map target_box target) nG) = length target.
Hypothesis HnA : (0 < nA)%nat.
Hypothesis HnG : (0 < nG)%nat.
Hypothesis Hanchors : shape anchors = [nA; 4%nat].
Hypothesis Hanchors_wf : wf_tensor anchors.
Hypothesis Hrange : Forall (box_in_range nB nC) target.

Let ious : Tensor Q := target_ious geo nG target.
Let sh : list nat := [nB; nA; nG; nG].
Let n : nat := length target.

(** [build_targets] returns when every box has a slot. *)
Lemma build_targets_ok :
  exists r, build_targets self out_boxes pred_cls target anchors = Ok r.
Proof.
  destruct (max0_Ok _ _ _ Hcontract HnA) as [best Hbest].
  destruct (max0_inv _ _ _ _ Hcontract Hbest) as [Hlb Hbk].
  assert (Hbest_range : Forall (fun z => (0 <= z < Z.of_nat nA)%Z) (snd best)).
  { apply Forall_lookup. intros k z Hz.
    destruct (Hbk k) as (a & Ha & Hfm).
    { apply lookup_lt_Some in Hz. rewrite Hlb in Hz. exact Hz. }
    rewrite Hz in Ha. injection Ha as ->.
    apply first_max_lt in Hfm. rewrite length_column in Hfm. lia. }
  set (cols := [batch_indices target; snd best; row_indices nG target;
                col_indices nG target]).
  pose proof (cols_length target (snd best) nG Hlb) as Hcols.
  pose proof (cols5_length target (snd best) nG Hlb) as Hcols5.
  assert (Hbox : forall k, (k < n)%nat -> exists t az,
            target !! k = Some t /\ snd best !! k = Some az /\
            box_in_range nB nC t /\ (0 <= az < Z.of_nat nA)%Z).
  { intros k Hk. destruct (lookup_lt_is_Some_2 target k Hk) as [t Ht].
    destruct (lookup_lt_is_Some_2 (snd best) k) as [az Haz]; [rewrite Hlb; exact Hk|].
    exists t, az. split; [exact Ht|]. split; [exact Haz|]. split.
    - apply (proj1 (list.Forall_forall _ _) Hrange).
      eapply list_elem_of_lookup_2. exact Ht.
    - apply (proj1 (list.Forall_forall _ _) Hbest_range).
      eapply list_elem_of_lookup_2. exact Haz. }
  destruct (slot_offsets_ok sh n cols) as (offs & Hoffs & Hlo);
    [discriminate | exact Hcols | |].
  { intros k Hk. destruct (Hbox k Hk) as (t & az & Ht & Haz & Hr & Hazr).
    unfold cols. rewrite (tuple_box target (snd best) nG k t az Ht Haz).
    destruct Hr as (Hx0 & Hx1 & Hy0 & Hy1 & Hb & _).
    apply zoffset4_ok; try assumption; apply cell_in_grid; assumption. }
  destruct (slot_offsets_ok (sh ++ [nC]) n (cols ++ [label_indices target]))
    as (offs5 & Hoffs5 & Hlo5); [discriminate | exact Hcols5 | |].
  { intros k Hk. destruct (Hbox k Hk) as (t & az & Ht & Haz & Hr & Hazr).
    unfold cols. rewrite (tuple5_box target (snd best) nG k t az Ht Haz).
    destruct Hr as (Hx0 & Hx1 & Hy0 & Hy1 & Hb & Hc).
    apply zoffset5_ok; try assumption; apply cell_in_grid; assumption. }
  assert (Hloop : exists nm,
            foldR (ignore_step (ignore_thresh self) ious nA (batch_indices target)
                     (row_indices nG target) (col_indices nG target))
                  (mkTensor sh (scatter (replicate (numel sh) 1%Z) offs (replicate n 0%Z)))
                  (seq 0 n) = Ok nm).
  { apply (ignore_loop_ok _ _ _ _ _ _ sh); [reflexivity | reflexivity |].
    intros i Hi. destruct (Hbox i Hi) as (t & az & Ht & Haz & Hr & Hazr).
    destruct Hr as (Hx0 & Hx1 & Hy0 & Hy1 & Hb & _).
    exists (to_long (gt_batch t)), (to_long (gt_y t * inject_Z (Z.of_nat nG))),
      (to_long (gt_x t * inject_Z (Z.of_nat nG))).
    unfold batch_indices, row_indices, col_indices. rewrite !List.map_map.
    change (List.map ?f ?l) with (f <$> l). rewrite !list_lookup_fmap, Ht.
    split; [reflexivity|]. split; [reflexivity|]. split; [reflexivity|].
    intros a Ha. apply zoffset4_ok; try assumption; try lia; apply cell_in_grid; assumption. }
  destruct Hloop as [nm Hnm].
  destruct (gather_col_ok anchors nA 4 0 (snd best) Hanchors Hanchors_wf ltac:(lia)
              Hbest_range) as [aw Haw].
  destruct (gather_col_ok anchors nA 4 1 (snd best) Hanchors Hanchors_wf ltac:(lia)
              Hbest_range) as [ah Hah].
  pose proof (length_gather_col _ _ _ _ Haw) as Hlaw.
  pose proof (length_gather_col _ _ _ _ Hah) as Hlah.
  assert (HnC : (0 < nC)%nat).
  { destruct target as [|t0 tl]; [congruence|].
    apply Forall_cons_1 in Hrange as [(_ & _ & _ & _ & _ & Hc) _]. lia. }
  assert (Hoffs_lt : Forall (fun o => (o < numel sh)%nat) offs).
  { apply Forall_lookup. intros k o Ho.
    destruct (slot_offsets_lookup sh n cols offs) as [_ Hk];
      [discriminate | exact Hcols | exact Hoffs |].
    destruct (Hk k) as (o' & Ho' & Hz).
    { apply lookup_lt_Some in Ho. rewrite Hlo in Ho. exact Ho. }
    rewrite Ho in Ho'. injection Ho' as <-.
    apply zoffset_Ok in Hz as (idx & _ & Hoff). eapply offset_lt. exact Hoff. }
  assert (Ham : exists am,
            mapR argmax (List.map (fun o => take nC (drop (o * nC)%nat (data pred_cls))) offs)
            = Ok am /\ length am = n).
  { destruct (mapR_Ok_exists argmax
                (List.map (fun o => take nC (drop (o * nC)%nat (data pred_cls))) offs))
      as [am Ham].
    - intros row Hin. apply list_elem_of_In, in_map_iff in Hin as (o & <- & Ho).
      apply list_elem_of_In in Ho. rewrite list.Forall_forall in Hoffs_lt.
      specialize (Hoffs_lt o Ho).
      destruct (argmax_Ok (take nC (drop (o * nC) (data pred_cls)))) as (v & a & Hva).
      + apply (row_nonempty _ (numel sh)); try assumption.
        rewrite Hwf, Hshape. change [nB; nA; nG; nG; nC] with (sh ++ [nC]).
        apply numel_snoc.
      + exists (v, a). exact Hva.
    - exists am. split; [exact Ham|]. apply mapR_Forall2 in Ham.
      rewrite <- (Forall2_length Ham), length_map. exact Hlo. }
  destruct Ham as (am & Ham & Hlam).
  subst ious sh n.
  unfold build_targets. rewrite Hshape. cbv zeta.
  case_decide as Hn; [|destruct target; [congruence | simpl in Hn; lia]].
  rewrite Hgeo. cbn [of_option mbind result_bind].
  rewrite Hbest. cbn [mbind result_bind].
  fold (batch_indices target) (label_indices target).
  change (List.map to_long (List.map (fun t => gt_x t * inject_Z (Z.of_nat nG)) target))
    with (col_indices nG target).
  change (List.map to_long (List.map (fun t => gt_y t * inject_Z (Z.of_nat nG)) target))
    with (row_indices nG target).
  fold cols. rewrite Hcontract. cbn [nth].
  rewrite (index_put_Ok (full [nB; nA; nG; nG] 0%Z) cols [1%Z]
             (replicate (length target) 1%Z) offs Hoffs)
    by (rewrite Hlo; apply bexpand_scalar).
  cbn [mbind result_bind].
  rewrite (index_put_Ok (full [nB; nA; nG; nG] 1%Z) cols [0%Z]
             (replicate (length target) 0%Z) offs Hoffs)
    by (rewrite Hlo; apply bexpand_scalar).
  cbn [mbind result_bind shape data full].
  rewrite Hnm. cbn [mbind result_bind].
  do 2 (erewrite (index_put_Ok (full [nB; nA; nG; nG] 0) cols _ _ offs Hoffs)
          by (rewrite Hlo; apply bexpand_same; rewrite !length_map; reflexivity);
        cbn [mbind result_bind]).
  rewrite Haw. cbn [mbind result_bind].
  rewrite bzip_with_same by (rewrite length_map, Hlaw, Hlb; reflexivity).
  cbn [mbind result_bind].
  erewrite (index_put_Ok (full [nB; nA; nG; nG] 0) cols _ _ offs Hoffs)
    by (rewrite Hlo; apply bexpand_same;
        rewrite length_zip_with, length_map, Hlaw, Hlb; apply Nat.min_id).
  cbn [mbind result_bind].
  rewrite Hah. cbn [mbind result_bind].
  rewrite bzip_with_same by (rewrite length_map, Hlah, Hlb; reflexivity).
  cbn [mbind result_bind].
  erewrite (index_put_Ok (full [nB; nA; nG; nG] 0) cols _ _ offs Hoffs)
    by (rewrite Hlo; apply bexpand_same;
        rewrite length_zip_with, length_map, Hlah, Hlb; apply Nat.min_id).
  cbn [mbind result_bind].
  do 2 (erewrite (index_put_Ok (full [nB; nA; nG; nG] 0) cols _ _ offs Hoffs)
          by (rewrite Hlo; apply bexpand_same; rewrite !length_map; reflexivity);
        cbn [mbind result_bind]).
  rewrite (index_put_Ok (full ([nB; nA; nG; nG] ++ [nC]) 0) (cols ++ [label_indices target])
             [1] (replicate (length target) 1) offs5 Hoffs5)
    by (rewrite Hlo5; apply bexpand_scalar).
  cbn [mbind result_bind].
  unfold gather_rows. rewrite Hshape, Hshape_ob.
  cbn [removelast last_index List.last]. rewrite Hoffs.
  cbn [mbind result_bind]. rewrite Ham. cbn [mbind result_bind].
  rewrite bzip_with_same
    by (unfold label_indices; rewrite length_map; exact Hlam).
  cbn [mbind result_bind].
  do 2 (erewrite (index_put_Ok (full [nB; nA; nG; nG] 0) cols _ _ offs Hoffs)
          by (rewrite Hlo; apply bexpand_same;
              first [ apply Hiou; rewrite length_map; exact Hlo
                    | unfold label_indices;
                      rewrite length_zip_with, length_map, Hlam; apply Nat.min_id ]);
        cbn [mbind result_bind]).
  eexists. reflexivity.
Qed.

End BuildTargetsOk.

(** ** The target assignment, for a [build_targets] that returned *)

Lemma tget_scatter {A} (sh : list nat) (d : list A) (offs : list nat) (vals : list A)
    (idx : list nat) (o : nat) :
  offset sh idx = Some o ->
  tget (mkTensor sh (scatter d offs vals)) idx = scatter d offs vals !! o.
Proof. intros Ho. unfold tget. cbn [shape data]. rewrite Ho. reflexivity. Qed.

Lemma uint8_to_bool_false (z : Z) : uint8_to_bool z = false <-> z = 0%Z.
Proof.
  unfold uint8_to_bool. rewrite negb_false_iff. apply Z.eqb_eq.
Qed.

Section TargetFacts.
Context {TM : TorchMath} {RU : RotatedBoxUtils}.
Variables (self : YoloLayer) (out_boxes pred_cls : Tensor Q) (target : list GTBox).
Variables (anchors : Tensor Q) (nB nA nG nC : nat) (geo : Geometry).
Hypothesis Hshape : shape pred_cls = [nB; nA; nG; nG; nC].
Hypothesis Hgeo : geometry self = Some geo.
Hypothesis Hne : target <> [].
Hypothesis Hcontract : shape (target_ious geo nG target) = [nA; length target].

Let ious : Tensor Q := target_ious geo nG target.
Let sh : list nat := [nB; nA; nG; nG].
Let n : nat := length target.

(** The best anchors that [ious.max(0)] returns are the first maxima of
    the columns. *)
Lemma best_anchor_iff (best : list Q * list Z) (k : nat) (t : GTBox) (a : nat) :
  max0 ious = Ok best ->
  best_anchor ious target k t a <->
  target !! k = Some t /\ snd best !! k = Some (Z.of_nat a).
Proof.
  intros Hbest. unfold best_anchor. fold ious in Hcontract. rewrite Hcontract. cbn [nth].
  destruct (max0_inv _ _ _ _ Hcontract Hbest) as [_ Hk].
  split; intros [Ht Ha]; (split; [exact Ht|]).
  - destruct (Hk k) as (a' & Ha' & Hfm); [eapply lookup_lt_Some; exact Ht|].
    rewrite (first_max_unique _ _ _ Ha Hfm). exact Ha'.
  - destruct (Hk k) as (a' & Ha' & Hfm); [eapply lookup_lt_Some; exact Ht|].
    rewrite Ha in Ha'. injection Ha' as Ha'. apply Nat2Z.inj in Ha'. subst a'. exact Hfm.
Qed.

Lemma best_anchor_exists (best : list Q * list Z) (k : nat) (t : GTBox) :
  max0 ious = Ok best -> target !! k = Some t ->
  exists a, best_anchor ious target k t a.
Proof.
  intros Hbest Ht.
  destruct (max0_inv _ _ _ _ Hcontract Hbest) as [_ Hk].
  destruct (Hk k) as (a & Ha & _); [eapply lookup_lt_Some; exact Ht|].
  exists a. apply (best_anchor_iff best); auto.
Qed.

Lemma best_anchor_lt (k : nat) (t : GTBox) (a : nat) :
  best_anchor ious target k t a -> (a < nA)%nat.
Proof.
  intros [_ Hfm]. apply first_max_lt in Hfm. fold ious in Hcontract.
  rewrite Hcontract, length_column in Hfm. exact Hfm.
Qed.

(** An offset is written exactly if it is the slot of some box. *)
Lemma written_iff_assigned (best : list Q * list Z) (offs : list nat)
    (idx : list nat) (o : nat) :
  max0 ious = Ok best -> length (snd best) = n ->
  slot_offsets sh [batch_indices target; snd best; row_indices nG target;
                   col_indices nG target] = Ok offs ->
  offset sh idx = Some o ->
  o ∈ offs <-> assigned_slot sh nG ious target idx.
Proof.
  intros Hbest Hlb Hoffs Ho. split.
  - intros Hin. apply list_elem_of_lookup in Hin as [k Hk].
    destruct (offset_box target (snd best) nG sh Hlb offs k o Hoffs Hk) as (t & az & Ht & Haz).
    destruct (best_anchor_exists best k t Hbest Ht) as (a & Hba).
    pose proof (proj1 (best_anchor_iff best k t a Hbest) Hba) as [_ Ha].
    destruct (box_offset target (snd best) nG sh Hlb offs k t _ Hoffs Ht Ha)
      as (o' & idx' & Ho' & Hidx' & Hoff').
    rewrite Hk in Ho'. injection Ho' as <-.
    rewrite (offset_inj _ _ _ _ Ho Hoff'). exists k, t, a. auto.
  - intros (k & t & a & Hba & Hidx).
    pose proof (proj1 (best_anchor_iff best k t a Hbest) Hba) as [Ht Ha].
    destruct (box_offset target (snd best) nG sh Hlb offs k t _ Hoffs Ht Ha)
      as (o' & idx' & Ho' & Hidx' & Hoff').
    rewrite Hidx in Hidx'. injection Hidx' as <-.
    rewrite Ho in Hoff'. injection Hoff' as <-.
    eapply list_elem_of_lookup_2. exact Ho'.
Qed.

(** The object mask before the cast to [bool]: 1 on the written offsets,
    0 elsewhere. *)
Lemma obj_uint8_lookup (offs : list nat) (o : nat) :
  length offs = n -> (o < numel sh)%nat ->
  scatter (replicate (numel sh) 0%Z) offs (replicate n 1%Z) !! o
  = Some (if decide (o ∈ offs) then 1%Z else 0%Z).
Proof.
  intros Hlo Ho. case_decide as Hin.
  - rewrite <- Hlo. apply scatter_const_in; [rewrite length_replicate; exact Ho | exact Hin].
  - rewrite scatter_lookup_notin by exact Hin. apply lookup_replicate_2. exact Ho.
Qed.

Lemma noobj_uint8_lookup (offs : list nat) (o : nat) :
  length offs = n -> (o < numel sh)%nat ->
  scatter (replicate (numel sh) 1%Z) offs (replicate n 0%Z) !! o
  = Some (if decide (o ∈ offs) then 0%Z else 1%Z).
Proof.
  intros Hlo Ho. case_decide as Hin.
  - rewrite <- Hlo. apply scatter_const_in; [rewrite length_replicate; exact Ho | exact Hin].
  - rewrite scatter_lookup_notin by exact Hin. apply lookup_replicate_2. exact Ho.
Qed.

End TargetFacts.

Section TargetMasks.
Context {TM : TorchMath} {RU : RotatedBoxUtils}.
Variables (self : YoloLayer) (out_boxes pred_cls : Tensor Q) (target : list GTBox).
Variables (anchors : Tensor Q) (nB nA nG nC : nat) (geo : Geometry) (r : Targets).
Hypothesis Hshape : shape pred_cls = [nB; nA; nG; nG; nC].
Hypothesis Hgeo : geometry self = Some geo.
Hypothesis Hne : target <> [].
Hypothesis Hcontract : shape (target_ious geo nG target) = [nA; length target].
Hypothesis Hbt : build_targets self out_boxes pred_cls target anchors = Ok r.

Let ious : Tensor Q := target_ious geo nG target.
Let sh : list nat := [nB; nA; nG; nG].
Let n : nat := length target.
Let nGq : Q := inject_Z (Z.of_nat nG).

(** Every box is assigned the first anchor of maximal IoU in its column,
    and the object mask holds at its slot. *)
Lemma box_assignment (k : nat) (t : GTBox) :
  target !! k = Some t ->
  exists a idx,
    best_anchor ious target k t a /\
    norm_indices sh (box_index nG t (Z.of_nat a)) = Some idx /\
    tget (obj_mask r) idx = Some true.
Proof.
  intros Ht.
  destruct (build_targets_inv self out_boxes pred_cls target anchors nB nA nG nG nC geo
              Hshape Hgeo Hne Hcontract r Hbt)
    as (best & offs & offs5 & nm & aw & ah & cmv & iouv & Hbest & Hlb & Hoffs & Hlo
        & _ & _ & _ & _ & _ & _ & _ & Hobj & _).
  destruct (best_anchor_exists target nA nG geo Hcontract best k t Hbest Ht) as (a & Hba).
  pose proof (proj1 (best_anchor_iff target nA nG geo Hcontract best k t a Hbest) Hba)
    as [_ Ha].
  destruct (box_offset target (snd best) nG sh Hlb offs k t _ Hoffs Ht Ha)
    as (o & idx & Ho & Hidx & Hoff).
  exists a, idx. split; [exact Hba|]. split; [exact Hidx|].
  rewrite Hobj, tget_tmap, (tget_scatter _ _ _ _ _ _ Hoff).
  rewrite (obj_uint8_lookup target nB nA nG offs o Hlo) by (eapply offset_lt; exact Hoff).
  case_decide as Hin; [reflexivity|].
  exfalso. apply Hin. eapply list_elem_of_lookup_2. exact Ho.
Qed.

(** The object mask holds exactly at the assigned slots; the no-object
    mask is false exactly at the assigned and the ignored slots. *)
Lemma masks_characterised (idx : list nat) (o : nat) :
  offset sh idx = Some o ->
  (tget (obj_mask r) idx = Some true <-> assigned_slot sh nG ious target idx) /\
  (tget (noobj_mask r) idx = Some false <->
   assigned_slot sh nG ious target idx \/
   ignored_slot sh nG (ignore_thresh self) ious target idx) /\
  (tget (noobj_mask r) idx = Some true <->
   ~ (assigned_slot sh nG ious target idx \/
      ignored_slot sh nG (ignore_thresh self) ious target idx)).
Proof.
  intros Hoff.
  destruct (build_targets_inv self out_boxes pred_cls target anchors nB nA nG nG nC geo
              Hshape Hgeo Hne Hcontract r Hbt)
    as (best & offs & offs5 & nm & aw & ah & cmv & iouv & Hbest & Hlb & Hoffs & Hlo
        & _ & _ & Hnm & _ & _ & _ & _ & Hobj & Hnoobj & _).
  pose proof (offset_lt _ _ _ Hoff) as Hlt.
  pose proof (written_iff_assigned target nB nA nG geo Hcontract best offs idx o
                Hbest Hlb Hoffs Hoff) as Hass.
  change (o ∈ offs <-> assigned_slot sh nG ious target idx) in Hass.
  assert (Hobj_iff : tget (obj_mask r) idx = Some true
                     <-> assigned_slot sh nG ious target idx).
  { rewrite Hobj, tget_tmap, (tget_scatter _ _ _ _ _ _ Hoff).
    rewrite (obj_uint8_lookup target nB nA nG offs o Hlo Hlt). rewrite <- Hass.
    case_decide; cbn; split; intros ?; try reflexivity; try assumption;
      try discriminate; contradiction. }
  split; [exact Hobj_iff|].
  apply ignore_loop_spec with (sh := sh) in Hnm as (Hshnm & Hlennm & Hiff); [|reflexivity].
  cbn [data] in Hlennm, Hiff. rewrite length_scatter, length_replicate in Hlennm, Hiff.
  change (length (data nm) = numel sh) in Hlennm.
  specialize (Hiff o Hlt).
  rewrite (noobj_uint8_lookup target nB nA nG offs o Hlo Hlt) in Hiff.
  assert (Hign : (exists i, (i < n)%nat /\
                    ignore_written (ignore_thresh self) ious nA (batch_indices target)
                      (row_indices nG target) (col_indices nG target) sh i o)
                 <-> ignored_slot sh nG (ignore_thresh self) ious target idx).
  { unfold ignored_slot. fold ious in Hcontract. rewrite Hcontract. cbn [nth]. split.
    - intros (i & Hi & a & bi & gji & gii & Ha & Hthr & Hbi & Hgji & Hgii & Hz).
      destruct (lookup_lt_is_Some_2 target i Hi) as [t Ht].
      exists i, t, a. repeat split; try assumption.
      apply zoffset_Ok in Hz as (idx' & Hidx' & Hoff').
      rewrite (offset_inj _ _ _ _ Hoff Hoff').
      unfold batch_indices, row_indices, col_indices in Hbi, Hgji, Hgii.
      rewrite !List.map_map in Hgji, Hgii.
      change (List.map ?f ?l) with (f <$> l) in Hbi, Hgji, Hgii.
      rewrite list_lookup_fmap, Ht in Hbi, Hgji, Hgii.
      injection Hbi as <-. injection Hgji as <-. injection Hgii as <-. exact Hidx'.
    - intros (k & t & a & Ht & Ha & Hthr & Hidx).
      exists k. split; [eapply lookup_lt_Some; exact Ht|].
      exists a, (to_long (gt_batch t)), (to_long (gt_y t * nGq)), (to_long (gt_x t * nGq)).
      repeat split; try assumption.
      + unfold batch_indices. change (List.map ?f ?l) with (f <$> l).
        rewrite list_lookup_fmap, Ht. reflexivity.
      + unfold row_indices. rewrite List.map_map. change (List.map ?f ?l) with (f <$> l).
        rewrite list_lookup_fmap, Ht. reflexivity.
      + unfold col_indices. rewrite List.map_map. change (List.map ?f ?l) with (f <$> l).
        rewrite list_lookup_fmap, Ht. reflexivity.
      + apply zoffset_Ok. exists idx. split; [exact Hidx | exact Hoff]. }
  assert (Hfalse : tget (noobj_mask r) idx = Some false <->
            assigned_slot sh nG ious target idx \/
            ignored_slot sh nG (ignore_thresh self) ious target idx).
  { rewrite Hnoobj, tget_tmap. unfold tget. rewrite Hshnm, Hoff. cbn [mbind option_bind].
    rewrite <- Hign, <- Hass.
    destruct (data nm !! o) as [z|] eqn:Ez; cycle 1.
    { apply lookup_ge_None in Ez. rewrite Hlennm in Ez. lia. }
    cbn [fmap option_fmap option_map]. split.
    - intros [= Hz]. apply uint8_to_bool_false in Hz. subst z.
      destruct (proj1 Hiff eq_refl) as [E|E]; [|auto].
      left. case_decide; [assumption | discriminate].
    - intros Hor. f_equal. apply uint8_to_bool_false.
      assert (Some z = Some 0%Z) as [= ->]; [|reflexivity].
      apply Hiff. destruct Hor as [Hin|Hw]; [|auto].
      left. case_decide; [reflexivity | contradiction]. }
  split; [exact Hfalse|].
  rewrite <- Hfalse. rewrite Hnoobj, tget_tmap. unfold tget.
  rewrite Hshnm, Hoff. cbn [mbind option_bind].
  destruct (data nm !! o) as [z|] eqn:Ez; cycle 1.
  { apply lookup_ge_None in Ez. rewrite Hlennm in Ez. lia. }
  cbn [fmap option_fmap option_map].
  destruct (uint8_to_bool z); split; congruence.
Qed.

End TargetMasks.

Lemma frac_range (g : Q) : 0 <= frac g /\ frac g < 1.
Proof.
  unfold frac, floor. pose proof (Qfloor_le g) as Hle. pose proof (Qlt_floor g) as Hlt.
  rewrite inject_Z_plus in Hlt. change (inject_Z 1) with 1 in Hlt. split; lra.
Qed.

Lemma norm_index_of_nat_inv (d a k : nat) :
  norm_index d (Z.of_nat a) = Some k -> k = a.
Proof.
  unfold norm_index. repeat case_decide; intros [= <-]; lia.
Qed.

Lemma gather_col_lookup (t : Tensor Q) (idx : list Z) (c : nat) (l : list Q)
    (k a : nat) :
  gather_col t idx c = Ok l -> idx !! k = Some (Z.of_nat a) ->
  exists v, l !! k = Some v /\ tget t [a; c] = Some v.
Proof.
  unfold gather_col. intros H Hk. apply mapR_Forall2 in H.
  destruct (Forall2_lookup_l _ _ _ _ _ H Hk) as (v & Hv & Hget).
  exists v. split; [exact Hv|]. apply of_option_Ok in Hget.
  destruct (norm_index (hd 0%nat (shape t)) (Z.of_nat a)) as [k'|] eqn:E; [|discriminate].
  apply norm_index_of_nat_inv in E. subst k'. exact Hget.
Qed.

Section TargetValues.
Context {TM : TorchMath} {RU : RotatedBoxUtils}.
Variables (self : YoloLayer) (out_boxes pred_cls : Tensor Q) (target : list GTBox).
Variables (anchors : Tensor Q) (nB nA nG nC : nat) (geo : Geometry) (r : Targets).
Hypothesis Hshape : shape pred_cls = [nB; nA; nG; nG; nC].
Hypothesis Hgeo : geometry self = Some geo.
Hypothesis Hne : target <> [].
Hypothesis Hcontract : shape (target_ious geo nG target) = [nA; length target].
Hypothesis Hbt : build_targets self out_boxes pred_cls target anchors = Ok r.

Let ious : Tensor Q := target_ious geo nG target.
Let sh : list nat := [nB; nA; nG; nG].
Let n : nat := length target.
Let nGq : Q := inject_Z (Z.of_nat nG).

(** The regression targets at the slot of the last box assigned to it. *)
Lemma last_box_values (k : nat) (t : GTBox) (a : nat) (idx : list nat) :
  best_anchor ious target k t a ->
  norm_indices sh (box_index nG t (Z.of_nat a)) = Some idx ->
  last_at sh nG ious target k idx ->
  tget (tx r) idx = Some (frac (gt_x t * nGq)) /\
  tget (ty r) idx = Some (frac (gt_y t * nGq)) /\
  (exists aw ah,
     tget anchors [a; 0%nat] = Some aw /\ tget anchors [a; 1%nat] = Some ah /\
     tget (tw r) idx = Some (log_ratio (gt_w t * nGq) aw) /\
     tget (th r) idx = Some (log_ratio (gt_h t * nGq) ah)) /\
  tget (tim r) idx = Some (gt_im t) /\
  tget (tre r) idx = Some (gt_re t).
Proof.
  intros Hba Hidx Hlast.
  destruct (build_targets_inv self out_boxes pred_cls target anchors nB nA nG nG nC geo
              Hshape Hgeo Hne Hcontract r Hbt)
    as (best & offs & offs5 & nm & aw & ah & cmv & iouv & Hbest & Hlb & Hoffs & Hlo
        & _ & _ & _ & Haw & Hah & _ & _ & _ & _ & Htx & Hty & Htw & Hth & Htim & Htre & _).
  pose proof (proj1 (best_anchor_iff target nA nG geo Hcontract best k t a Hbest) Hba)
    as [Ht Ha].
  destruct (box_offset target (snd best) nG sh Hlb offs k t _ Hoffs Ht Ha)
    as (o & idx' & Ho & Hidx' & Hoff).
  rewrite Hidx in Hidx'. injection Hidx' as <-.
  assert (Hlastk : forall k', (k < k')%nat -> offs !! k' <> Some o).
  { intros k' Hlt Hk'.
    destruct (offset_box target (snd best) nG sh Hlb offs k' o Hoffs Hk')
      as (t' & az & Ht' & Haz).
    destruct (best_anchor_exists target nA nG geo Hcontract best k' t' Hbest Ht')
      as (a' & Hba').
    pose proof (proj1 (best_anchor_iff target nA nG geo Hcontract best k' t' a' Hbest) Hba')
      as [_ Ha'].
    destruct (box_offset target (snd best) nG sh Hlb offs k' t' _ Hoffs Ht' Ha')
      as (o' & idx' & Ho' & Hidx' & Hoff').
    rewrite Hk' in Ho'. injection Ho' as <-.
    rewrite (offset_inj _ _ _ _ Hoff' Hoff) in Hidx'.
    exact (Hlast k' t' a' Hlt Hba' Hidx'). }
  assert (Hval : forall vals : list Q, length vals = n ->
            tget (mkTensor sh (scatter (replicate (numel sh) 0) offs vals)) idx
            = vals !! k).
  { intros vals Hlv. rewrite (tget_scatter _ _ _ _ _ _ Hoff).
    apply scatter_lookup_last; try assumption.
    - rewrite Hlo, Hlv. reflexivity.
    - rewrite length_replicate. eapply offset_lt. exact Hoff. }
  assert (Hmap : forall f : GTBox -> Q, List.map f target !! k = Some (f t)).
  { intros f. change (List.map f target) with (f <$> target).
    rewrite list_lookup_fmap, Ht. reflexivity. }
  destruct (gather_col_lookup _ _ _ _ k a Haw Ha) as (awk & Hawk & Hgaw).
  destruct (gather_col_lookup _ _ _ _ k a Hah Ha) as (ahk & Hahk & Hgah).
  pose proof (length_gather_col _ _ _ _ Haw) as Hlaw.
  pose proof (length_gather_col _ _ _ _ Hah) as Hlah.
  rewrite Htx, Hty, Htw, Hth, Htim, Htre.
  rewrite !Hval; rewrite ?length_zip_with, ?length_map; try reflexivity;
    try (rewrite ?Hlaw, ?Hlah, Hlb; apply Nat.min_id).
  rewrite !Hmap. split; [reflexivity|]. split; [reflexivity|].
  split; [|split; reflexivity].
  exists awk, ahk. split; [exact Hgaw|]. split; [exact Hgah|].
  rewrite !lookup_zip_with, !Hmap, Hawk, Hahk. split; reflexivity.
Qed.

(** The class target holds 1 at the label of every box assigned to the
    slot. *)
Lemma box_class_target (k : nat) (t : GTBox) (a : nat) (idx : list nat) (c : nat) :
  best_anchor ious target k t a ->
  norm_indices sh (box_index nG t (Z.of_nat a)) = Some idx ->
  norm_index nC (to_long (gt_class t)) = Some c ->
  tget (tcls r) (idx ++ [c]) = Some 1.
Proof.
  intros Hba Hidx Hc.
  destruct (build_targets_inv self out_boxes pred_cls target anchors nB nA nG nG nC geo
              Hshape Hgeo Hne Hcontract r Hbt)
    as (best & offs & offs5 & nm & aw & ah & cmv & iouv & Hbest & Hlb & Hoffs & Hlo
        & Hoffs5 & Hlo5 & _ & _ & _ & _ & _ & _ & _ & _ & _ & _ & _ & _ & _ & Htcls & _).
  pose proof (proj1 (best_anchor_iff target nA nG geo Hcontract best k t a Hbest) Hba)
    as [Ht Ha].
  destruct (box_offset5 target (snd best) nG nC sh Hlb offs5 k t _ Hoffs5 Ht Ha)
    as (o5 & idx5 & Ho5 & Hidx5 & Hoff5).
  apply norm_indices_snoc4 in Hidx5 as (idx' & c' & Hidx' & Hc' & ->).
  change (norm_indices sh (box_index nG t (Z.of_nat a)) = Some idx') in Hidx'.
  rewrite Hidx in Hidx'. injection Hidx' as <-.
  rewrite Hc in Hc'. injection Hc' as <-.
  rewrite Htcls, (tget_scatter _ _ _ _ _ _ Hoff5). rewrite <- Hlo5.
  apply scatter_const_in.
  - rewrite length_replicate. eapply offset_lt. exact Hoff5.
  - eapply list_elem_of_lookup_2. exact Ho5.
Qed.

(** The class target holds 0 at a class that is the label of no box
    assigned to the slot. *)
Lemma box_class_target_zero (idx : list nat) (o c : nat) :
  offset sh idx = Some o -> (c < nC)%nat ->
  (forall k t a, best_anchor ious target k t a ->
     norm_indices sh (box_index nG t (Z.of_nat a)) = Some idx ->
     norm_index nC (to_long (gt_class t)) <> Some c) ->
  tget (tcls r) (idx ++ [c]) = Some 0.
Proof.
  intros Hoff Hc Hnone.
  destruct (build_targets_inv self out_boxes pred_cls target anchors nB nA nG nG nC geo
              Hshape Hgeo Hne Hcontract r Hbt)
    as (best & offs & offs5 & nm & aw & ah & cmv & iouv & Hbest & Hlb & Hoffs & Hlo
        & Hoffs5 & Hlo5 & _ & _ & _ & _ & _ & _ & _ & _ & _ & _ & _ & _ & _ & Htcls & _).
  pose proof (offset_snoc _ _ nC c _ Hoff Hc) as Hoff5.
  rewrite Htcls, (tget_scatter _ _ _ _ _ _ Hoff5).
  rewrite scatter_lookup_notin.
  - apply lookup_replicate_2. eapply offset_lt. exact Hoff5.
  - intros Hin. apply list_elem_of_lookup in Hin as [k Hk].
    assert (k < n)%nat as Hkn by (apply lookup_lt_Some in Hk; rewrite Hlo5 in Hk; exact Hk).
    destruct (lookup_lt_is_Some_2 target k Hkn) as [t Ht].
    destruct (best_anchor_exists target nA nG geo Hcontract best k t Hbest Ht) as (a & Hba).
    pose proof (proj1 (best_anchor_iff target nA nG geo Hcontract best k t a Hbest) Hba)
      as [_ Ha].
    destruct (box_offset5 target (snd best) nG nC sh Hlb offs5 k t _ Hoffs5 Ht Ha)
      as (o5 & idx5 & Ho5 & Hidx5 & Hoff5').
    rewrite Hk in Ho5. injection Ho5 as <-.
    rewrite <- (offset_inj _ _ _ _ Hoff5 Hoff5') in Hidx5.
    apply norm_indices_snoc4 in Hidx5 as (idx' & c' & Hidx' & Hc' & Heq).
    apply app_inj_tail in Heq as [<- <-].
    exact (Hnone k t a Hba Hidx' Hc').
Qed.

(** The confidence target is the object mask as a float. *)
Lemma tconf_obj_mask (idx : list nat) :
  tget (tconf r) idx = bool_to_float <$> tget (obj_mask r) idx.
Proof.
  destruct (build_targets_inv self out_boxes pred_cls target anchors nB nA nG nG nC geo
              Hshape Hgeo Hne Hcontract r Hbt)
    as (best & offs & offs5 & nm & aw & ah & cmv & iouv & Hbest & Hlb & Hoffs & Hlo
        & _ & _ & _ & _ & _ & _ & _ & Hobj & _ & _ & _ & _ & _ & _ & _ & _ & _ & _ & Htconf).
  rewrite Hobj, Htconf, !tget_tmap.
  destruct (tget _ idx) as [z|] eqn:Ez; [|reflexivity].
  cbn [fmap option_fmap option_map]. f_equal.
  unfold tget in Ez. cbn [shape data] in Ez.
  destruct (offset [nB; nA; nG; nG] idx) as [o|]; [|discriminate].
  cbn [mbind option_bind] in Ez.
  apply scatter_lookup_inv in Ez as [(k & _ & Hk)|Hz].
  - apply lookup_replicate in Hk as [-> _]. reflexivity.
  - apply lookup_replicate in Hz as [-> _]. reflexivity.
Qed.

(** Two boxes on one slot leave fewer object entries than boxes. *)
Lemma collision_count (k1 k2 : nat) (t1 t2 : GTBox) (a1 a2 : nat) (idx : list nat) :
  (k1 < k2)%nat ->
  best_anchor ious target k1 t1 a1 -> best_anchor ious target k2 t2 a2 ->
  norm_indices sh (box_index nG t1 (Z.of_nat a1)) = Some idx ->
  norm_indices sh (box_index nG t2 (Z.of_nat a2)) = Some idx ->
  (count_true (obj_mask r) < length target)%nat.
Proof.
  intros Hlt Hba1 Hba2 Hidx1 Hidx2.
  destruct (build_targets_inv self out_boxes pred_cls target anchors nB nA nG nG nC geo
              Hshape Hgeo Hne Hcontract r Hbt)
    as (best & offs & offs5 & nm & aw & ah & cmv & iouv & Hbest & Hlb & Hoffs & Hlo
        & _ & _ & _ & _ & _ & _ & _ & Hobj & _).
  pose proof (proj1 (best_anchor_iff target nA nG geo Hcontract best k1 t1 a1 Hbest) Hba1)
    as [Ht1 Ha1].
  pose proof (proj1 (best_anchor_iff target nA nG geo Hcontract best k2 t2 a2 Hbest) Hba2)
    as [Ht2 Ha2].
  destruct (box_offset target (snd best) nG sh Hlb offs k1 t1 _ Hoffs Ht1 Ha1)
    as (o1 & idx1 & Ho1 & Hi1 & Hoff1).
  destruct (box_offset target (snd best) nG sh Hlb offs k2 t2 _ Hoffs Ht2 Ha2)
    as (o2 & idx2 & Ho2 & Hi2 & Hoff2).
  rewrite Hidx1 in Hi1. rewrite Hidx2 in Hi2. injection Hi1 as <-. injection Hi2 as <-.
  rewrite Hoff1 in Hoff2. injection Hoff2 as <-.
  unfold count_true. rewrite Hobj. cbn [data tmap].
  rewrite scatter_fmap, !fmap_replicate.
  change (uint8_to_bool 0) with false. change (uint8_to_bool 1) with true.
  rewrite <- Hlo.
  pose proof (count_scatter_collision (replicate (numel sh) false) offs k1 k2 o1 Hlt) as Hc.
  rewrite length_replicate in Hc.
  specialize (Hc (offset_lt _ _ _ Hoff1) Ho1 Ho2).
  rewrite count_replicate_false in Hc. exact Hc.
Qed.

End TargetValues.

Section TargetValuesAt.
Context {TM : TorchMath} {RU : RotatedBoxUtils}.
Variables (self : YoloLayer) (out_boxes pred_cls : Tensor Q) (target : list GTBox).
Variables (anchors : Tensor Q) (nB nA nG nC : nat) (geo : Geometry) (r : Targets).
Hypothesis Hshape : shape pred_cls = [nB; nA; nG; nG; nC].
Hypothesis Hgeo : geometry self = Some geo.
Hypothesis Hne : target <> [].
Hypothesis Hcontract : shape (target_ious geo nG target) = [nA; length target].
Hypothesis Hbt : build_targets self out_boxes pred_cls target anchors = Ok r.

Let ious : Tensor Q := target_ious geo nG target.
Let sh : list nat := [nB; nA; nG; nG].
Let nGq : Q := inject_Z (Z.of_nat nG).

(** The targets at the slot of a box that no later box overwrites. *)
Lemma regression_targets_at (k : nat) (t : GTBox) (a : nat)
    (idx : list nat) :
  best_anchor ious target k t a ->
  norm_indices sh (box_index nG t (Z.of_nat a)) = Some idx ->
  last_at sh nG ious target k idx ->
  (tget (tx r) idx = Some (frac (gt_x t * nGq)) /\
   0 <= frac (gt_x t * nGq) /\ frac (gt_x t * nGq) < 1) /\
  (tget (ty r) idx = Some (frac (gt_y t * nGq)) /\
   0 <= frac (gt_y t * nGq) /\ frac (gt_y t * nGq) < 1) /\
  (exists aw ah,
     tget anchors [a; 0%nat] = Some aw /\ tget anchors [a; 1%nat] = Some ah /\
     tget (tw r) idx = Some (torch_log (gt_w t * nGq / aw + 1e-16)) /\
     tget (th r) idx = Some (torch_log (gt_h t * nGq / ah + 1e-16))) /\
  tget (tim r) idx = Some (gt_im t) /\
  tget (tre r) idx = Some (gt_re t) /\
  (exists c, norm_index nC (to_long (gt_class t)) = Some c /\
     tget (tcls r) (idx ++ [c]) = Some 1 /\
     forall c', (c' < nC)%nat ->
       (forall k' t' a', best_anchor ious target k' t' a' ->
          norm_indices sh (box_index nG t' (Z.of_nat a')) = Some idx ->
          norm_index nC (to_long (gt_class t')) <> Some c') ->
       tget (tcls r) (idx ++ [c']) = Some 0) /\
  (forall idx', tget (tconf r) idx' = bool_to_float <$> tget (obj_mask r) idx').
Proof.
  intros Hba Hidx Hlast.
  destruct (last_box_values self out_boxes pred_cls target anchors nB nA nG nC geo r
              Hshape Hgeo Hne Hcontract Hbt k t a idx Hba Hidx Hlast)
    as (Hx & Hy & Hwh & Him & Hre).
  destruct (frac_range (gt_x t * nGq)) as [Hx0 Hx1].
  destruct (frac_range (gt_y t * nGq)) as [Hy0 Hy1].
  split; [split; [exact Hx | split; assumption]|].
  split; [split; [exact Hy | split; assumption]|].
  split; [exact Hwh|]. split; [exact Him|]. split; [exact Hre|]. split.
  - destruct (build_targets_inv self out_boxes pred_cls target anchors nB nA nG nG nC geo
                Hshape Hgeo Hne Hcontract r Hbt)
      as (best & offs & offs5 & nm & aw & ah & cmv & iouv & Hbest & Hlb & Hoffs & Hlo
          & Hoffs5 & _).
    pose proof (proj1 (best_anchor_iff target nA nG geo Hcontract best k t a Hbest) Hba)
      as [Ht Ha].
    destruct (box_offset5 target (snd best) nG nC sh Hlb offs5 k t _ Hoffs5 Ht Ha)
      as (o5 & idx5 & _ & Hidx5 & _).
    apply norm_indices_snoc4 in Hidx5 as (idx' & c & _ & Hc & _).
    exists c. split; [exact Hc|]. split.
    + exact (box_class_target self out_boxes pred_cls target anchors nB nA nG nC geo r
               Hshape Hgeo Hne Hcontract Hbt k t a idx c Hba Hidx Hc).
    + intros c' Hc' Hnone.
      destruct (norm_indices_offset _ _ _ Hidx) as [o Hoff].
      exact (box_class_target_zero self out_boxes pred_cls target anchors nB nA nG nC geo r
               Hshape Hgeo Hne Hcontract Hbt idx o c' Hoff Hc' Hnone).
  - exact (tconf_obj_mask self out_boxes pred_cls target anchors nB nA nG nC geo r
             Hshape Hgeo Hne Hcontract Hbt).
Qed.

(** The targets at a slot two boxes are assigned to. *)
Lemma collision_values (k1 k2 : nat) (t1 t2 : GTBox) (a1 a2 : nat)
    (idx : list nat) :
  (k1 < k2)%nat ->
  best_anchor ious target k1 t1 a1 -> best_anchor ious target k2 t2 a2 ->
  norm_indices sh (box_index nG t1 (Z.of_nat a1)) = Some idx ->
  norm_indices sh (box_index nG t2 (Z.of_nat a2)) = Some idx ->
  last_at sh nG ious target k2 idx ->
  tget (tx r) idx = Some (frac (gt_x t2 * nGq)) /\
  tget (ty r) idx = Some (frac (gt_y t2 * nGq)) /\
  (exists aw ah,
     tget anchors [a2; 0%nat] = Some aw /\ tget anchors [a2; 1%nat] = Some ah /\
     tget (tw r) idx = Some (torch_log (gt_w t2 * nGq / aw + 1e-16)) /\
     tget (th r) idx = Some (torch_log (gt_h t2 * nGq / ah + 1e-16))) /\
  tget (tim r) idx = Some (gt_im t2) /\
  tget (tre r) idx = Some (gt_re t2) /\
  (forall c1 c2,
     norm_index nC (to_long (gt_class t1)) = Some c1 ->
     norm_index nC (to_long (gt_class t2)) = Some c2 ->
     tget (tcls r) (idx ++ [c1]) = Some 1 /\ tget (tcls r) (idx ++ [c2]) = Some 1) /\
  tget (obj_mask r) idx = Some true /\
  (count_true (obj_mask r) < length target)%nat.
Proof.
  intros Hlt Hba1 Hba2 Hidx1 Hidx2 Hlast.
  destruct (last_box_values self out_boxes pred_cls target anchors nB nA nG nC geo r
              Hshape Hgeo Hne Hcontract Hbt k2 t2 a2 idx Hba2 Hidx2 Hlast)
    as (Hx & Hy & Hwh & Him & Hre).
  split; [exact Hx|]. split; [exact Hy|].
  split; [exact Hwh|]. split; [exact Him|]. split; [exact Hre|]. split; [|split].
  - intros c1 c2 Hc1 Hc2. split.
    + exact (box_class_target self out_boxes pred_cls target anchors nB nA nG nC geo r
               Hshape Hgeo Hne Hcontract Hbt k1 t1 a1 idx c1 Hba1 Hidx1 Hc1).
    + exact (box_class_target self out_boxes pred_cls target anchors nB nA nG nC geo r
               Hshape Hgeo Hne Hcontract Hbt k2 t2 a2 idx c2 Hba2 Hidx2 Hc2).
  - destruct (build_targets_inv self out_boxes pred_cls target anchors nB nA nG nG nC geo
                Hshape Hgeo Hne Hcontract r Hbt)
      as (best & offs & offs5 & nm & aw & ah & cmv & iouv & Hbest & Hlb & Hoffs & Hlo
          & _ & _ & _ & _ & _ & _ & _ & Hobj & _).
    destruct (norm_indices_offset _ _ _ Hidx2) as [o Hoff].
    pose proof (written_iff_assigned target nB nA nG geo Hcontract best offs idx o
                  Hbest Hlb Hoffs Hoff) as Hass.
    rewrite Hobj, tget_tmap, (tget_scatter _ _ _ _ _ _ Hoff).
    rewrite (obj_uint8_lookup target nB nA nG offs o Hlo) by (eapply offset_lt; exact Hoff).
    case_decide as Hin; [reflexivity|].
    exfalso. apply Hin, Hass. exists k2, t2, a2. auto.
  - exact (collision_count self out_boxes pred_cls target anchors nB nA nG nC geo r
             Hshape Hgeo Hne Hcontract Hbt k1 k2 t1 t2 a1 a2 idx Hlt Hba1 Hba2 Hidx1 Hidx2).
Qed.

End TargetValuesAt.

(** ** The loss without ground-truth boxes *)

Lemma select_rows_false {A} (w m : nat) (d : list A) :
  select_rows w (replicate m false) d = [].
Proof.
  revert d. induction m as [|m IH]; intros d; simpl; [reflexivity | apply IH].
Qed.

Lemma length_select_rows {A B} (w : nat) (mask : list bool) (d1 : list A) (d2 : list B) :
  length d1 = length d2 ->
  length (select_rows w mask d1) = length (select_rows w mask d2).
Proof.
  revert d1 d2. induction mask as [|m mask IH]; intros d1 d2 Hlen; simpl; [reflexivity|].
  rewrite !length_app. rewrite (IH (drop w d1) (drop w d2)) by (rewrite !length_drop; lia).
  destruct m; simpl; [rewrite !length_take; lia | reflexivity].
Qed.

Lemma masked_select_none (t : Tensor Q) (sh : list nat) :
  take (length sh) (shape t) = sh ->
  masked_select t (tmap uint8_to_bool (full sh 0%Z)) = Ok [].
Proof.
  intros Hsh. unfold masked_select. cbn [shape data tmap full].
  rewrite Hsh. case_decide; [|contradiction].
  rewrite fmap_replicate. change (uint8_to_bool 0) with false.
  rewrite select_rows_false. reflexivity.
Qed.

Section NoBoxes.
Context {TM : TorchMath} {RU : RotatedBoxUtils}.

(** Without boxes [build_targets] returns the initial tensors. *)
Lemma build_targets_no_boxes (self : YoloLayer) (out_boxes pred_cls anchors : Tensor Q)
    (nB nA nG nG' nC : nat) :
  shape pred_cls = [nB; nA; nG; nG'; nC] ->
  let sh := [nB; nA; nG; nG] in
  build_targets self out_boxes pred_cls [] anchors
  = Ok (mkTargets (full sh 0) (full sh 0)
          (tmap uint8_to_bool (full sh 0%Z)) (tmap uint8_to_bool (full sh 1%Z))
          (full sh 0) (full sh 0) (full sh 0) (full sh 0) (full sh 0) (full sh 0)
          (full (sh ++ [nC]) 0) (tmap uint8_to_float (full sh 0%Z))).
Proof.
  intros Hshape sh. unfold build_targets. rewrite Hshape. cbv zeta.
  case_decide as Hn; [simpl in Hn; lia | reflexivity].
Qed.

Lemma bce_nil : binary_cross_entropy [] [] = Ok NaN.
Proof. reflexivity. Qed.

Lemma bce_same_length (input target : list Q) :
  length input = length target ->
  binary_cross_entropy input target = Ok (mean (zip_with bce_elem input target)).
Proof.
  intros H. unfold binary_cross_entropy. case_decide; [reflexivity | contradiction].
Qed.

Lemma masked_select_all (t : Tensor Q) (sh : list nat) :
  take (length sh) (shape t) = sh ->
  masked_select t (tmap uint8_to_bool (full sh 1%Z))
  = Ok (select_rows (numel (drop (length sh) (shape t)))
          (replicate (numel sh) true) (data t)).
Proof.
  intros Hsh. unfold masked_select. cbn [shape data tmap full].
  rewrite Hsh. case_decide; [|contradiction].
  rewrite fmap_replicate. reflexivity.
Qed.

(** The loss over no object slot is [nan]. *)
Lemma loss_no_boxes (self : YoloLayer) (d : Decoded) (nB nA nG nC : nat) :
  let sh := [nB; nA; nG; nG] in
  shape (pred_conf d) = sh -> wf_tensor (pred_conf d) ->
  shape (pred_cls d) = sh ++ [nC] ->
  exists m,
    loss self d
      (mkTargets (full sh 0) (full sh 0)
         (tmap uint8_to_bool (full sh 0%Z)) (tmap uint8_to_bool (full sh 1%Z))
         (full sh 0) (full sh 0) (full sh 0) (full sh 0) (full sh 0) (full sh 0)
         (full (sh ++ [nC]) 0) (tmap uint8_to_float (full sh 0%Z)))
    = Ok (NaN, m).
Proof.
  intros sh Hconf Hwf Hcls. unfold loss.
  cbn [iou_scores obj_mask noobj_mask tconf tcls].
  rewrite (masked_select_none (full sh 0) sh) by reflexivity.
  cbn [mbind result_bind List.map mean].
  rewrite (masked_select_none (pred_conf d) sh) by (rewrite Hconf; reflexivity).
  cbn [mbind result_bind].
  rewrite (masked_select_none (tmap uint8_to_float (full sh 0%Z)) sh) by reflexivity.
  cbn [mbind result_bind]. rewrite bce_nil. cbn [mbind result_bind].
  rewrite (masked_select_all (pred_conf d) sh) by (rewrite Hconf; reflexivity).
  cbn [mbind result_bind].
  rewrite (masked_select_all (tmap uint8_to_float (full sh 0%Z)) sh) by reflexivity.
  cbn [mbind result_bind].
  rewrite bce_same_length; cycle 1.
  { rewrite Hconf. cbn [shape tmap full]. apply length_select_rows.
    cbn [data tmap full]. rewrite Hwf, Hconf, length_fmap, length_replicate. reflexivity. }
  cbn [mbind result_bind].
  rewrite (masked_select_none (pred_cls d) sh) by (rewrite Hcls; reflexivity).
  cbn [mbind result_bind].
  rewrite (masked_select_none (full (sh ++ [nC]) 0) sh) by reflexivity.
  cbn [mbind result_bind]. rewrite bce_nil. cbn [mbind result_bind].
  cbn [fs_scale fs_add]. eexists. reflexivity.
Qed.

End NoBoxes.

(** ** [forward] *)

Section Forward.
Context {TM : TorchMath} {RU : RotatedBoxUtils}.

Lemma decode_shapes (self self' : YoloLayer) (x : Tensor Q) (img : Q) (d : Decoded)
    (ns C H g : nat) :
  shape x = [ns; C; H; g] -> decode self x img = Ok (self', d) ->
  shape (pred_conf d) = [ns; num_anchors self; g; g] /\
  wf_tensor (pred_conf d) /\
  shape (pred_cls d) = [ns; num_anchors self; g; g; num_classes self] /\
  wf_tensor (pred_cls d) /\
  shape (out_boxes d) = [ns; num_anchors self; g; g; 6%nat].
Proof.
  intros Hshape Hdec. apply decode_inv in Hdec.
  destruct Hdec as (ns' & C' & H' & g' & geo & c0 & c1 & c2 & c3 & Hshape' & Hn & Hself
    & Hgeo & HP & Hpx & Hpy & Hpw & Hph & Hpim & Hpre & Hpconf & Hpcls
    & Hc0 & Hc1 & Hc2 & Hc3 & Hob).
  rewrite Hshape in Hshape'. injection Hshape' as <- <- <- <-.
  assert (shape (prediction d)
          = [ns; num_anchors self; g; g; (num_classes self + 7)%nat]) as HshP
    by (rewrite HP; reflexivity).
  apply stack_last_inv in Hob as [_ Hob].
  rewrite Hpconf, Hpcls, Hob. cbn [shape tmap tabulate select_last slice_last].
  rewrite HshP. cbn [removelast last_index List.last app length].
  replace (Nat.min (num_classes self + 7) (num_classes self + 7) - 7)%nat
    with (num_classes self) by lia.
  repeat split; try reflexivity; apply wf_tmap, wf_tabulate.
Qed.

(** With an empty target tensor the loss is [nan] whenever the decoding
    returns. *)
Lemma forward_no_boxes (self self' : YoloLayer) (x : Tensor Q) (img : Q) (d : Decoded) :
  decode self x img = Ok (self', d) ->
  exists m, forward self x (Some []) img = Ok (set_metrics self' m, (output d, NaN)).
Proof.
  intros Hdec. pose proof Hdec as Hinv. apply decode_inv in Hinv.
  destruct Hinv as (ns & C & H & g & geo & c0 & c1 & c2 & c3 & Hshape & _ & _ & Hgeo & _).
  destruct (decode_shapes _ _ _ _ _ _ _ _ _ Hshape Hdec)
    as (Hconf & Hwfconf & Hcls & _ & _).
  unfold forward. rewrite Hdec. cbn [mbind result_bind fst snd].
  rewrite Hgeo. cbn [of_option mbind result_bind].
  rewrite (build_targets_no_boxes _ _ _ _ _ _ _ _ _ Hcls). cbv zeta.
  cbn [mbind result_bind].
  destruct (loss_no_boxes self' d ns (num_anchors self) g (num_classes self)
              Hconf Hwfconf Hcls) as [m Hm].
  rewrite Hm. cbn [mbind result_bind fst snd]. exists m. reflexivity.
Qed.

(** The layer state after [forward] is the one after [decode], up to the
    metrics. *)
Lemma forward_state (self self' : YoloLayer) (x : Tensor Q)
    (targets : option (list GTBox)) (img : Q) (out : Tensor Q * fscalar) :
  forward self x targets img = Ok (self', out) ->
  exists selfd d,
    decode self x img = Ok (selfd, d) /\
    geometry self' = geometry selfd /\ grid_size self' = grid_size selfd /\
    stride self' = stride selfd /\ img_size self' = img_size selfd.
Proof.
  unfold forward. intros H. inv_bind H sd Hsd. destruct sd as [selfd d].
  cbn [fst snd] in H. exists selfd, d. split; [exact Hsd|].
  destruct targets as [tg|].
  - inv_bind H geo Hgeo. inv_bind H t Ht. inv_bind H lm Hlm.
    injection H as <- _. repeat split; reflexivity.
  - injection H as <- _. repeat split; reflexivity.
Qed.

(** The cached geometry after [decode]: kept on a grid size seen last,
    rebuilt by [compute_grid_offsets] otherwise. *)
Lemma decode_cache (self self' : YoloLayer) (x : Tensor Q) (img : Q) (d : Decoded)
    (ns C H g : nat) :
  shape x = [ns; C; H; g] -> decode self x img = Ok (self', d) ->
  (g = grid_size self ->
     geometry self' = geometry self /\ grid_size self' = grid_size self /\
     stride self' = stride self) /\
  (g <> grid_size self ->
     compute_grid_offsets (set_img_size self img) g = Ok self').
Proof.
  intros Hshape Hdec. apply decode_inv in Hdec.
  destruct Hdec as (ns' & C' & H' & g' & geo & c0 & c1 & c2 & c3 & Hshape' & _ & Hself & _).
  rewrite Hshape in Hshape'. injection Hshape' as <- <- <- <-.
  case_decide as Hg; split; intros Hg'; try contradiction.
  - exact Hself.
  - subst self'. repeat split; reflexivity.
Qed.

(** *** The stored [scale_x_y] *)

Lemma compute_grid_offsets_scale_x_y (self : YoloLayer) (v : Q) (g : nat) :
  compute_grid_offsets (set_scale_x_y self v) g
  = (fun s => set_scale_x_y s v) <$> compute_grid_offsets self g.
Proof.
  unfold compute_grid_offsets. cbn [img_size anchors num_anchors set_scale_x_y].
  repeat (match goal with
          | |- context [mbind _ ?m] =>
              lazymatch m with
              | mbind _ _ => fail
              | _ => destruct m; cbn [mbind result_bind fmap result_fmap]; try reflexivity
              end
          end).
Qed.

End Forward.

Section ScaleXY.
Context {TM : TorchMath} {RU : RotatedBoxUtils}.

Lemma build_targets_scale_x_y (self : YoloLayer) (v : Q) (out_boxes pred_cls : Tensor Q)
    (target : list GTBox) (anchors : Tensor Q) :
  build_targets (set_scale_x_y self v) out_boxes pred_cls target anchors
  = build_targets self out_boxes pred_cls target anchors.
Proof. reflexivity. Qed.

Lemma loss_scale_x_y (self : YoloLayer) (v : Q) (d : Decoded) (t : Targets) :
  loss (set_scale_x_y self v) d t = loss self d t.
Proof. reflexivity. Qed.

Lemma decode_scale_x_y (self : YoloLayer) (v : Q) (x : Tensor Q) (img : Q) :
  decode (set_scale_x_y self v) x img
  = (fun sd => (set_scale_x_y (fst sd) v, snd sd)) <$> decode self x img.
Proof.
  unfold decode.
  destruct (shape x) as [|ns [|C [|H [|g [|? ?]]]]]; try reflexivity.
  cbn [num_anchors num_classes grid_size set_img_size set_scale_x_y].
  destruct (view x _) as [vw|e]; [|reflexivity]. cbn [mbind result_bind].
  change (set_img_size (set_scale_x_y self v) img)
    with (set_scale_x_y (set_img_size self img) v).
  assert (Hs : (if decide (g ≠ grid_size self)
                then compute_grid_offsets (set_scale_x_y (set_img_size self img) v) g
                else Ok (set_scale_x_y (set_img_size self img) v))
               = (fun s => set_scale_x_y s v) <$>
                 (if decide (g ≠ grid_size self)
                  then compute_grid_offsets (set_img_size self img) g
                  else Ok (set_img_size self img))).
  { case_decide; [apply compute_grid_offsets_scale_x_y | reflexivity]. }
  rewrite Hs. clear Hs.
  destruct (if decide (g ≠ grid_size self) then _ else _) as [s|e]; [|reflexivity].
  cbn [fmap result_fmap mbind result_bind geometry stride set_scale_x_y].
  destruct (geometry s) as [geo|]; [|reflexivity].
  cbn [of_option mbind result_bind].
  repeat (match goal with
          | |- context [mbind _ ?m] =>
              lazymatch m with
              | mbind _ _ => fail
              | _ => destruct m; cbn [mbind result_bind fmap result_fmap]; try reflexivity
              end
          end).
Qed.

(** [forward] on a layer whose [scale_x_y] is replaced returns what it
    returns on the layer itself, the stored [scale_x_y] apart. *)
Lemma forward_scale_x_y (self : YoloLayer) (v : Q) (x : Tensor Q)
    (targets : option (list GTBox)) (img : Q) :
  forward (set_scale_x_y self v) x targets img
  = (fun r => (set_scale_x_y (fst r) v, snd r)) <$> forward self x targets img.
Proof.
  unfold forward. rewrite decode_scale_x_y.
  destruct (decode self x img) as [[s d]|e]; [|reflexivity].
  cbn [fmap result_fmap mbind result_bind fst snd].
  destruct targets as [tg|]; [|reflexivity].
  cbn [geometry set_scale_x_y].
  destruct (geometry s) as [geo|]; [|reflexivity].
  cbn [of_option mbind result_bind].
  rewrite build_targets_scale_x_y.
  destruct (build_targets s _ _ _ _) as [t|e]; [|reflexivity].
  cbn [mbind result_bind]. rewrite loss_scale_x_y.
  destruct (loss s d t) as [lm|e]; reflexivity.
Qed.

End ScaleXY.

(** * The claims *)

Section GeometryClaims.
Context {TM : TorchMath} {RU : RotatedBoxUtils}.

(** C6. [compute_grid_offsets g] returns for a positive grid size (a
    non-zero image size and at least one anchor); afterwards the x and y
    offset arrays have shape (1, 1, g, g) with [grid_x[0, 0, r, c] = c]
    and [grid_y[0, 0, r, c] = r], and every scaled anchor is its prior with
    the width and the height divided by the new stride, the im and re
    components unchanged. *)
Theorem compute_grid_offsets_spec (self : YoloLayer) (g : nat) :
  (0 < g)%nat -> ~ img_size self == 0 -> anchors self <> [] ->
  num_anchors self = length (anchors self) ->
  exists self' geo,
    compute_grid_offsets self g = Ok self' /\
    geometry self' = Some geo /\ grid_size self' = g /\
    stride self' = img_size self / inject_Z (Z.of_nat g) /\
    shape (grid_x geo) = [1; 1; g; g]%nat /\
    shape (grid_y geo) = [1; 1; g; g]%nat /\
    (forall r c, (r < g)%nat -> (c < g)%nat ->
       tget (grid_x geo) [0; 0; r; c]%nat = Some (inject_Z (Z.of_nat c)) /\
       tget (grid_y geo) [0; 0; r; c]%nat = Some (inject_Z (Z.of_nat r))) /\
    shape (scaled_anchors geo) = [length (anchors self); 4%nat] /\
    (forall a a_w a_h im re, anchors self !! a = Some (a_w, a_h, im, re) ->
       tget (scaled_anchors geo) [a; 0%nat] = Some (a_w / stride self') /\
       tget (scaled_anchors geo) [a; 1%nat] = Some (a_h / stride self') /\
       tget (scaled_anchors geo) [a; 2%nat] = Some im /\
       tget (scaled_anchors geo) [a; 3%nat] = Some re).
Proof.
  intros Hg Himg Hne HnA.
  destruct (compute_grid_offsets_ok self g Hg Himg Hne HnA) as (geo & Hok & Hgeo & _).
  eexists _, geo. split; [exact Hok|].
  destruct Hgeo as (Hgx & Hgy & Hgrid & Hsa & _ & _ & Hanch).
  cbn [geometry grid_size stride anchors set_geometry] in *.
  repeat (split; [first [reflexivity | assumption]|]).
  intros a a_w a_h im re Ha.
  destruct (Hanch a a_w a_h im re Ha) as (H0 & H1 & H2 & H3 & _). auto.
Qed.

(** C3. The decoder returns on an input of the layer's shape, and whenever
    it returns, at every sample [b], anchor [a], row [j] and column [i]:
    the x, y, objectness and class channels are the sigmoid of the raw
    channels; the width, height, im and re channels are the raw channels;
    and the decoded box is (sigmoid(raw_x) + i, sigmoid(raw_y) + j,
    exp(raw_w) * anchor_w, exp(raw_h) * anchor_h, raw_im, raw_re), with the
    anchor sizes in grid units. *)
Theorem decode_channels_and_boxes (self : YoloLayer) (x : Tensor Q) (img : Q)
    (ns C H g : nat) :
  layer_ok self -> shape x = [ns; C; H; g] ->
  (input_ok self x img ns g -> exists self' d, decode self x img = Ok (self', d)) /\
  forall self' d, decode self x img = Ok (self', d) ->
  forall b a j i a_w a_h im re,
    (b < ns)%nat -> (j < g)%nat -> (i < g)%nat ->
    anchors self !! a = Some (a_w, a_h, im, re) ->
    let raw := raw_channel x (num_anchors self) (num_classes self) g b a j i in
    (forall c, (c < num_classes self + 7)%nat ->
       tget (prediction d) [b; a; j; i; c] = Some (raw c)) /\
    tget (pred_x d) [b; a; j; i] = Some (torch_sigmoid (raw 0%nat)) /\
    tget (pred_y d) [b; a; j; i] = Some (torch_sigmoid (raw 1%nat)) /\
    tget (pred_w d) [b; a; j; i] = Some (raw 2%nat) /\
    tget (pred_h d) [b; a; j; i] = Some (raw 3%nat) /\
    tget (pred_im d) [b; a; j; i] = Some (raw 4%nat) /\
    tget (pred_re d) [b; a; j; i] = Some (raw 5%nat) /\
    tget (pred_conf d) [b; a; j; i] = Some (torch_sigmoid (raw 6%nat)) /\
    (forall c, (c < num_classes self)%nat ->
       tget (pred_cls d) [b; a; j; i; c] = Some (torch_sigmoid (raw (7 + c)%nat))) /\
    tget (out_boxes d) [b; a; j; i; 0%nat]
      = Some (torch_sigmoid (raw 0%nat) + inject_Z (Z.of_nat i)) /\
    tget (out_boxes d) [b; a; j; i; 1%nat]
      = Some (torch_sigmoid (raw 1%nat) + inject_Z (Z.of_nat j)) /\
    tget (out_boxes d) [b; a; j; i; 2%nat]
      = Some (torch_exp (raw 2%nat) * (a_w / stride self')) /\
    tget (out_boxes d) [b; a; j; i; 3%nat]
      = Some (torch_exp (raw 3%nat) * (a_h / stride self')) /\
    tget (out_boxes d) [b; a; j; i; 4%nat] = Some (raw 4%nat) /\
    tget (out_boxes d) [b; a; j; i; 5%nat] = Some (raw 5%nat).
Proof.
  intros Hok Hshape. split.
  - intros (Hsh & Hwf & Hns & Hg & HnC & Hne & Himg).
    exact (decode_ok self x img ns g Hok Hsh Hwf Hns Hg HnC Hne Himg).
  - intros self' d Hdec.
    exact (decode_values self self' x img d ns C H g Hok Hshape Hdec).
Qed.

(** C9. A call of [forward] rebuilds the cached geometry exactly when the
    grid size of its input differs from the cached grid size: with the
    same grid size the geometry, the grid size and the stride are left as
    they were; with another one they are those [compute_grid_offsets]
    builds, and the cached grid size becomes the new one. *)
Theorem forward_geometry_cache (self self' : YoloLayer) (x : Tensor Q)
    (targets : option (list GTBox)) (img : Q) (out : Tensor Q * fscalar)
    (ns C H g : nat) :
  shape x = [ns; C; H; g] ->
  forward self x targets img = Ok (self', out) ->
  (g = grid_size self ->
     geometry self' = geometry self /\ grid_size self' = grid_size self /\
     stride self' = stride self) /\
  (g <> grid_size self ->
     exists self1,
       compute_grid_offsets (set_img_size self img) g = Ok self1 /\
       geometry self' = geometry self1 /\ grid_size self' = g /\
       stride self' = stride self1).
Proof.
  intros Hshape Hfwd.
  destruct (forward_state _ _ _ _ _ _ Hfwd) as (selfd & d & Hdec & Hg1 & Hg2 & Hg3 & _).
  destruct (decode_cache _ _ _ _ _ _ _ _ _ Hshape Hdec) as [Hsame Hdiff].
  split.
  - intros Hg. destruct (Hsame Hg) as (E1 & E2 & E3).
    repeat split; congruence.
  - intros Hg. specialize (Hdiff Hg). exists selfd.
    split; [exact Hdiff|]. split; [exact Hg1|]. split; [|exact Hg3].
    apply compute_grid_offsets_geometry in Hdiff as (geo & -> & _).
    rewrite Hg2. reflexivity.
Qed.

(** C10. Two layers constructed with the same classes, anchors, stride and
    ignore threshold and different [scale_x_y] return the same output and
    loss (or raise the same exception) from [forward]; more generally,
    replacing the stored [scale_x_y] of any layer does not change what
    [forward] returns. *)
Theorem forward_scale_x_y_irrelevant (num_classes : nat) (anchors : list (Q * Q * Q * Q))
    (stride s1 s2 ignore_thresh : Q) (x : Tensor Q) (targets : option (list GTBox))
    (img : Q) :
  snd <$> forward (YoloLayer_init num_classes anchors stride s1 ignore_thresh) x targets img
  = snd <$> forward (YoloLayer_init num_classes anchors stride s2 ignore_thresh) x targets img
  /\
  forall (self : YoloLayer) (v : Q),
    snd <$> forward (set_scale_x_y self v) x targets img
    = snd <$> forward self x targets img.
Proof.
  assert (Hgen : forall (self : YoloLayer) (v : Q),
            snd <$> forward (set_scale_x_y self v) x targets img
            = snd <$> forward self x targets img).
  { intros self v. rewrite forward_scale_x_y.
    destruct (forward self x targets img) as [[s r]|e]; reflexivity. }
  split; [|exact Hgen].
  change (YoloLayer_init num_classes anchors stride s1 ignore_thresh)
    with (set_scale_x_y (YoloLayer_init num_classes anchors stride s2 ignore_thresh) s1).
  apply Hgen.
Qed.

(** C1. With a targets tensor of zero boxes the total loss [forward]
    returns is [nan], not the no-object term: the means over the empty
    selection of object slots are 0/0, and nothing guards them. *)
Theorem forward_empty_targets_loss_nan (self : YoloLayer) (x : Tensor Q) (img : Q)
    (ns g : nat) :
  layer_ok self -> input_ok self x img ns g ->
  exists self' out, forward self x (Some []) img = Ok (self', (out, NaN)).
Proof.
  intros Hok (Hsh & Hwf & Hns & Hg & HnC & Hne & Himg).
  destruct (decode_ok self x img ns g Hok Hsh Hwf Hns Hg HnC Hne Himg)
    as (self' & d & Hdec).
  destruct (forward_no_boxes self self' x img d Hdec) as [m Hm].
  eexists _, _. exact Hm.
Qed.

End GeometryClaims.

Section TargetClaims.
Context {TM : TorchMath} {RU : RotatedBoxUtils}.
Variables (self : YoloLayer) (out_boxes pred_cls : Tensor Q) (target : list GTBox).
Variables (anchors : Tensor Q) (nB nA nG nC : nat) (geo : Geometry).
Hypothesis Hshape : shape pred_cls = [nB; nA; nG; nG; nC].
Hypothesis Hgeo : geometry self = Some geo.
Hypothesis Hne : target <> [].
Hypothesis Hcontract : shape (target_ious geo nG target) = [nA; length target].

Let ious : Tensor Q := target_ious geo nG target.
Let sh : list nat := [nB; nA; nG; nG].
Let nGq : Q := inject_Z (Z.of_nat nG).

Lemma build_targets_returns :
  targets_in_range out_boxes pred_cls target anchors nB nA nG nC ->
  exists r, build_targets self out_boxes pred_cls target anchors = Ok r.
Proof.
  intros (Hwf & Hob & Hiou & HnA & HnG & Hanch & Hanch_wf & Hrange).
  exact (build_targets_ok self out_boxes pred_cls target anchors nB nA nG nC geo
           Hshape Hwf Hob Hgeo Hne Hcontract Hiou HnA HnG Hanch Hanch_wf Hrange).
Qed.

(** C2, amended. With the IoU matrix laid out as [build_targets] reads it,
    one row per anchor and one column per ground-truth box,
    [build_targets] returns (for boxes that have a slot), and whenever it
    returns every box is assigned the first anchor of maximal IoU in its
    column and the object mask holds at the slot
    (batch, that anchor, row, column) of the box. *)
Theorem build_targets_best_anchor :
  (targets_in_range out_boxes pred_cls target anchors nB nA nG nC ->
   exists r, build_targets self out_boxes pred_cls target anchors = Ok r) /\
  forall r, build_targets self out_boxes pred_cls target anchors = Ok r ->
  forall k t, target !! k = Some t ->
  exists a idx,
    best_anchor ious target k t a /\
    norm_indices sh (box_index nG t (Z.of_nat a)) = Some idx /\
    tget (obj_mask r) idx = Some true.
Proof.
  split; [exact build_targets_returns|]. intros r Hbt k t Ht.
  exact (box_assignment self out_boxes pred_cls target anchors nB nA nG nC geo r
           Hshape Hgeo Hne Hcontract Hbt k t Ht).
Qed.

(** C4, amended. [build_targets] returns (for boxes that have a slot), and
    whenever it returns, for a box assigned to a slot that no later box is
    assigned to: tx and ty are the fractional parts of the grid
    coordinates, in [0, 1); tw and th are log(size / size of the best
    anchor + 1e-16); tim and tre are the im and re of the box; the class
    target is 1 at the label of the box and 0 at every class that labels
    no box of the slot, so it is the one-hot vector of the label when the
    box is the only one of its slot; and the confidence target is the
    object mask as a float, at every slot.  (A box that a later box
    overwrites is left out: its values are lost.) *)
Theorem build_targets_regression_targets :
  (targets_in_range out_boxes pred_cls target anchors nB nA nG nC ->
   exists r, build_targets self out_boxes pred_cls target anchors = Ok r) /\
  forall r, build_targets self out_boxes pred_cls target anchors = Ok r ->
  forall k t a idx,
    best_anchor ious target k t a ->
    norm_indices sh (box_index nG t (Z.of_nat a)) = Some idx ->
    last_at sh nG ious target k idx ->
    (tget (tx r) idx = Some (gt_x t * nGq - floor (gt_x t * nGq)) /\
     0 <= gt_x t * nGq - floor (gt_x t * nGq) /\
     gt_x t * nGq - floor (gt_x t * nGq) < 1) /\
    (tget (ty r) idx = Some (gt_y t * nGq - floor (gt_y t * nGq)) /\
     0 <= gt_y t * nGq - floor (gt_y t * nGq) /\
     gt_y t * nGq - floor (gt_y t * nGq) < 1) /\
    (exists aw ah,
       tget anchors [a; 0%nat] = Some aw /\ tget anchors [a; 1%nat] = Some ah /\
       tget (tw r) idx = Some (torch_log (gt_w t * nGq / aw + 1e-16)) /\
       tget (th r) idx = Some (torch_log (gt_h t * nGq / ah + 1e-16))) /\
    tget (tim r) idx = Some (gt_im t) /\
    tget (tre r) idx = Some (gt_re t) /\
    (exists c, norm_index nC (to_long (gt_class t)) = Some c /\
       tget (tcls r) (idx ++ [c]) = Some 1 /\
       (forall c', (c' < nC)%nat ->
          (forall k' t' a', best_anchor ious target k' t' a' ->
             norm_indices sh (box_index nG t' (Z.of_nat a')) = Some idx ->
             norm_index nC (to_long (gt_class t')) <> Some c') ->
          tget (tcls r) (idx ++ [c']) = Some 0) /\
       ((forall k' t' a', best_anchor ious target k' t' a' ->
           norm_indices sh (box_index nG t' (Z.of_nat a')) = Some idx -> k' = k) ->
        forall c', (c' < nC)%nat ->
          tget (tcls r) (idx ++ [c']) = Some (one_hot c c'))) /\
    (forall idx', tget (tconf r) idx' = bool_to_float <$> tget (obj_mask r) idx').
Proof.
  split; [exact build_targets_returns|]. intros r Hbt k t a idx Hba Hidx Hlast.
  destruct (regression_targets_at self out_boxes pred_cls target anchors nB nA nG nC
              geo r Hshape Hgeo Hne Hcontract Hbt k t a idx Hba Hidx Hlast)
    as (Hx & Hy & Hwh & Him & Hre & (c & Hc & Hcls & Hzero) & Hconf).
  split; [exact Hx|]. split; [exact Hy|]. split; [exact Hwh|].
  split; [exact Him|]. split; [exact Hre|]. split; [|exact Hconf].
  exists c. split; [exact Hc|]. split; [exact Hcls|]. split; [exact Hzero|].
  intros Halone c' Hc'. unfold one_hot.
  destruct (decide (c' = c)) as [->|Hdiff]; [exact Hcls|].
  apply Hzero; [exact Hc'|].
  intros k' t' a' Hba' Hidx' Hlab.
  pose proof (Halone _ _ _ Hba' Hidx') as ->.
  destruct Hba' as [Ht' _]. destruct Hba as [Ht _].
  rewrite Ht in Ht'. injection Ht' as <-.
  rewrite Hc in Hlab. injection Hlab as ->. apply Hdiff. reflexivity.
Qed.

(** C5. [build_targets] returns (for boxes that have a slot), and whenever
    it returns, at every slot: the object mask holds exactly at the slots
    boxes are assigned to; the no-object mask is false exactly at those
    slots and at the slots (batch, anchor, row, column) of a box and an
    anchor whose IoU with the box exceeds [ignore_thresh]; and it is true
    at every other slot. *)
Theorem build_targets_noobj_mask :
  (targets_in_range out_boxes pred_cls target anchors nB nA nG nC ->
   exists r, build_targets self out_boxes pred_cls target anchors = Ok r) /\
  forall r, build_targets self out_boxes pred_cls target anchors = Ok r ->
  forall idx o, offset sh idx = Some o ->
    (tget (obj_mask r) idx = Some true <-> assigned_slot sh nG ious target idx) /\
    (tget (noobj_mask r) idx = Some false <->
     assigned_slot sh nG ious target idx \/
     ignored_slot sh nG (ignore_thresh self) ious target idx) /\
    (tget (noobj_mask r) idx = Some true <->
     ~ (assigned_slot sh nG ious target idx \/
        ignored_slot sh nG (ignore_thresh self) ious target idx)).
Proof.
  split; [exact build_targets_returns|]. intros r Hbt idx o Hoff.
  exact (masks_characterised self out_boxes pred_cls target anchors nB nA nG nC geo r
           Hshape Hgeo Hne Hcontract Hbt idx o Hoff).
Qed.

(** C7. [build_targets] returns (for boxes that have a slot), and whenever
    it returns, for two boxes with different labels assigned to one slot:
    the class target at the slot holds 1 at the label of the earlier box
    and 1 at the label of the later box, so that it is not the one-hot
    vector of the later box (which is 0 at the label of the earlier one);
    the object mask holds at the slot.  The writes of
    [tcls[b, best_n, gj, gi, target_labels] = 1] all carry the value 1, so
    this does not depend on the order in which repeated indices are
    written. *)
Theorem build_targets_collision_class_target :
  (targets_in_range out_boxes pred_cls target anchors nB nA nG nC ->
   exists r, build_targets self out_boxes pred_cls target anchors = Ok r) /\
  forall r, build_targets self out_boxes pred_cls target anchors = Ok r ->
  forall k1 k2 t1 t2 a1 a2 idx c1 c2,
    (k1 < k2)%nat ->
    best_anchor ious target k1 t1 a1 -> best_anchor ious target k2 t2 a2 ->
    norm_indices sh (box_index nG t1 (Z.of_nat a1)) = Some idx ->
    norm_indices sh (box_index nG t2 (Z.of_nat a2)) = Some idx ->
    norm_index nC (to_long (gt_class t1)) = Some c1 ->
    norm_index nC (to_long (gt_class t2)) = Some c2 ->
    c1 <> c2 ->
    tget (tcls r) (idx ++ [c1]) = Some 1 /\
    tget (tcls r) (idx ++ [c2]) = Some 1 /\
    one_hot c2 c1 = 0 /\ ~ 1 == one_hot c2 c1 /\
    tget (obj_mask r) idx = Some true.
Proof.
  split; [exact build_targets_returns|].
  intros r Hbt k1 k2 t1 t2 a1 a2 idx c1 c2 Hlt Hba1 Hba2 Hidx1 Hidx2 Hc1 Hc2 Hdiff.
  split.
  { exact (box_class_target self out_boxes pred_cls target anchors nB nA nG nC geo r
             Hshape Hgeo Hne Hcontract Hbt k1 t1 a1 idx c1 Hba1 Hidx1 Hc1). }
  split.
  { exact (box_class_target self out_boxes pred_cls target anchors nB nA nG nC geo r
             Hshape Hgeo Hne Hcontract Hbt k2 t2 a2 idx c2 Hba2 Hidx2 Hc2). }
  assert (one_hot c2 c1 = 0) as Hoh.
  { unfold one_hot. destruct (decide (c1 = c2)); [contradiction | reflexivity]. }
  split; [exact Hoh|]. split.
  { rewrite Hoh. intros E. discriminate E. }
  destruct (norm_indices_offset _ _ _ Hidx2) as [o Ho].
  apply (masks_characterised self out_boxes pred_cls target anchors nB nA nG nC geo r
           Hshape Hgeo Hne Hcontract Hbt idx o Ho).
  exists k2, t2, a2. split; [exact Hba2 | exact Hidx2].
Qed.

(** C8, amended. For well-formed predictions and anchors and ground-truth
    boxes whose centre coordinates lie in [0, 1) (with a sample index of
    the batch and a label among the classes), [build_targets] returns, and
    every box is placed at the slot
    (batch, best anchor, floor(grid_y), floor(grid_x)), whose row and
    column are less than the grid size and at which the object mask
    holds. *)
Theorem build_targets_in_bounds :
  targets_in_range out_boxes pred_cls target anchors nB nA nG nC ->
  exists r, build_targets self out_boxes pred_cls target anchors = Ok r /\
  forall k t, target !! k = Some t ->
    let b := Z.to_nat (to_long (gt_batch t)) in
    let j := Z.to_nat (Qfloor (gt_y t * nGq)) in
    let i := Z.to_nat (Qfloor (gt_x t * nGq)) in
    (b < nB)%nat /\ (j < nG)%nat /\ (i < nG)%nat /\
    exists a, best_anchor ious target k t a /\ (a < nA)%nat /\
      norm_indices sh (box_index nG t (Z.of_nat a)) = Some [b; a; j; i] /\
      tget (obj_mask r) [b; a; j; i] = Some true.
Proof.
  intros Hin. destruct (build_targets_returns Hin) as [r Hbt].
  exists r. split; [exact Hbt|]. intros k t Ht b j i.
  destruct Hin as (_ & _ & _ & HnA & HnG & _ & _ & Hrange).
  assert (box_in_range nB nC t) as (Hx0 & Hx1 & Hy0 & Hy1 & Hb & _).
  { apply (proj1 (list.Forall_forall _ _) Hrange).
    eapply list_elem_of_lookup_2. exact Ht. }
  pose proof (cell_in_grid _ _ HnG Hx0 Hx1) as Hi.
  pose proof (cell_in_grid _ _ HnG Hy0 Hy1) as Hj.
  assert (0 <= inject_Z (Z.of_nat nG)) as HnGq.
  { change 0 with (inject_Z 0). rewrite <- Zle_Qle. lia. }
  assert (Hjl : to_long (gt_y t * nGq) = Qfloor (gt_y t * nGq)).
  { apply to_long_nonneg. apply Qmult_le_0_compat; assumption. }
  assert (Hil : to_long (gt_x t * nGq) = Qfloor (gt_x t * nGq)).
  { apply to_long_nonneg. apply Qmult_le_0_compat; assumption. }
  fold nGq in Hi, Hj.
  split; [unfold b; lia|]. split; [unfold j; rewrite <- Hjl; lia|].
  split; [unfold i; rewrite <- Hil; lia|].
  destruct (box_assignment self out_boxes pred_cls target anchors nB nA nG nC geo r
              Hshape Hgeo Hne Hcontract Hbt k t Ht) as (a & idx & Hba & Hidx & Hobj).
  exists a. split; [exact Hba|].
  pose proof (best_anchor_lt target nA nG geo Hcontract k t a Hba) as Ha.
  split; [exact Ha|].
  assert (norm_indices sh (box_index nG t (Z.of_nat a)) = Some [b; a; j; i]) as Hidx'.
  { unfold box_index, sh. fold nGq.
    rewrite norm_indices4_nonneg by (try assumption; lia).
    unfold b, j, i. rewrite Nat2Z.id, Hjl, Hil. reflexivity. }
  split; [exact Hidx'|].
  assert (Some idx = Some [b; a; j; i]) as [= ->]
    by (rewrite <- Hidx'; symmetry; exact Hidx).
  exact Hobj.
Qed.

End TargetClaims.

(** * Further properties of the layer *)

(** ** [compute_grid_offsets] *)

Section GridOffsetsMore.
Context {TM : TorchMath} {RU : RotatedBoxUtils}.

(** X1. [compute_grid_offsets] raises ZeroDivisionError for a grid size of
    0 (the stride is [img_size / grid_size]), and returns exactly for a
    positive grid size, a non-zero image size and a list of anchors that
    is not empty and has [num_anchors] elements. *)
Theorem compute_grid_offsets_returns_iff (self : YoloLayer) :
  compute_grid_offsets self 0 = Err ZeroDivisionError /\
  forall g,
    (exists self', compute_grid_offsets self g = Ok self') <->
    ((0 < g)%nat /\ ~ img_size self == 0 /\ anchors self <> [] /\
     num_anchors self = length (anchors self)).
Proof.
  split; [reflexivity|]. intros g. split.
  - intros [self' H]. exact (compute_grid_offsets_inv _ _ _ H).
  - intros (Hg & Himg & Ha & HnA).
    destruct (compute_grid_offsets_ok self g Hg Himg Ha HnA) as (geo & H & _).
    eexists. exact H.
Qed.

(** X2. [compute_grid_offsets] is idempotent: a second call with the same
    grid size on the layer the first call left returns that layer; the
    geometry is a function of the image size, the anchors and the grid
    size alone. *)
Theorem compute_grid_offsets_idempotent (self self1 : YoloLayer) (g : nat) :
  compute_grid_offsets self g = Ok self1 ->
  compute_grid_offsets self1 g = Ok self1.
Proof.
  intros H. pose proof H as H0. unfold compute_grid_offsets in H.
  inv_bind H s Hs. inv_bind H gx Hgx. inv_bind H gyt Hgyt. inv_bind H gy Hgy.
  inv_bind H rows Hrows. inv_bind H c0 Hc0. inv_bind H aw Haw.
  inv_bind H c1 Hc1. inv_bind H ah Hah. injection H as <-.
  unfold compute_grid_offsets. cbn [img_size anchors num_anchors set_geometry].
  rewrite Hs. cbn [mbind result_bind]. rewrite Hgx. cbn [mbind result_bind].
  rewrite Hgyt. cbn [mbind result_bind]. rewrite Hgy. cbn [mbind result_bind].
  rewrite Hrows. cbn [mbind result_bind]. rewrite Hc0. cbn [mbind result_bind].
  rewrite Haw. cbn [mbind result_bind]. rewrite Hc1. cbn [mbind result_bind].
  rewrite Hah. reflexivity.
Qed.

(** X3. After [compute_grid_offsets], [anchor_w] and [anchor_h] have shape
    (1, num_anchors, 1, 1) and hold the widths and heights of the anchors
    divided by the new stride; the anchor polygons are those of the scaled
    anchors with [fix_xy = 100], the areas are the areas of these
    polygons; the stride is [img_size / grid_size], and no other attribute
    of the layer changes. *)
Theorem compute_grid_offsets_anchor_views (self self' : YoloLayer) (g : nat) :
  compute_grid_offsets self g = Ok self' ->
  exists geo,
    geometry self' = Some geo /\
    stride self' = img_size self / inject_Z (Z.of_nat g) /\
    shape (anchor_w geo) = [1; length (anchors self); 1; 1]%nat /\
    shape (anchor_h geo) = [1; length (anchors self); 1; 1]%nat /\
    (forall a a_w a_h im re, anchors self !! a = Some (a_w, a_h, im, re) ->
       tget (anchor_w geo) [0; a; 0; 0]%nat = Some (a_w / stride self') /\
       tget (anchor_h geo) [0; a; 0; 0]%nat = Some (a_h / stride self')) /\
    scaled_anchors_polygons geo
    = get_polygons_fix_xy (scaled_row (stride self') <$> anchors self) 100 /\
    scaled_anchors_areas geo = List.map polygon_area (scaled_anchors_polygons geo) /\
    length (scaled_anchors_areas geo) = length (scaled_anchors_polygons geo) /\
    num_classes self' = num_classes self /\ anchors self' = anchors self /\
    num_anchors self' = num_anchors self /\ scale_x_y self' = scale_x_y self /\
    ignore_thresh self' = ignore_thresh self /\ img_size self' = img_size self /\
    metrics self' = metrics self /\ seen self' = seen self /\
    noobj_scale self' = noobj_scale self /\ obj_scale self' = obj_scale self.
Proof.
  intros H. destruct (compute_grid_offsets_inv _ _ _ H) as (Hg & Himg & Ha & HnA).
  destruct (compute_grid_offsets_ok self g Hg Himg Ha HnA) as (geo & H' & Hok & Hpoly & Harea).
  rewrite H' in H. injection H as <-.
  exists geo. split; [reflexivity|]. split; [reflexivity|].
  destruct Hok as (_ & _ & _ & _ & Hsw & Hsh & Hval).
  cbn [anchors set_geometry] in Hsw, Hsh, Hval.
  split; [exact Hsw|]. split; [exact Hsh|]. split.
  { intros a a_w a_h im re Hl.
    destruct (Hval a a_w a_h im re Hl) as (_ & _ & _ & _ & Hw & Hh).
    split; [exact Hw | exact Hh]. }
  split; [exact Hpoly|]. split; [exact Harea|].
  split; [rewrite Harea; apply length_map|].
  cbn. repeat split; reflexivity.
Qed.

End GridOffsetsMore.

(** ** The output tensor of [forward] *)

Lemma offset3 (d0 d1 d2 i0 i1 i2 : nat) :
  (i0 < d0)%nat -> (i1 < d1)%nat -> (i2 < d2)%nat ->
  offset [d0; d1; d2] [i0; i1; i2] = Some ((i0 * d1 + i1) * d2 + i2)%nat.
Proof.
  intros H0 H1 H2. simpl. repeat (case_decide; [|lia]). simpl. f_equal. lia.
Qed.

Lemma output_row_lt (nA g a j i : nat) :
  (a < nA)%nat -> (j < g)%nat -> (i < g)%nat -> (output_row g a j i < nA * g * g)%nat.
Proof. unfold output_row. intros. nia. Qed.

(** [t.view(ns, -1, w)] of a tensor of shape (ns, nA, g, g, w) shows the
    element at (b, a, j, i, k) at (b, output_row a j i, k). *)
Lemma tget_view_rows {A} (t : Tensor A) (ns nA g w b a j i k : nat) :
  shape t = [ns; nA; g; g; w] ->
  (b < ns)%nat -> (a < nA)%nat -> (j < g)%nat -> (i < g)%nat -> (k < w)%nat ->
  tget (mkTensor [ns; (nA * g * g)%nat; w] (data t)) [b; output_row g a j i; k]
  = tget t [b; a; j; i; k].
Proof.
  intros Hsh Hb Ha Hj Hi Hk. unfold tget. cbn [shape data]. rewrite Hsh.
  rewrite offset3 by (auto using output_row_lt).
  rewrite offset5 by assumption. cbn [mbind option_bind].
  f_equal. unfold output_row. nia.
Qed.

(** The same for a tensor of shape (ns, nA, g, g) viewed as
    (ns, -1, 1). *)
Lemma tget_view_rows1 {A} (t : Tensor A) (ns nA g b a j i : nat) :
  shape t = [ns; nA; g; g] ->
  (b < ns)%nat -> (a < nA)%nat -> (j < g)%nat -> (i < g)%nat ->
  tget (mkTensor [ns; (nA * g * g)%nat; 1%nat] (data t)) [b; output_row g a j i; 0%nat]
  = tget t [b; a; j; i].
Proof.
  intros Hsh Hb Ha Hj Hi. unfold tget. cbn [shape data]. rewrite Hsh.
  rewrite offset3 by (auto using output_row_lt; lia).
  rewrite offset4 by assumption. cbn [mbind option_bind].
  f_equal. unfold output_row. nia.
Qed.

Lemma view_infer_inv (t t' : Tensor Q) (n c : nat) :
  view_infer t n c = Ok t' -> (n * c)%nat <> 0%nat.
Proof. unfold view_infer. case_decide; [discriminate | auto]. Qed.

Lemma tget_slice_last5 (t : Tensor Q) (d0 d1 d2 d3 w lo hi b a j i k : nat) :
  shape t = [d0; d1; d2; d3; w] ->
  (b < d0)%nat -> (a < d1)%nat -> (j < d2)%nat -> (i < d3)%nat ->
  (k < Nat.min hi w - lo)%nat ->
  tget (slice_last t lo hi) [b; a; j; i; k]
  = Some (tgetd t [b; a; j; i; (lo + k)%nat]).
Proof.
  intros Hsh Hb Ha Hj Hi Hk. unfold slice_last. rewrite Hsh.
  cbn [removelast last_index List.last app].
  erewrite tget_tabulate by (apply offset5; assumption). reflexivity.
Qed.

Lemma cat_last4_inv (t1 t2 t3 t4 out : Tensor Q) (pre : list nat) (w1 w2 w3 w4 : nat) :
  shape t1 = pre ++ [w1] -> shape t2 = pre ++ [w2] ->
  shape t3 = pre ++ [w3] -> shape t4 = pre ++ [w4] ->
  cat_last [t1; t2; t3; t4] = Ok out ->
  out = tabulate (pre ++ [(w1 + w2 + w3 + w4)%nat])
          (fun idx => cat_pick [t1; t2; t3; t4] (removelast idx) (last_index idx)).
Proof.
  intros H1 H2 H3 H4 E. unfold cat_last in E.
  case_decide; [|discriminate].
  assert (forall a b : Tensor Q, Ok a = Ok b -> a = b) as Hinj
    by (intros a b [= ->]; reflexivity).
  apply Hinj in E. subst out.
  assert (removelast (shape t1) = pre) as Hpre by (rewrite H1; apply removelast_snoc).
  assert (sum_list ((fun t => last_index (shape t)) <$> [t1; t2; t3; t4])
          = (w1 + w2 + w3 + w4)%nat) as Hsum.
  { cbn [fmap list_fmap sum_list sum_list_with].
    rewrite H1, H2, H3, H4, !last_index_snoc. unfold id. lia. }
  rewrite Hpre, Hsum. reflexivity.
Qed.

Section OutputLayout.
Context {TM : TorchMath} {RU : RotatedBoxUtils}.

(** The last lines of the decoder: the four views and their
    concatenation. *)
Lemma decode_output_inv (self self' : YoloLayer) (x : Tensor Q) (img : Q)
    (d : Decoded) (ns C Hh g : nat) :
  shape x = [ns; C; Hh; g] -> decode self x img = Ok (self', d) ->
  exists o1 o2 o3 o4,
    view_infer (slice_last (out_boxes d) 0 4) ns 4 = Ok o1 /\
    view_infer (slice_last (out_boxes d) 4 6) ns 2 = Ok o2 /\
    view_infer (pred_conf d) ns 1 = Ok o3 /\
    view_infer (pred_cls d) ns (num_classes self) = Ok o4 /\
    cat_last [tmap (fun v => v * stride self') o1; o2; o3; o4] = Ok (output d).
Proof.
  intros Hshape H. unfold decode in H. rewrite Hshape in H.
  cbn [num_anchors num_classes set_img_size grid_size] in H.
  inv_bind H v Hv. inv_bind H selfA HselfA. inv_bind H geo Hgeo.
  inv_bind H c0 Hc0. inv_bind H c1 Hc1. inv_bind H c2 Hc2. inv_bind H c3 Hc3.
  inv_bind H ob Hob. inv_bind H o1 Ho1. inv_bind H o2 Ho2. inv_bind H o3 Ho3.
  inv_bind H o4 Ho4. inv_bind H out Hout. injection H as <- <-.
  exists o1, o2, o3, o4. cbn [out_boxes pred_conf pred_cls output].
  apply view_inv in Hv as [_ ->].
  repeat (split; [assumption|]). assumption.
Qed.

(** The shape and the entries of [output d], from those of the decoded
    tensors. *)
Lemma decode_output (self self' : YoloLayer) (x : Tensor Q) (img : Q)
    (d : Decoded) (ns C Hh g : nat) :
  shape x = [ns; C; Hh; g] -> decode self x img = Ok (self', d) ->
  let nA := num_anchors self in
  let nC := num_classes self in
  shape (output d) = [ns; (nA * g * g)%nat; (nC + 7)%nat] /\
  wf_tensor (output d) /\
  forall b a j i,
    (b < ns)%nat -> (a < nA)%nat -> (j < g)%nat -> (i < g)%nat ->
    let r := output_row g a j i in
    (forall c, (c < 4)%nat ->
       tget (output d) [b; r; c]
       = Some (tgetd (out_boxes d) [b; a; j; i; c] * stride self')) /\
    (forall c, (c < 2)%nat ->
       tget (output d) [b; r; (4 + c)%nat]
       = Some (tgetd (out_boxes d) [b; a; j; i; (4 + c)%nat])) /\
    tget (output d) [b; r; 6%nat] = tget (pred_conf d) [b; a; j; i] /\
    (forall c, (c < nC)%nat ->
       tget (output d) [b; r; (7 + c)%nat] = tget (pred_cls d) [b; a; j; i; c]).
Proof.
  intros Hshape Hdec nA nC.
  destruct (decode_shapes _ _ _ _ _ _ _ _ _ Hshape Hdec)
    as (Hconf & Hwfconf & Hcls & Hwfcls & Hob).
  fold nA in Hconf, Hcls, Hob. fold nC in Hcls.
  destruct (decode_output_inv _ _ _ _ _ _ _ _ _ Hshape Hdec)
    as (o1 & o2 & o3 & o4 & Ho1 & Ho2 & Ho3 & Ho4 & Hcat).
  fold nC in Ho4.
  pose proof (view_infer_inv _ _ _ _ Ho1) as Hns4.
  pose proof (view_infer_inv _ _ _ _ Ho4) as HnsC.
  assert (Hs1 : shape (slice_last (out_boxes d) 0 4) = [ns; nA; g; g; 4%nat]).
  { rewrite shape_slice_last, Hob. reflexivity. }
  assert (Hs2 : shape (slice_last (out_boxes d) 4 6) = [ns; nA; g; g; 2%nat]).
  { rewrite shape_slice_last, Hob. reflexivity. }
  rewrite (view_infer_Ok _ ns (nA * g * g) 4) in Ho1; cycle 1.
  { unfold slice_last. rewrite length_data_tabulate, Hob. simpl. lia. }
  { lia. }
  rewrite (view_infer_Ok _ ns (nA * g * g) 2) in Ho2; cycle 1.
  { unfold slice_last. rewrite length_data_tabulate, Hob. simpl. lia. }
  { lia. }
  rewrite (view_infer_Ok _ ns (nA * g * g) 1) in Ho3; cycle 1.
  { rewrite Hwfconf, Hconf. simpl. lia. }
  { lia. }
  rewrite (view_infer_Ok _ ns (nA * g * g) nC) in Ho4; cycle 1.
  { rewrite Hwfcls, Hcls. simpl. lia. }
  { lia. }
  injection Ho1 as <-. injection Ho2 as <-. injection Ho3 as <-. injection Ho4 as <-.
  apply (cat_last4_inv _ _ _ _ _ [ns; (nA * g * g)%nat] 4 2 1 nC) in Hcat as Hout;
    [| reflexivity..].
  replace (4 + 2 + 1 + nC)%nat with (nC + 7)%nat in Hout by lia.
  cbn [app] in Hout.
  split; [rewrite Hout; reflexivity|].
  split; [rewrite Hout; apply wf_tabulate|].
  intros b a j i Hb Ha Hj Hi r.
  assert (Hr : (r < nA * g * g)%nat) by (apply output_row_lt; assumption).
  assert (Hget : forall c, (c < nC + 7)%nat ->
            tget (output d) [b; r; c]
            = Some (cat_pick
                      [tmap (fun v => v * stride self')
                         (mkTensor [ns; (nA * g * g)%nat; 4%nat]
                            (data (slice_last (out_boxes d) 0 4)));
                       mkTensor [ns; (nA * g * g)%nat; 2%nat]
                         (data (slice_last (out_boxes d) 4 6));
                       mkTensor [ns; (nA * g * g)%nat; 1%nat] (data (pred_conf d));
                       mkTensor [ns; (nA * g * g)%nat; nC] (data (pred_cls d))]
                      [b; r] c)).
  { intros c Hc. rewrite Hout.
    erewrite tget_tabulate by (apply offset3; assumption). reflexivity. }
  split.
  { intros c Hc. rewrite Hget by lia. cbn [cat_pick shape tmap last_index List.last].
    case_decide; [|lia]. cbn [app]. unfold tgetd at 1. rewrite tget_tmap.
    unfold r. rewrite (tget_view_rows _ ns nA g 4 b a j i c Hs1) by assumption.
    rewrite (tget_slice_last5 _ ns nA g g 6 0 4 b a j i c Hob) by (simpl; lia).
    reflexivity. }
  split.
  { intros c Hc. rewrite Hget by lia. cbn [cat_pick shape tmap last_index List.last].
    case_decide; [lia|]. case_decide; [|lia]. cbn [app]. unfold tgetd at 1.
    replace (4 + c - 4)%nat with c by lia.
    unfold r. rewrite (tget_view_rows _ ns nA g 2 b a j i c Hs2) by assumption.
    rewrite (tget_slice_last5 _ ns nA g g 6 4 6 b a j i c Hob) by (simpl; lia).
    reflexivity. }
  split.
  { rewrite Hget by lia. cbn [cat_pick shape tmap last_index List.last].
    case_decide; [lia|]. case_decide; [lia|]. case_decide; [|lia].
    cbn [app Nat.sub]. unfold tgetd. unfold r.
    rewrite (tget_view_rows1 _ ns nA g b a j i Hconf) by assumption.
    destruct (tget_wf_is_Some (pred_conf d) [b; a; j; i] _ Hwfconf
                ltac:(rewrite Hconf; apply offset4; assumption)) as [v ->].
    reflexivity. }
  intros c Hc. rewrite Hget by lia. cbn [cat_pick shape tmap last_index List.last].
  case_decide; [lia|]. case_decide; [lia|]. case_decide; [lia|].
  case_decide; [|lia]. cbn [app]. unfold tgetd. unfold r.
  replace (7 + c - 4 - 2 - 1)%nat with c by lia.
  rewrite (tget_view_rows _ ns nA g nC b a j i c Hcls) by assumption.
  destruct (tget_wf_is_Some (pred_cls d) [b; a; j; i; c] _ Hwfcls
              ltac:(rewrite Hcls; apply offset5; assumption)) as [v ->].
  reflexivity.
Qed.

End OutputLayout.

(** ** The theorems at a concrete layer

    The layer of [demo_layer] (two anchors, two classes) on a 2 x 2 grid,
    with the rational stand-ins of [demo_math] and the axis-aligned IoU of
    [demo_utils]. *)

#[local] Existing Instance demo_math.
#[local] Existing Instance demo_utils.

Lemma demo_layer_ok : layer_ok demo_layer.
Proof.
  split; [reflexivity|]. split.
  - intros H. exfalso. apply H. reflexivity.
  - intros geo H. discriminate H.
Qed.

Lemma demo_input_ok : input_ok demo_layer demo_x 8 1 2.
Proof.
  split; [reflexivity|]. split; [reflexivity|].
  split; [lia|]. split; [lia|]. split; [cbn; lia|].
  split; [discriminate|]. intros H. vm_compute in H. discriminate H.
Qed.

(** The first call of [forward] returns the layer [demo_after]. *)
Lemma demo_call_ok :
  exists d, decode demo_layer demo_x 8 = Ok (demo_after, d) /\
            demo_call = Ok (demo_after, (output d, Fin 0)).
Proof.
  destruct demo_input_ok as (Hsh & Hwf & Hns & Hg & HnC & Ha & Himg).
  destruct (decode_ok demo_layer demo_x 8 1 2 demo_layer_ok Hsh Hwf Hns Hg HnC Ha Himg)
    as (s & d & Hd).
  assert (demo_call = Ok (s, (output d, Fin 0))) as Hcall.
  { unfold demo_call, forward. rewrite Hd. reflexivity. }
  assert (demo_after = s) as Hs.
  { unfold demo_after. rewrite Hcall. reflexivity. }
  exists d. rewrite Hs. split; [exact Hd | exact Hcall].
Qed.

Lemma demo_after_ok :
  layer_ok demo_after /\ anchors demo_after = demo_anchors /\
  num_anchors demo_after = 2%nat /\ num_classes demo_after = 2%nat /\
  grid_size demo_after = 2%nat.
Proof.
  destruct demo_call_ok as (d & Hd & _).
  destruct (decode_layer_ok _ _ _ _ _ demo_layer_ok Hd) as (Hok & Ha & HnA & HnC & _).
  split; [exact Hok|]. split; [exact Ha|]. split; [exact HnA|]. split; [exact HnC|].
  destruct (decode_cache demo_layer demo_after demo_x 8 d 1 18 2 2 eq_refl Hd)
    as [_ Hnew].
  assert (compute_grid_offsets (set_img_size demo_layer 8) 2 = Ok demo_after) as Hc.
  { apply Hnew. discriminate. }
  destruct (compute_grid_offsets_geometry _ _ _ Hc) as (geo & -> & _). reflexivity.
Qed.

Lemma demo_geometry : geometry demo_after = Some demo_geo.
Proof.
  destruct demo_after_ok as ((_ & Hsome & _) & _ & _ & _ & Hg).
  unfold demo_geo. destruct (geometry demo_after) as [geo|] eqn:E; [reflexivity|].
  exfalso. apply Hsome; [rewrite Hg; discriminate | reflexivity].
Qed.

Lemma demo_contract (target : list GTBox) :
  shape (target_ious demo_geo 2 target) = [2%nat; length target].
Proof.
  unfold target_ious. cbn [iou_rotated_boxes_vs_anchors demo_utils get_polygons_fix_xy].
  unfold tabulate. cbn [shape]. rewrite !length_map. reflexivity.
Qed.

Lemma demo_box_in_range (t : GTBox) :
  Qle_bool 0 (gt_x t) && negb (Qle_bool 1 (gt_x t)) &&
  Qle_bool 0 (gt_y t) && negb (Qle_bool 1 (gt_y t)) &&
  (0 <=? to_long (gt_batch t))%Z && (to_long (gt_batch t) <? 1)%Z &&
  (0 <=? to_long (gt_class t))%Z && (to_long (gt_class t) <? 2)%Z = true ->
  box_in_range 1 2 t.
Proof.
  intros H. repeat (apply andb_prop in H; destruct H as [H ?]).
  unfold box_in_range.
  repeat match goal with
         | H : Qle_bool _ _ = true |- _ => apply Qle_bool_iff in H
         | H : negb (Qle_bool _ _) = true |- _ =>
             apply negb_true_iff, Qle_bool_false in H
         end.
  split; [assumption|]. split; [assumption|]. split; [assumption|].
  split; [assumption|]. lia.
Qed.

Lemma demo_targets_in_range (target : list GTBox) :
  Forall (box_in_range 1 2) target ->
  targets_in_range demo_out_boxes demo_pred_cls target (scaled_anchors demo_geo) 1 2 2 2.
Proof.
  intros H. split; [reflexivity|]. split; [reflexivity|]. split.
  { intros boxes Hb. cbn [iou_pred_vs_target_boxes demo_utils].
    rewrite length_zip_with, length_map. lia. }
  split; [lia|]. split; [lia|]. split; [reflexivity|]. split; [reflexivity|].
  exact H.
Qed.

(** A first maximum computed by [argmax] is the best anchor of a box. *)
Lemma best_anchor_of_argmax (ious : Tensor Q)
    (target : list GTBox) (k : nat) (t : GTBox) (a : nat) (v : Q) :
  target !! k = Some t ->
  argmax (column ious (nth 0 (shape ious) 0%nat) k) = Ok (v, a) ->
  best_anchor ious target k t a.
Proof.
  intros Ht Ha. split; [exact Ht|]. exact (proj1 (argmax_spec _ _ _ Ha)).
Qed.

Lemma demo_targets_ok : Forall (box_in_range 1 2) demo_targets.
Proof. repeat constructor; apply demo_box_in_range; reflexivity. Qed.

Lemma collision_targets_ok : Forall (box_in_range 1 2) collision_targets.
Proof. repeat constructor; apply demo_box_in_range; reflexivity. Qed.

(** No box follows the last of two boxes. *)
Lemma last_of_two (sh : list nat) (nG : nat) (ious : Tensor Q) (t1 t2 : GTBox)
    (idx : list nat) :
  last_at sh nG ious [t1; t2] 1 idx.
Proof.
  intros k' t' a' Hlt [Ht' _].
  destruct k' as [|[|k']]; [lia | lia | discriminate Ht'].
Qed.

(** C6 at the demo layer, on a 2 x 2 grid of an image of size 8. *)
Lemma compute_grid_offsets_spec_witness :
  exists self' geo,
    compute_grid_offsets (set_img_size demo_layer 8) 2 = Ok self' /\
    geometry self' = Some geo /\
    stride self' = 8 / inject_Z (Z.of_nat 2) /\
    tget (grid_x geo) [0; 0; 1; 0]%nat = Some (inject_Z (Z.of_nat 0)) /\
    tget (grid_y geo) [0; 0; 1; 0]%nat = Some (inject_Z (Z.of_nat 1)) /\
    tget (scaled_anchors geo) [1; 0]%nat = Some (8 / stride self') /\
    tget (scaled_anchors geo) [1; 1]%nat = Some (4 / stride self') /\
    tget (scaled_anchors geo) [1; 2]%nat = Some 0 /\
    tget (scaled_anchors geo) [1; 3]%nat = Some 1.
Proof.
  destruct (compute_grid_offsets_spec (set_img_size demo_layer 8) 2)
    as (self' & geo & Hc & Hg & _ & Hs & _ & _ & Hgrid & _ & Hanch).
  - lia.
  - intros H. vm_compute in H. discriminate H.
  - discriminate.
  - reflexivity.
  - exists self', geo. split; [exact Hc|]. split; [exact Hg|]. split; [exact Hs|].
    destruct (Hgrid 1%nat 0%nat) as [Hx Hy]; [lia | lia |].
    split; [exact Hx|]. split; [exact Hy|].
    exact (Hanch 1%nat 8 4 0 1 eq_refl).
Defined.

(** C3 at the demo layer and input, for anchor 1 of cell (1, 0). *)
Lemma decode_channels_and_boxes_witness :
  exists self' d,
    decode demo_layer demo_x 8 = Ok (self', d) /\
    let raw := raw_channel demo_x 2 2 2 0 1 1 0 in
    tget (pred_x d) [0; 1; 1; 0]%nat = Some (torch_sigmoid (raw 0%nat)) /\
    tget (pred_w d) [0; 1; 1; 0]%nat = Some (raw 2%nat) /\
    tget (pred_conf d) [0; 1; 1; 0]%nat = Some (torch_sigmoid (raw 6%nat)) /\
    tget (out_boxes d) [0; 1; 1; 0; 0]%nat
      = Some (torch_sigmoid (raw 0%nat) + inject_Z (Z.of_nat 0)) /\
    tget (out_boxes d) [0; 1; 1; 0; 2]%nat
      = Some (torch_exp (raw 2%nat) * (8 / stride self')) /\
    tget (out_boxes d) [0; 1; 1; 0; 4]%nat = Some (raw 4%nat).
Proof.
  destruct (decode_channels_and_boxes demo_layer demo_x 8 1 18 2 2 demo_layer_ok eq_refl)
    as [Hret Hval].
  destruct (Hret demo_input_ok) as (self' & d & Hd).
  exists self', d. split; [exact Hd|].
  destruct (Hval self' d Hd 0%nat 1%nat 1%nat 0%nat 8 4 0 1) as
    (_ & Hx & _ & Hw & _ & _ & _ & Hconf & _ & Hbx & _ & Hbw & _ & Hbim & _);
    [lia | lia | lia | reflexivity |].
  split; [exact Hx|]. split; [exact Hw|]. split; [exact Hconf|].
  split; [exact Hbx|]. split; [exact Hbw|]. exact Hbim.
Defined.

(** C9: a second call on the same grid keeps the geometry of the first. *)
Lemma forward_geometry_cache_witness :
  exists self' out,
    forward demo_after demo_x None 8 = Ok (self', out) /\
    geometry self' = geometry demo_after /\
    grid_size self' = grid_size demo_after /\
    stride self' = stride demo_after.
Proof.
  destruct demo_after_ok as (Hok & Ha & HnA & HnC & Hg).
  destruct (decode_ok demo_after demo_x 8 1 2 Hok) as (s & d & Hd).
  - rewrite HnA, HnC. reflexivity.
  - reflexivity.
  - lia.
  - lia.
  - rewrite HnC. lia.
  - rewrite Ha. discriminate.
  - intros H. vm_compute in H. discriminate H.
  - assert (forward demo_after demo_x None 8 = Ok (s, (output d, Fin 0))) as E.
    { unfold forward. rewrite Hd. reflexivity. }
    exists s, (output d, Fin 0). split; [exact E|].
    apply (forward_geometry_cache demo_after s demo_x None 8 _ 1 18 2 2 eq_refl E).
    symmetry. exact Hg.
Defined.

(** C1 at the demo layer and input. *)
Lemma forward_empty_targets_loss_nan_witness :
  exists self' out, forward demo_layer demo_x (Some []) 8 = Ok (self', (out, NaN)).
Proof.
  exact (forward_empty_targets_loss_nan demo_layer demo_x 8 1 2
           demo_layer_ok demo_input_ok).
Defined.

(** C2, amended, at two boxes in different cells. *)
Lemma build_targets_best_anchor_witness :
  exists r,
    build_targets demo_after demo_out_boxes demo_pred_cls demo_targets
      (scaled_anchors demo_geo) = Ok r /\
    forall k t, demo_targets !! k = Some t ->
    exists a idx,
      best_anchor (target_ious demo_geo 2 demo_targets) demo_targets k t a /\
      norm_indices [1; 2; 2; 2]%nat (box_index 2 t (Z.of_nat a)) = Some idx /\
      tget (obj_mask r) idx = Some true.
Proof.
  destruct (build_targets_best_anchor demo_after demo_out_boxes demo_pred_cls
              demo_targets (scaled_anchors demo_geo) 1 2 2 2 demo_geo
              eq_refl demo_geometry ltac:(discriminate) (demo_contract _))
    as [Hret Hval].
  destruct (Hret (demo_targets_in_range _ demo_targets_ok)) as [r Hr].
  exists r. split; [exact Hr | exact (Hval r Hr)].
Defined.

(** C4, amended, at the second of the two boxes: anchor 1 of cell (0, 1). *)
Lemma build_targets_regression_targets_witness :
  let t := mkGT 0 1 0.8 0.2 0.9 0.5 0 1 in
  let idx := [0; 1; 0; 1]%nat in
  exists r,
    build_targets demo_after demo_out_boxes demo_pred_cls demo_targets
      (scaled_anchors demo_geo) = Ok r /\
    tget (tx r) idx = Some (gt_x t * 2 - floor (gt_x t * 2)) /\
    tget (ty r) idx = Some (gt_y t * 2 - floor (gt_y t * 2)) /\
    (exists aw ah,
       tget (scaled_anchors demo_geo) [1; 0]%nat = Some aw /\
       tget (scaled_anchors demo_geo) [1; 1]%nat = Some ah /\
       tget (tw r) idx = Some (torch_log (gt_w t * 2 / aw + 1e-16)) /\
       tget (th r) idx = Some (torch_log (gt_h t * 2 / ah + 1e-16))) /\
    tget (tim r) idx = Some (gt_im t) /\
    tget (tre r) idx = Some (gt_re t) /\
    tget (tcls r) (idx ++ [1%nat]) = Some 1 /\
    tget (tcls r) (idx ++ [0%nat]) = Some 0 /\
    tget (tconf r) idx = bool_to_float <$> tget (obj_mask r) idx.
Proof.
  intros t idx.
  destruct (build_targets_regression_targets demo_after demo_out_boxes demo_pred_cls
              demo_targets (scaled_anchors demo_geo) 1 2 2 2 demo_geo
              eq_refl demo_geometry ltac:(discriminate) (demo_contract _))
    as [Hret Hval].
  destruct (Hret (demo_targets_in_range _ demo_targets_ok)) as [r Hr].
  exists r. split; [exact Hr|].
  assert (best_anchor (target_ious demo_geo 2 demo_targets) demo_targets 1 t 1) as Hbest.
  { eapply best_anchor_of_argmax; [reflexivity | vm_compute; reflexivity]. }
  destruct (Hval r Hr 1%nat t 1%nat idx Hbest eq_refl (last_of_two _ _ _ _ _ _))
    as ((Hx & _) & (Hy & _) & Hwh & Him & Hre & (c & Hc & Hcls & Hzero & _) & Hconf).
  split; [exact Hx|]. split; [exact Hy|]. split; [exact Hwh|].
  split; [exact Him|]. split; [exact Hre|].
  vm_compute in Hc. injection Hc as <-.
  split; [exact Hcls|]. split; [|exact (Hconf idx)].
  apply Hzero; [lia|].
  intros k' t' a' [Ht' Hfm] Hidx'.
  destruct k' as [|[|k']]; [| |discriminate Ht']; injection Ht' as <-.
  - assert (a' = 1%nat) as ->.
    { eapply first_max_unique; [exact Hfm|].
      refine (proj1 (argmax_spec _ _ _ _)). vm_compute. reflexivity. }
    vm_compute in Hidx'. discriminate Hidx'.
  - vm_compute. discriminate.
Defined.

(** C5 at the slot of the first box: anchor 1 of cell (1, 0). *)
Lemma build_targets_noobj_mask_witness :
  let ious := target_ious demo_geo 2 demo_targets in
  let sh := [1; 2; 2; 2]%nat in
  let idx := [0; 1; 1; 0]%nat in
  exists r,
    build_targets demo_after demo_out_boxes demo_pred_cls demo_targets
      (scaled_anchors demo_geo) = Ok r /\
    (tget (obj_mask r) idx = Some true <-> assigned_slot sh 2 ious demo_targets idx) /\
    (tget (noobj_mask r) idx = Some false <->
     assigned_slot sh 2 ious demo_targets idx \/
     ignored_slot sh 2 (ignore_thresh demo_after) ious demo_targets idx) /\
    (tget (noobj_mask r) idx = Some true <->
     ~ (assigned_slot sh 2 ious demo_targets idx \/
        ignored_slot sh 2 (ignore_thresh demo_after) ious demo_targets idx)).
Proof.
  intros ious sh idx.
  destruct (build_targets_noobj_mask demo_after demo_out_boxes demo_pred_cls
              demo_targets (scaled_anchors demo_geo) 1 2 2 2 demo_geo
              eq_refl demo_geometry ltac:(discriminate) (demo_contract _))
    as [Hret Hval].
  destruct (Hret (demo_targets_in_range _ demo_targets_ok)) as [r Hr].
  exists r. split; [exact Hr|].
  exact (Hval r Hr idx 6%nat eq_refl).
Defined.

(** C7 at two boxes of one cell with labels 0 and 1: the class target of
    the slot is 1 at both labels. *)
Lemma build_targets_collision_class_target_witness :
  let idx := [0; 1; 1; 0]%nat in
  exists r,
    build_targets demo_after demo_out_boxes demo_pred_cls collision_targets
      (scaled_anchors demo_geo) = Ok r /\
    tget (tcls r) (idx ++ [0%nat]) = Some 1 /\
    tget (tcls r) (idx ++ [1%nat]) = Some 1 /\
    one_hot 1 0 = 0 /\ ~ 1 == one_hot 1 0 /\
    tget (obj_mask r) idx = Some true.
Proof.
  intros idx.
  destruct (build_targets_collision_class_target demo_after demo_out_boxes
              demo_pred_cls collision_targets (scaled_anchors demo_geo) 1 2 2 2
              demo_geo eq_refl demo_geometry ltac:(discriminate) (demo_contract _))
    as [Hret Hval].
  destruct (Hret (demo_targets_in_range _ collision_targets_ok)) as [r Hr].
  exists r. split; [exact Hr|].
  apply (Hval r Hr 0%nat 1%nat (mkGT 0 0 0.3 0.7 0.5 0.5 0 1)
           (mkGT 0 1 0.4 0.6 0.9 0.5 0 1) 1%nat 1%nat idx 0%nat 1%nat).
  - lia.
  - eapply best_anchor_of_argmax; [reflexivity | vm_compute; reflexivity].
  - eapply best_anchor_of_argmax; [reflexivity | vm_compute; reflexivity].
  - reflexivity.
  - reflexivity.
  - reflexivity.
  - reflexivity.
  - discriminate.
Defined.

(** C8, amended, at the two boxes of [demo_targets]. *)
Lemma build_targets_in_bounds_witness :
  exists r,
    build_targets demo_after demo_out_boxes demo_pred_cls demo_targets
      (scaled_anchors demo_geo) = Ok r /\
    forall k t, demo_targets !! k = Some t ->
      let b := Z.to_nat (to_long (gt_batch t)) in
      let j := Z.to_nat (Qfloor (gt_y t * inject_Z (Z.of_nat 2))) in
      let i := Z.to_nat (Qfloor (gt_x t * inject_Z (Z.of_nat 2))) in
      (b < 1)%nat /\ (j < 2)%nat /\ (i < 2)%nat /\
      exists a, best_anchor (target_ious demo_geo 2 demo_targets) demo_targets k t a /\
        (a < 2)%nat /\
        norm_indices [1; 2; 2; 2]%nat (box_index 2 t (Z.of_nat a)) = Some [b; a; j; i] /\
        tget (obj_mask r) [b; a; j; i] = Some true.
Proof.
  exact (build_targets_in_bounds demo_after demo_out_boxes demo_pred_cls
           demo_targets (scaled_anchors demo_geo) 1 2 2 2 demo_geo
           eq_refl demo_geometry ltac:(discriminate) (demo_contract _)
           (demo_targets_in_range _ demo_targets_ok)).
Defined.

(** ** Where the code departs from the specification *)

(** C2 as stated. With the IoU matrix in the layout of the specification
    (one row per box, one column per anchor), the second of two boxes has
    its maximal IoU with anchor 1, and the code leaves the object mask
    false at that anchor of the box's cell: [ious.max(0)] takes the maxima
    over the first axis, which the code reads as the anchors. *)
Lemma build_targets_best_anchor_counterexample :
  let ious := target_ious (RU := spec_layout_utils) spec_geo 2 spec_targets in
  exists r,
    build_targets (RU := spec_layout_utils) spec_layer demo_out_boxes demo_pred_cls
      spec_targets (scaled_anchors spec_geo) = Ok r /\
    shape ious = [length spec_targets; length demo_anchors] /\
    ~ (forall k t, spec_targets !! k = Some t ->
       exists a idx,
         spec_best_anchor ious spec_targets k t a /\
         norm_indices [1; 2; 2; 2]%nat (box_index 2 t (Z.of_nat a)) = Some idx /\
         tget (obj_mask r) idx = Some true).
Proof.
  intros ious. eexists. split; [vm_compute; reflexivity|].
  split; [reflexivity|].
  intros H. destruct (H 1%nat _ eq_refl) as (a & idx & [_ Hfm] & Hidx & Hobj).
  assert (a = 1%nat) as ->.
  { eapply first_max_unique; [exact Hfm|].
    refine (proj1 (argmax_spec _ _ _ _)). vm_compute. reflexivity. }
  vm_compute in Hidx. injection Hidx as <-.
  vm_compute in Hobj. discriminate Hobj.
Qed.

(** C4 as stated. Two boxes on one slot: the first box is assigned to the
    slot, and tx at the slot is not the fractional part of its grid
    coordinate (0.6) but that of the second box (0.8), whose write
    replaced it. *)
Lemma build_targets_regression_targets_counterexample :
  let ious := target_ious demo_geo 2 collision_targets in
  let sh := [1; 2; 2; 2]%nat in
  let idx := [0; 1; 1; 0]%nat in
  let nGq := inject_Z (Z.of_nat 2) in
  exists r t1 v,
    build_targets demo_after demo_out_boxes demo_pred_cls collision_targets
      (scaled_anchors demo_geo) = Ok r /\
    best_anchor ious collision_targets 0 t1 1 /\
    norm_indices sh (box_index 2 t1 (Z.of_nat 1)) = Some idx /\
    tget (tx r) idx = Some v /\
    v == 8 # 10 /\
    gt_x t1 * nGq - floor (gt_x t1 * nGq) == 6 # 10 /\
    ~ v == gt_x t1 * nGq - floor (gt_x t1 * nGq).
Proof.
  intros ious sh idx nGq. eexists. eexists. eexists.
  split; [vm_compute; reflexivity|].
  split; [eapply best_anchor_of_argmax; [reflexivity | vm_compute; reflexivity]|].
  split; [reflexivity|].
  split; [vm_compute; reflexivity|].
  split; [reflexivity|]. split; [reflexivity|].
  intros E. vm_compute in E. discriminate E.
Qed.

(** C8 as stated. A box whose centre lies at x = 1, which the data model
    permits, has column index [grid_size], and [build_targets] raises
    IndexError. *)
Lemma build_targets_in_bounds_counterexample :
  Forall (box_in_closed_range 1 2) border_targets /\
  wf_tensor demo_pred_cls /\
  shape demo_pred_cls = [1; 2; 2; 2; 2]%nat /\
  shape demo_out_boxes = [1; 2; 2; 2; 6]%nat /\
  geometry demo_after = Some demo_geo /\
  (forall t, In t border_targets ->
     ~ (Z.to_nat (Qfloor (gt_x t * inject_Z (Z.of_nat 2))) < 2)%nat) /\
  build_targets demo_after demo_out_boxes demo_pred_cls border_targets
    (scaled_anchors demo_geo) = Err IndexError.
Proof.
  split.
  { repeat constructor; vm_compute; try discriminate; try reflexivity. }
  split; [reflexivity|]. split; [reflexivity|]. split; [reflexivity|].
  split; [exact demo_geometry|]. split.
  - intros t [<- | []]. vm_compute. lia.
  - vm_compute. reflexivity.
Qed.
